(** * Warp-consistency training utilities: a shallow embedding

    The development follows the Python sources

    - [training/losses/basic_losses.py]
    - [training/losses/warp_consistency_losses.py]
    - [training/actors/warp_consistency_utils/online_triplet_creation.py]
    - [models/PWCNet/pwc_net.py]

    Tensors are nested lists indexed [b][c][y][x].  Tensor entries are
    rationals ([Q]): arithmetic is exact, so rounding is not part of the
    model; finite values are unbounded, so overflow is not part of it
    either.  The point-wise losses test their error maps for NaN and Inf, so
    there the entries are rationals extended with the two infinities and NaN
    ([xq]); the warp of [pwc_net.py] is given on such entries as well. *)

From Stdlib Require Import String.
From Stdlib Require Import List ZArith QArith Qround Qabs Bool Lia Lqa.
Import ListNotations.
Open Scope Q_scope.

Set Implicit Arguments.

(* ===================================================================== *)
(** ** Tensors as nested lists *)
(* ===================================================================== *)

Module Tensor.

Definition image (A : Type) := list (list A).          (* (H, W) *)
Definition tensor3 (A : Type) := list (image A).        (* (C, H, W) or (B, H, W) *)
Definition tensor4 (A : Type) := list (tensor3 A).      (* (B, C, H, W) *)

Section Shape.
Variable A : Type.

Definition height (im : image A) : nat := length im.
Definition width (im : image A) : nat := length (hd [] im).

    (** [t.shape] of a 4-dimensional tensor. *)
Definition shape4 (t : tensor4 A) : nat * nat * nat * nat :=
      (length t, length (hd [] t), height (hd [] (hd [] t)), width (hd [] (hd [] t))).

    (** All rows of an image have [w] entries and there are [h] of them. *)
Definition image_wf (h w : nat) (im : image A) : Prop :=
      length im = h /\ Forall (fun row => length row = w) im.

Definition tensor3_wf (c h w : nat) (t : tensor3 A) : Prop :=
      length t = c /\ Forall (image_wf h w) t.

Definition tensor4_wf (b c h w : nat) (t : tensor4 A) : Prop :=
      length t = b /\ Forall (tensor3_wf c h w) t.
End Shape.

Fixpoint zip_with (A B C : Type) (f : A -> B -> C) (l : list A) (m : list B) : list C :=
    match l, m with
    | x :: l', y :: m' => f x y :: zip_with f l' m'
    | _, _ => []
    end.

Definition imap (A B : Type) (f : A -> B) (im : image A) : image B := map (map f) im.
Definition tmap3 (A B : Type) (f : A -> B) (t : tensor3 A) : tensor3 B := map (imap f) t.
Definition tmap (A B : Type) (f : A -> B) (t : tensor4 A) : tensor4 B := map (tmap3 f) t.

Definition izip (A B C : Type) (f : A -> B -> C) (x : image A) (y : image B) : image C :=
    zip_with (zip_with f) x y.
Definition tzip3 (A B C : Type) (f : A -> B -> C) (x : tensor3 A) (y : tensor3 B)
    : tensor3 C := zip_with (izip f) x y.
Definition tzip (A B C : Type) (f : A -> B -> C) (x : tensor4 A) (y : tensor4 B)
    : tensor4 C := zip_with (tzip3 f) x y.

  (** [torch.full((h, w), v)]. *)
Definition ifull (A : Type) (h w : nat) (v : A) : image A := repeat (repeat v w) h.
Definition tfull (A : Type) (b c h w : nat) (v : A) : tensor4 A :=
    repeat (repeat (ifull h w v) c) b.

  (** Entry [y][x] of an image, [d] outside. *)
Definition pix (A : Type) (d : A) (im : image A) (y x : nat) : A :=
    nth x (nth y im []) d.

  (** [l[c] = f(l[c])]; nothing happens when [c] is out of range. *)
Fixpoint map_at (A : Type) (c : nat) (f : A -> A) (l : list A) : list A :=
    match l, c with
    | [], _ => []
    | x :: r, O => f x :: r
    | x :: r, S c' => x :: map_at c' f r
    end.

  (** [t[:, c] = f(t[:, c])], entry by entry. *)
Definition map_channel (A : Type) (c : nat) (f : A -> A) (t : tensor4 A) : tensor4 A :=
    map (map_at c (imap f)) t.

  (** [t[:, c] *= k] : multiply one channel of every sample. *)
Definition scale_channel (c : nat) (k : Q) (t : tensor4 Q) : tensor4 Q :=
    map_channel c (fun v => v * k) t.

  (** Point-wise equality of rational tensors. *)
Definition ieq : image Q -> image Q -> Prop := Forall2 (Forall2 Qeq).
Definition teq3 : tensor3 Q -> tensor3 Q -> Prop := Forall2 ieq.
Definition teq : tensor4 Q -> tensor4 Q -> Prop := Forall2 teq3.

End Tensor.
Import Tensor.

(** [float(n)] of a Python integer. *)
Definition Qnat (n : nat) : Q := inject_Z (Z.of_nat n).

(* ===================================================================== *)
(** ** Tensor entries that can be infinite or NaN *)
(* ===================================================================== *)

Module XQ.

(** A rational, plus or minus infinity, or NaN.  Finite values are exact;
    the special values follow the IEEE rules (zeros are unsigned). *)
Inductive xq := Fin (q : Q) | PInf | NInf | NaN.

Definition isnan (x : xq) : bool := match x with NaN => true | _ => false end.
Definition isinf (x : xq) : bool := match x with PInf | NInf => true | _ => false end.

Definition xopp (x : xq) : xq :=
  match x with Fin q => Fin (- q) | PInf => NInf | NInf => PInf | NaN => NaN end.

Definition xabs (x : xq) : xq :=
  match x with Fin q => Fin (Qabs q) | PInf | NInf => PInf | NaN => NaN end.

Definition xadd (x y : xq) : xq :=
  match x, y with
  | NaN, _ | _, NaN => NaN
  | Fin a, Fin b => Fin (a + b)
  | PInf, NInf | NInf, PInf => NaN
  | PInf, _ | _, PInf => PInf
  | NInf, _ | _, NInf => NInf
  end.

Definition xsub (x y : xq) : xq := xadd x (xopp y).

(** An infinity times a finite value takes the sign of the product and is
    NaN when the finite value is 0. *)
Definition inf_times (positive : bool) (a : Q) : xq :=
  match a ?= 0 with
  | Eq => NaN
  | Gt => if positive then PInf else NInf
  | Lt => if positive then NInf else PInf
  end.

Definition xmul (x y : xq) : xq :=
  match x, y with
  | NaN, _ | _, NaN => NaN
  | Fin a, Fin b => Fin (a * b)
  | Fin a, PInf | PInf, Fin a => inf_times true a
  | Fin a, NInf | NInf, Fin a => inf_times false a
  | PInf, PInf | NInf, NInf => PInf
  | PInf, NInf | NInf, PInf => NInf
  end.

Definition xdiv (x y : xq) : xq :=
  match x, y with
  | NaN, _ | _, NaN => NaN
  | Fin a, Fin b =>
      match b ?= 0 with
      | Eq => inf_times true a
      | _ => Fin (a / b)
      end
  | Fin _, (PInf | NInf) => Fin 0
  | (PInf | NInf), (PInf | NInf) => NaN
  | PInf, Fin b => if Qle_bool 0 b then PInf else NInf
  | NInf, Fin b => if Qle_bool 0 b then NInf else PInf
  end.

(** [x > y]; every comparison with NaN is false. *)
Definition xgt (x y : xq) : bool :=
  match x, y with
  | NaN, _ | _, NaN => false
  | Fin a, Fin b => if Qlt_le_dec b a then true else false
  | PInf, PInf => false
  | PInf, _ => true
  | _, NInf => match x with NInf => false | _ => true end
  | _, _ => false
  end.

(** [tensor.sum()] of a list of entries. *)
Definition xsum (l : list xq) : xq := fold_left xadd l (Fin 0).

(** [mask.float()]. *)
Definition of_bool (m : bool) : xq := if m then Fin 1 else Fin 0.

End XQ.
Import XQ.

(* ===================================================================== *)
(** ** Library functions of torch used by the sources *)
(* ===================================================================== *)

Module Torch.

Definition qmax (a b : Q) : Q := if Qle_bool a b then b else a.

  (** Maximum of a pooling window; windows are never empty for non-empty inputs. *)
Definition max_list (l : list Q) : Q :=
    match l with
    | [] => 0
    | x :: r => fold_left qmax r x
    end.

  (** [F.adaptive_max_pool2d]: output cell [i] of [out] covers the input
      indices from [floor(i*inp/out)] up to [ceil((i+1)*inp/out)] (excluded). *)
Definition start_index (i out inp : nat) : nat := (i * inp) / out.
Definition end_index (i out inp : nat) : nat := ((i + 1) * inp + out - 1) / out.

Definition window (A : Type) (i out : nat) (l : list A) : list A :=
    let s := start_index i out (length l) in
    let e := end_index i out (length l) in
    firstn (e - s) (skipn s l).

Definition adaptive_max_pool2d_image (im : image Q) (size : nat * nat) : image Q :=
    let '(oh, ow) := size in
    map (fun oy =>
           map (fun ox =>
                  max_list (concat (map (window ox ow) (window oy oh im))))
               (seq 0 ow))
        (seq 0 oh).

Definition adaptive_max_pool2d (t : tensor4 Q) (size : nat * nat) : tensor4 Q :=
    map (map (fun im => adaptive_max_pool2d_image im size)) t.

  (** *** [F.interpolate(input, size, mode='bilinear', align_corners=False)]

      Output index [dst] reads the input at [inp/out * (dst + 1/2) - 1/2],
      clamped below at 0; the right neighbour is clamped at the last index. *)
Definition source_index (out inp dst : nat) : Q :=
    let s := (Qnat inp / Qnat out) * (Qnat dst + (1 # 2)) - (1 # 2) in
    if Qlt_le_dec s 0 then 0 else s.

Definition lower_index (s : Q) : nat := Z.to_nat (Qfloor s).
Definition upper_index (inp i0 : nat) : nat :=
    if Nat.ltb i0 (inp - 1) then (i0 + 1)%nat else i0.

Definition interpolate_image (im : image Q) (size : nat * nat) : image Q :=
    let '(oh, ow) := size in
    let ih := height im in
    let iw := width im in
    map (fun oy =>
           let sy := source_index oh ih oy in
           let y0 := lower_index sy in
           let y1 := upper_index ih y0 in
           let ly := sy - Qnat y0 in
           map (fun ox =>
                  let sx := source_index ow iw ox in
                  let x0 := lower_index sx in
                  let x1 := upper_index iw x0 in
                  let lx := sx - Qnat x0 in
                  (1 - ly) * ((1 - lx) * pix 0 im y0 x0 + lx * pix 0 im y0 x1)
                  + ly * ((1 - lx) * pix 0 im y1 x0 + lx * pix 0 im y1 x1))
               (seq 0 ow))
        (seq 0 oh).

Definition interpolate (t : tensor4 Q) (size : nat * nat) : tensor4 Q :=
    map (map (fun im => interpolate_image im size)) t.

  (** *** [F.grid_sample(input, grid, align_corners=True)]
      (bilinear, [padding_mode='zeros'], the defaults). *)

  (** Entry [y][x] of the input, 0 outside of it. *)
Definition pixz (im : image Q) (y x : Z) : Q :=
    if ((0 <=? y)%Z && (y <? Z.of_nat (height im))%Z &&
        (0 <=? x)%Z && (x <? Z.of_nat (width im))%Z)%bool
    then pix 0 im (Z.to_nat y) (Z.to_nat x)
    else 0.

  (** From [-1,1] to pixel coordinates, [align_corners=True]. *)
Definition unnormalize (size : nat) (coord : Q) : Q :=
    ((coord + 1) / 2) * (Qnat size - 1).

Definition grid_sample_at (im : image Q) (g : Q * Q) : Q :=
    let ix := unnormalize (width im) (fst g) in
    let iy := unnormalize (height im) (snd g) in
    let x0 := Qfloor ix in
    let y0 := Qfloor iy in
    let x1 := (x0 + 1)%Z in
    let y1 := (y0 + 1)%Z in
    let nw := (inject_Z x1 - ix) * (inject_Z y1 - iy) in
    let ne := (ix - inject_Z x0) * (inject_Z y1 - iy) in
    let sw := (inject_Z x1 - ix) * (iy - inject_Z y0) in
    let se := (ix - inject_Z x0) * (iy - inject_Z y0) in
    pixz im y0 x0 * nw + pixz im y0 x1 * ne + pixz im y1 x0 * sw + pixz im y1 x1 * se.

  (** [grid] has shape (B, H, W, 2): one image of (x, y) pairs per sample. *)
Definition grid_sample (input : tensor4 Q) (grid : list (image (Q * Q))) : tensor4 Q :=
    zip_with (fun sample g => map (fun im => imap (grid_sample_at im) g) sample) input grid.

  (** [vgrid.permute(0, 2, 3, 1)] of a (B, 2, H, W) tensor. *)
Definition permute_0231 (vgrid : tensor4 Q) : list (image (Q * Q)) :=
    map (fun sample => izip pair (nth 0 sample []) (nth 1 sample [])) vgrid.

End Torch.

(* ===================================================================== *)
(** ** [training/losses/basic_losses.py] *)
(* ===================================================================== *)

Module BasicLosses.

  (** [(input > 0).float()] and [(input < 0).float()]. *)
Definition gt0_float (x : Q) : Q := if Qlt_le_dec 0 x then 1 else 0.
Definition lt0_float (x : Q) : Q := if Qlt_le_dec x 0 then 1 else 0.

Definition sparse_max_pool_positive_part (input : tensor4 Q) (size : nat * nat) : tensor4 Q :=
    let positive := tmap gt0_float input in
    Torch.adaptive_max_pool2d (tzip Qmult input positive) size.

Definition sparse_max_pool_negative_part (input : tensor4 Q) (size : nat * nat) : tensor4 Q :=
    let negative := tmap lt0_float input in
    Torch.adaptive_max_pool2d (tzip Qmult (tmap Qopp input) negative) size.

Definition sparse_max_pool (input : tensor4 Q) (size : nat * nat) : tensor4 Q :=
    tzip Qminus (sparse_max_pool_positive_part input size)
                (sparse_max_pool_negative_part input size).

(** *** The point-wise losses [EPE], [L1] and [L1Charbonnier] *)

(** The attributes set by [__init__]. *)
Record loss_object := {
  sum_normalized : bool;
  ratio : Q;
  valid_transformation_bool : option (list bool)
}.

(** What [__call__] can hand back: a scalar, a per-pixel map, or the
    [ZeroDivisionError] of [L / b] for an empty batch. *)
Inductive loss_result :=
| Scalar (v : xq)
| ErrorMap (m : tensor4 xq)
| ZeroDivisionError.

(** [torch.sum(t, 1, keepdim=True)] of a sample of [h] x [w] channels. *)
Definition sum_channels (h w : nat) (sample : tensor3 xq) : tensor3 xq :=
  [fold_left (izip xadd) sample (ifull h w (Fin 0))].

(** [~torch.isnan(m) & ~torch.isinf(m)] *)
Definition finite (v : xq) : bool := (negb (isnan v) && negb (isinf v))%bool.

(** Lines 127-130 (and their copies in [L1] and [L1Charbonnier]): whatever
    [mask] was, a mask comes out. *)
Definition rebind_mask (error_map : tensor4 xq) (mask : option (tensor4 bool))
  : option (tensor4 bool) :=
  match mask with
  | Some mask => Some (tzip andb (tmap finite error_map) mask)
  | None => Some (tmap finite error_map)
  end.

(** [values[mask != 0]]: the entries under a true mask entry, in row-major order. *)
Fixpoint pick (A : Type) (values : list A) (mask : list bool) : list A :=
  match values, mask with
  | v :: values', true :: mask' => v :: pick values' mask'
  | _ :: values', false :: mask' => pick values' mask'
  | _, _ => []
  end.

Definition pick3 (A : Type) (values : tensor3 A) (mask : tensor3 bool) : list A :=
  concat (zip_with (fun vi mi => concat (zip_with (@pick A) vi mi)) values mask).

(** [mask.sum()] of one sample. *)
Definition count_row (mask : list bool) : nat := length (filter (fun v => v) mask).
Definition count3 (mask : tensor3 bool) : nat :=
  list_sum (map (fun mi => list_sum (map count_row mi)) mask).

(** One round of the loop over the batch: the term added to [L]. *)
Definition sample_term (h w : nat) (error_bb : tensor3 xq) (mask_bb : tensor3 bool) : xq :=
  let norm_const :=
    xdiv (Fin (Qnat (h * w))) (xadd (Fin (Qnat (count3 mask_bb))) (Fin (1 # 1000000))) in
  xmul (xsum (pick3 error_bb mask_bb)) norm_const.

(** [L = 0; for bb in range(0, b): L = L + ...]. The assignment through
    [.detach()] inside the loop changes no value. *)
Definition batch_loop (b h w : nat) (error_map : tensor4 xq) (mask : tensor4 bool) : xq :=
  fold_left (fun L bb => xadd L (sample_term h w (nth bb error_map []) (nth bb mask [])))
            (seq 0 b) (Fin 0).

(** The branch [if mask is not None:]. *)
Definition normalized_branch (self : loss_object) (b h w : nat)
           (error_map : tensor4 xq) (mask : tensor4 bool) : loss_result :=
  let error_map := tzip xmul error_map (tmap of_bool mask) in
  let L := batch_loop b h w error_map mask in
  if sum_normalized self then
    if Nat.eqb b 0 then ZeroDivisionError else Scalar (xdiv L (Fin (Qnat b)))
  else Scalar L.

(** [t.sum()] of a whole tensor. *)
Definition tsum (t : tensor4 xq) : xq := xsum (concat (concat (concat t))).

(** [error_map * valid.float().unsqueeze(1).unsqueeze(1)]: a (b,1,1) factor
    broadcast against the (b,1,h,w) map. *)
Definition times_valid_transformation (error_map : tensor4 xq) (valid : list bool) : tensor4 xq :=
  map (fun sample =>
         map (fun v => imap (fun e => xmul e (of_bool v)) (nth 0 sample [])) valid)
      error_map.

Definition valid_count (valid : list bool) : xq := Fin (Qnat (count_row valid)).

Section PointwiseLosses.
(** Square root and power are not rational functions: they are taken as given. *)
Variable xsqrt : xq -> xq.
Variable xpow : xq -> Q -> xq.

(** [torch.norm(gt_flow - est_flow, 2, 1, keepdim=True)] *)
Definition EPE_map (h w : nat) (gt_flow est_flow : tensor4 xq) : tensor4 xq :=
  map (fun d => tmap3 xsqrt (sum_channels h w (tmap3 (fun v => xmul v v) d)))
      (tzip xsub gt_flow est_flow).

(** [torch.sum(torch.abs(est_flow - gt_flow), 1, keepdim=True)] *)
Definition L1_map (h w : nat) (gt_flow est_flow : tensor4 xq) : tensor4 xq :=
  map (fun d => sum_channels h w (tmap3 xabs d)) (tzip xsub est_flow gt_flow).

(** [torch.pow(L1 + epsilon, alpha)] with [epsilon = 0.01] and [alpha = 0.4]. *)
Definition Charbonnier_map (h w : nat) (gt_flow est_flow : tensor4 xq) : tensor4 xq :=
  tmap (fun v => xpow (xadd v (Fin (1 # 100))) (4 # 10)) (L1_map h w gt_flow est_flow).

(** [EPE.__call__] *)
Definition EPE_call (self : loss_object) (gt_flow est_flow : tensor4 xq)
           (mask : option (tensor4 bool)) : loss_result :=
  let '(b, _, h, w) := shape4 gt_flow in
  let EPE_map := EPE_map h w gt_flow est_flow in
  let mask := rebind_mask EPE_map mask in
  match mask with
  | Some mask => normalized_branch self b h w EPE_map mask
  | None =>
      match valid_transformation_bool self with
      | Some valid =>
          let EPE_map := times_valid_transformation EPE_map valid in
          if sum_normalized self
          then Scalar (xdiv (tsum EPE_map) (valid_count valid))
          else Scalar (tsum EPE_map)
      | None =>
          if sum_normalized self
          then Scalar (xdiv (tsum EPE_map) (Fin (Qnat b)))
          else ErrorMap EPE_map
      end
  end.

(** [L1.__call__] *)
Definition L1_call (self : loss_object) (gt_flow est_flow : tensor4 xq)
           (mask : option (tensor4 bool)) : loss_result :=
  let '(b, _, h, w) := shape4 gt_flow in
  let L1 := L1_map h w gt_flow est_flow in
  let mask := rebind_mask L1 mask in
  match mask with
  | Some mask => normalized_branch self b h w L1 mask
  | None =>
      match valid_transformation_bool self with
      | Some valid =>
          let L1 := times_valid_transformation L1 valid in
          Scalar (xdiv (tsum L1) (valid_count valid))
      | None =>
          if sum_normalized self
          then Scalar (xdiv (tsum L1) (Fin (Qnat b)))
          else ErrorMap L1
      end
  end.

(** [L1Charbonnier.__call__] *)
Definition L1Charbonnier_call (self : loss_object) (gt_flow est_flow : tensor4 xq)
           (mask : option (tensor4 bool)) : loss_result :=
  let '(b, _, h, w) := shape4 gt_flow in
  let norm := Charbonnier_map h w gt_flow est_flow in
  let mask := rebind_mask norm mask in
  match mask with
  | Some mask => normalized_branch self b h w norm mask
  | None =>
      match valid_transformation_bool self with
      | Some valid =>
          let norm := times_valid_transformation norm valid in
          Scalar (xdiv (tsum norm) (valid_count valid))
      | None =>
          if sum_normalized self
          then Scalar (xdiv (tsum norm) (Fin (Qnat b)))
          else ErrorMap norm
      end
  end.
End PointwiseLosses.

(** *** [realEPE] *)

(** Lines 34-40: the estimated flow brought to the size of the target, and
    multiplied channel-wise by the factors the caller passes, if both are
    passed. *)
Definition realEPE_upsampled_output (output target : tensor4 Q) (ratio_x ratio_y : option Q)
  : tensor4 Q :=
  let '(b, _, h, w) := shape4 target in
  match ratio_x, ratio_y with
  | Some ratio_x, Some ratio_y =>
      let upsampled_output := Torch.interpolate output (h, w) in
      let upsampled_output := scale_channel 0 ratio_x upsampled_output in
      let upsampled_output := scale_channel 1 ratio_y upsampled_output in
      upsampled_output
  | _, _ => Torch.interpolate output (h, w)
  end.

End BasicLosses.

(* ===================================================================== *)
(** ** [training/losses/warp_consistency_losses.py] *)
(* ===================================================================== *)

Module WarpConsistencyLosses.

(** *** [weights_self_supervised_and_unsupervised] *)

(** The [loss_weight] and [stats] dictionaries, keyed by strings. *)
Definition dict (V : Type) := list (string * V).

Fixpoint lookup (V : Type) (k : string) (d : dict V) : option V :=
  match d with
  | [] => None
  | (k', v) :: d' => if String.eqb k k' then Some v else lookup k d'
  end.

(** [d[k] = v]: the entry is replaced where it stands, or appended. *)
Fixpoint assign (V : Type) (k : string) (v : V) (d : dict V) : dict V :=
  match d with
  | [] => [(k, v)]
  | (k', v') :: d' => if String.eqb k k' then (k, v) :: d' else (k', v') :: assign k v d'
  end.

Inductive outcome (A : Type) :=
| Ok (a : A)
| KeyError (k : string)
| ZeroDivision.
Arguments Ok {A} a.
Arguments KeyError {A} k.
Arguments ZeroDivision {A}.

(** Lines 11-16: the two scale factors [(u_l_w, s_l_w)] from the detached
    losses and the ratio of the configured weights. *)
Definition adaptive_weights (L_supervised L_unsupervised : xq) (ratio : Q) : xq * xq :=
  if xgt L_unsupervised L_supervised then
    (Fin 1, xmul (xdiv L_unsupervised (xadd L_supervised (Fin (1 # 100000000)))) (Fin ratio))
  else
    (xdiv (xdiv L_supervised (xadd L_unsupervised (Fin (1 # 100000000)))) (Fin ratio), Fin 1).

Definition record_totals (stats : dict xq) (term_un term_su loss : xq) : dict xq :=
  assign "Loss/total" loss
    (assign "Loss_warp_sup/total" term_su
       (assign "Loss_w_bipath/total" term_un stats)).

Definition weights_self_supervised_and_unsupervised
           (loss_su loss_un : xq) (stats : dict xq) (loss_weight : dict Q)
           (apply_constant_weights : bool) : outcome (xq * dict xq) :=
  if negb apply_constant_weights then
    match lookup "warp_supervision" loss_weight with
    | None => KeyError "warp_supervision"
    | Some w_su =>
        match lookup "w_bipath" loss_weight with
        | None => KeyError "w_bipath"
        | Some w_un =>
            if Qeq_bool w_un 0 then ZeroDivision
            else
              let ratio := w_su / w_un in
              let '(u_l_w, s_l_w) := adaptive_weights loss_su loss_un ratio in
              let loss := xadd (xmul loss_un u_l_w) (xmul loss_su s_l_w) in
              Ok (loss, record_totals stats (xmul loss_un u_l_w) (xmul loss_su s_l_w) loss)
        end
    end
  else
    match lookup "w_bipath_constant" loss_weight with
    | None => KeyError "w_bipath_constant"
    | Some c_un =>
        match lookup "warp_supervision_constant" loss_weight with
        | None => KeyError "warp_supervision_constant"
        | Some c_su =>
            let loss := xadd (xmul (Fin c_un) loss_un) (xmul (Fin c_su) loss_su) in
            Ok (loss, record_totals stats (xmul (Fin c_un) loss_un) (xmul (Fin c_su) loss_su) loss)
        end
    end.

(** *** [WBipathLoss] *)

(** [length_sq(x) = torch.sum(x**2, dim=1)] *)
Definition sum_images (l : tensor3 Q) : image Q :=
  match l with
  | [] => []
  | x :: r => fold_left (izip Qplus) r x
  end.

Definition length_sq (x : tensor4 Q) : tensor3 Q :=
  map (fun sample => sum_images (tmap3 (fun v => v * v) sample)) x.

Record WBipathLoss := {
  detach_flow_for_warping : bool;
  compute_cyclic_consistency : bool;
  alpha_1 : Q;
  alpha_2 : Q
}.

(** Lines 67-76 of [get_cyclic_consistency_mask], for a synthetic flow that
    already has the size of the level. *)
Definition not_occluded (self : WBipathLoss)
           (estimated_flow_target_prime_to_source_per_level
              warping_flow_source_to_target synthetic_flow : tensor4 Q) : tensor3 bool :=
  let mag_sq_fw :=
    tzip3 Qplus
          (tzip3 Qplus (length_sq estimated_flow_target_prime_to_source_per_level)
                       (length_sq warping_flow_source_to_target))
          (length_sq synthetic_flow) in
  let occ_thresh_fw := tmap3 (fun m => alpha_1 self * m + alpha_2 self) mag_sq_fw in
  let fb_occ_fw :=
    tzip3 (fun d t => if Qlt_le_dec t d then true else false)
          (length_sq (tzip Qminus
                           (tzip Qplus estimated_flow_target_prime_to_source_per_level
                                 warping_flow_source_to_target)
                           synthetic_flow))
          occ_thresh_fw in
  tmap3 negb fb_occ_fw.

Definition get_cyclic_consistency_mask (self : WBipathLoss)
           (estimated_flow_target_prime_to_source_per_level
              warping_flow_source_to_target synthetic_flow : tensor4 Q) : tensor3 bool :=
  let '(_, _, h_, w_) := shape4 estimated_flow_target_prime_to_source_per_level in
  let synthetic_flow := Torch.interpolate synthetic_flow (h_, w_) in
  not_occluded self estimated_flow_target_prime_to_source_per_level
               warping_flow_source_to_target synthetic_flow.

(** **** Tensors that are written in place

    [__call__] scales its warping flow in place.  The estimated flows and
    what is computed from them live in a store; a reference names a storage,
    and two references are aliases when they are equal. *)
Definition ref := nat.
Definition store := list (tensor4 Q).
Definition St (A : Type) := store -> A * store.

Definition ret (A : Type) (a : A) : St A := fun s => (a, s).
Definition bind (A B : Type) (c : St A) (k : A -> St B) : St B :=
  fun s => let '(a, s') := c s in k a s'.

Notation "x <- c ;; k" := (bind c (fun x => k))
  (at level 61, c at next level, right associativity).

Definition read (r : ref) : St (tensor4 Q) := fun s => (nth r s [], s).
(** A new tensor gets a new storage. *)
Definition new (t : tensor4 Q) : St ref := fun s => (length s, s ++ [t]).
(** [t.detach()] shares the storage of [t]. *)
Definition detach (r : ref) : St ref := ret r.
(** [t * k] is a new tensor. *)
Definition times (r : ref) (k : Q) : St ref :=
  t <- read r ;; new (tmap (fun v => v * k) t).
(** [t[:, c, :, :] *= k] writes into the storage of [t]. *)
Definition imul_channel (r : ref) (c : nat) (k : Q) : St unit :=
  fun s => (tt, map_at r (scale_channel c k) s).
(** [a + b] is a new tensor. *)
Definition plus (a b : ref) : St ref :=
  x <- read a ;; y <- read b ;; new (tzip Qplus x y).

(** [t.squeeze(1)] and [t.unsqueeze(1)]. *)
Definition squeeze1 (A : Type) (t : tensor4 A) : tensor3 A := map (fun sample => nth 0 sample []) t.
Definition unsqueeze1 (A : Type) (t : tensor3 A) : tensor4 A := map (fun im => [im]) t.

(** [t.ge(k)] *)
Definition ge (k : Q) (v : Q) : bool := Qle_bool k v.

Section Call.
(** The warp operator of [utils_flow.pixel_wise_mapping] and the multi-scale
    objective are given from outside. *)
Variable warp : tensor4 Q -> tensor4 Q -> tensor4 Q.
Variable Stats : Type.
Variable objective : list (tensor4 Q) -> tensor4 Q -> list (tensor3 bool) -> xq * Stats.
Variable self : WBipathLoss.

(** What one round of the loop over the levels appends to the three lists
    (nothing to [mask_cyclic_list] when the check is disabled). *)
Record level_result := {
  estimated_flow : ref;
  mask : tensor3 bool;
  mask_cyclic : option (tensor3 bool)
}.

(** Lines 124-127: where the warped map of ones is at least 0.2, and where the
    mask of the caller, brought to the size of the level, is at least 0.98. *)
Definition warping_mask (b h_ w_ : nat) (mask_used : option (tensor3 bool))
           (warping_data : tensor4 Q) : tensor3 bool :=
  let mask := squeeze1 (tmap (ge (2 # 10)) (warp (tfull b 1 h_ w_ 1) warping_data)) in
  match mask_used with
  | Some mask_used =>
      tzip3 andb mask
            (squeeze1 (tmap (ge (98 # 100))
                            (Torch.interpolate
                               (unsqueeze1 (tmap3 (fun m : bool => if m then 1 else 0) mask_used))
                               (h_, w_))))
  | None => mask
  end.

(** Lines 107-134, with [h] and [w] the size of [flow_map]. *)
Definition level (h w : nat) (flow_map : tensor4 Q) (mask_used : option (tensor3 bool))
           (estimated_flow_target_prime_to_source_per_level
              estimated_flow_source_to_target_per_level : ref) : St level_result :=
  tp2s <- read estimated_flow_target_prime_to_source_per_level ;;
  let '(b, _, h_, w_) := shape4 tp2s in
  warping <- (if detach_flow_for_warping self
              then (d <- detach estimated_flow_target_prime_to_source_per_level ;; times d 1)
              else times estimated_flow_target_prime_to_source_per_level 1) ;;
  _ <- imul_channel warping 0 (Qnat w_ / Qnat w) ;;
  _ <- imul_channel warping 1 (Qnat h_ / Qnat h) ;;
  s2t <- read estimated_flow_source_to_target_per_level ;;
  warping_data <- read warping ;;
  warping_flow_source_to_target <- new (warp s2t warping_data) ;;
  estimated_flow <- plus estimated_flow_target_prime_to_source_per_level
                         warping_flow_source_to_target ;;
  let mask := warping_mask b h_ w_ mask_used warping_data in
  if compute_cyclic_consistency self then
    tp2s_now <- read estimated_flow_target_prime_to_source_per_level ;;
    wfst <- read warping_flow_source_to_target ;;
    let mask_cyclic := get_cyclic_consistency_mask self tp2s_now wfst flow_map in
    ret {| estimated_flow := estimated_flow;
           mask := tzip3 andb mask mask_cyclic;
           mask_cyclic := Some mask_cyclic |}
  else
    ret {| estimated_flow := estimated_flow; mask := mask; mask_cyclic := None |}.

(** [for ... in enumerate(zip(..., ...))] *)
Fixpoint levels (h w : nat) (flow_map : tensor4 Q) (mask_used : option (tensor3 bool))
         (tp2s s2t : list ref) : St (list level_result) :=
  match tp2s, s2t with
  | a :: tp2s', c :: s2t' =>
      r <- level h w flow_map mask_used a c ;;
      rs <- levels h w flow_map mask_used tp2s' s2t' ;;
      ret (r :: rs)
  | _, _ => ret []
  end.

(** The entries of the [output] dictionary. *)
Record output := {
  mask_training : list (tensor3 bool);
  output_mask_cyclic : option (list (tensor3 bool));
  estimated_flow_target_prime_to_target_through_composition : list ref
}.

(** An argument that is a tensor or a list of tensors. *)
Inductive flows := One (r : ref) | Many (l : list ref).
Definition as_list (f : flows) : list ref :=
  match f with One r => [r] | Many l => l end.

Fixpoint read_all (l : list ref) : St (list (tensor4 Q)) :=
  match l with
  | [] => ret []
  | r :: l' => t <- read r ;; ts <- read_all l' ;; ret (t :: ts)
  end.

(** [WBipathLoss.__call__] *)
Definition call (flow_map : tensor4 Q) (mask_used : option (tensor3 bool))
           (estimated_flow_target_prime_to_source estimated_flow_source_to_target : flows)
  : St (xq * Stats * output) :=
  let '(_, _, h, w) := shape4 flow_map in
  rs <- levels h w flow_map mask_used (as_list estimated_flow_target_prime_to_source)
               (as_list estimated_flow_source_to_target) ;;
  let masks := map mask rs in
  let out :=
    {| mask_training := masks;
       output_mask_cyclic :=
         if compute_cyclic_consistency self
         then Some (concat (map (fun r => match mask_cyclic r with Some m => [m] | None => [] end)
                                rs))
         else None;
       estimated_flow_target_prime_to_target_through_composition := map estimated_flow rs |} in
  composed <- read_all (map estimated_flow rs) ;;
  let '(loss_un, stats_un) := objective composed flow_map masks in
  ret (loss_un, stats_un, out).
End Call.

End WarpConsistencyLosses.

(* ===================================================================== *)
(** ** [models/PWCNet/pwc_net.py] *)
(* ===================================================================== *)

Module PWCNet.

  (** [torch.arange(0, W).view(1, -1).repeat(H, 1)] and its transpose twin. *)
Definition mesh_xx (H W : nat) : image Q := map (fun _ => map Qnat (seq 0 W)) (seq 0 H).
Definition mesh_yy (H W : nat) : image Q := map (fun y => map (fun _ => Qnat y) (seq 0 W)) (seq 0 H).

  (** [vgrid = grid + flo], then both channels scaled to [-1, 1]. *)
Definition warp_vgrid (B H W : nat) (flo : tensor4 Q) : tensor4 Q :=
    let grid := repeat [mesh_xx H W; mesh_yy H W] B in
    let vgrid := tzip Qplus grid flo in
    let vgrid := map_channel 0 (fun v => 2 * v / Qnat (Nat.max (W - 1) 1) - 1) vgrid in
    let vgrid := map_channel 1 (fun v => 2 * v / Qnat (Nat.max (H - 1) 1) - 1) vgrid in
    vgrid.

  (** The in-range mask: [grid_sample] of a tensor of ones, then
      [mask[mask < 0.9999] = 0] and [mask[mask > 0] = 1]. *)
Definition warp_mask (x flo : tensor4 Q) : tensor4 Q :=
    let '(B, C, H, W) := shape4 x in
    let vgrid := Torch.permute_0231 (warp_vgrid B H W flo) in
    let mask := Torch.grid_sample (tfull B C H W 1) vgrid in
    let mask := tmap (fun m => if Qlt_le_dec m (9999 # 10000) then 0 else m) mask in
    let mask := tmap (fun m => if Qlt_le_dec 0 m then 1 else m) mask in
    mask.

  (** [PWCNetModel.warp(x, flo)]. *)
Definition warp (x flo : tensor4 Q) : tensor4 Q :=
    let '(B, C, H, W) := shape4 x in
    let vgrid := Torch.permute_0231 (warp_vgrid B H W flo) in
    let output := Torch.grid_sample x vgrid in
    tzip Qmult output (warp_mask x flo).

End PWCNet.

(* ===================================================================== *)
(** ** [PWCNetModel.warp] on tensors with infinite or NaN entries *)
(* ===================================================================== *)

(** The bilinear kernel of [F.grid_sample] starts from 0 and adds, for each of
    the four corners that lies inside the input, the entry there times the
    weight of the corner.  A corner inside the input is added also when its
    weight is 0, and 0 times an infinite entry is NaN. *)
Module PWCNetNonFinite.

Definition within_bounds_2d (A : Type) (im : image A) (y x : Z) : bool :=
    ((0 <=? y)%Z && (y <? Z.of_nat (height im))%Z &&
     (0 <=? x)%Z && (x <? Z.of_nat (width im))%Z)%bool.

  (** [if within_bounds_2d(y, x): res += inp[y][x] * weight]. *)
Definition add_corner (im : image xq) (y x : Z) (weight : Q) (res : xq) : xq :=
    if within_bounds_2d im y x
    then xadd res (xmul (pix NaN im (Z.to_nat y) (Z.to_nat x)) (Fin weight))
    else res.

Definition grid_sample_at (im : image xq) (g : Q * Q) : xq :=
    let ix := Torch.unnormalize (width im) (fst g) in
    let iy := Torch.unnormalize (height im) (snd g) in
    let x0 := Qfloor ix in
    let y0 := Qfloor iy in
    let x1 := (x0 + 1)%Z in
    let y1 := (y0 + 1)%Z in
    let nw := (inject_Z x1 - ix) * (inject_Z y1 - iy) in
    let ne := (ix - inject_Z x0) * (inject_Z y1 - iy) in
    let sw := (inject_Z x1 - ix) * (iy - inject_Z y0) in
    let se := (ix - inject_Z x0) * (iy - inject_Z y0) in
    add_corner im y1 x1 se
      (add_corner im y1 x0 sw
         (add_corner im y0 x1 ne
            (add_corner im y0 x0 nw (Fin 0)))).

Definition grid_sample (input : tensor4 xq) (grid : list (image (Q * Q))) : tensor4 xq :=
    zip_with (fun sample g => map (fun im => imap (grid_sample_at im) g) sample) input grid.

  (** [PWCNetModel.warp(x, flo)] for a flow with finite entries; the mask is
      sampled from a tensor of ones and so has finite entries. *)
Definition warp (x : tensor4 xq) (flo : tensor4 Q) : tensor4 xq :=
    let '(B, C, H, W) := shape4 x in
    let vgrid := Torch.permute_0231 (PWCNet.warp_vgrid B H W flo) in
    let output := grid_sample x vgrid in
    let mask := Torch.grid_sample (tfull B C H W 1) vgrid in
    let mask := tmap (fun m => if Qlt_le_dec m (9999 # 10000) then 0 else m) mask in
    let mask := tmap (fun m => if Qlt_le_dec 0 m then 1 else m) mask in
    tzip xmul output (tmap Fin mask).

End PWCNetNonFinite.

(* ===================================================================== *)
(** ** [training/actors/warp_consistency_utils/online_triplet_creation.py] *)
(* ===================================================================== *)

Module OnlineTripletCreation.

  (** *** Python slicing [l[start:stop]]

      A negative index counts from the end; both ends are then clamped to
      the list. *)
Definition slice_index (len i : Z) : Z :=
    if (i <? 0)%Z then Z.max (i + len) 0 else Z.min i len.

Definition py_slice (A : Type) (start stop : Z) (l : list A) : list A :=
    let len := Z.of_nat (length l) in
    let lo := slice_index len start in
    let hi := slice_index len stop in
    firstn (Z.to_nat (hi - lo)) (skipn (Z.to_nat lo) l).

  (** [t[:, :, y_start: y_start + crop_size[0], x_start: x_start + crop_size[1]]] *)
Definition crop (A : Type) (y_start x_start : Z) (crop_size : nat * nat) (t : tensor4 A)
    : tensor4 A :=
    map (map (fun im =>
                map (py_slice x_start (x_start + Z.of_nat (snd crop_size)))
                    (py_slice y_start (y_start + Z.of_nat (fst crop_size)) im))) t.

  (** [x_start = w // 2 - self.crop_size[1] // 2] (and the same for y). *)
Definition start_offset (dim crop_dim : nat) : Z :=
    (Z.of_nat dim / 2 - Z.of_nat crop_dim / 2)%Z.

Inductive padding := zeros | border.

  (** The collaborators that live outside of these sources: the warp operator
      of [utils_flow.pixel_wise_mapping] followed by [.byte()] (called with or
      without a padding mode), area interpolation, [.byte()] and the two mask
      helpers. *)
Record collaborators := {
    warp_byte : tensor4 Q -> tensor4 Q -> option padding -> tensor4 Q;
    interpolate_area : tensor4 Q -> nat * nat -> tensor4 Q;
    to_byte : tensor4 Q -> tensor4 Q;
    create_border_mask : tensor4 Q -> tensor3 bool;
    define_mask_zero_borders : tensor4 Q -> tensor3 bool
  }.

  (** The configuration shared by [BatchedImageTripletCreation] and
      [BatchedImageTripletCreation2Flows]. *)
Record settings := {
    compute_mask_zero_borders : bool;
    min_percent_valid_corr : Q;
    crop_size : nat * nat;
    output_size : nat * nat;
    padding_mode : padding
  }.

  (** Lines 79-84: the synthetic flow brought to the size of the images. *)
Definition rescale_synthetic_flow (h w : nat) (flow_gt : tensor4 Q) : tensor4 Q :=
    let '(_, _, h_f, w_f) := shape4 flow_gt in
    if (negb (Nat.eqb h_f h) || negb (Nat.eqb w_f w))%bool then
      let flow_gt := Torch.interpolate flow_gt (h, w) in
      let flow_gt := scale_channel 0 (Qnat w / Qnat w_f) flow_gt in
      let flow_gt := scale_channel 1 (Qnat h / Qnat h_f) flow_gt in
      flow_gt
    else flow_gt.

  (** Lines 134-137: the cropped flow resized to the output size. *)
Definition resize_cropped_flow (self : settings) (flow_gt_resized : tensor4 Q) : tensor4 Q :=
    let f := Torch.interpolate flow_gt_resized (output_size self) in
    let f := scale_channel 0 (Qnat (snd (output_size self)) / Qnat (snd (crop_size self))) f in
    let f := scale_channel 1 (Qnat (fst (output_size self)) / Qnat (fst (crop_size self))) f in
    f.

Definition size_eqb (a b : nat * nat) : bool :=
    (Nat.eqb (fst a) (fst b) && Nat.eqb (snd a) (snd b))%bool.

  (** [mask.sum()]: the number of [True] entries, as a rational. *)
Definition mask_sum (m : tensor3 bool) : Q :=
    Qnat (length (filter (fun v => v) (concat (concat m)))).

  (** [mask_gt.sum() < mask_gt.shape[-1] * mask_gt.shape[-2] * min_percent_valid_corr] *)
Definition too_few_valid (self : settings) (mask_gt : tensor3 bool) : bool :=
    if Qlt_le_dec (mask_sum mask_gt)
                  (Qnat (width (hd [] mask_gt)) * Qnat (height (hd [] mask_gt))
                   * min_percent_valid_corr self)
    then true else false.

  (** The three images and the flow, at the successive stages of [__call__]. *)
Record stage := {
    s_source : tensor4 Q;
    s_target : tensor4 Q;
    s_target_prime : tensor4 Q;
    s_flow : tensor4 Q
  }.

  (** The same for the variant with two synthetic flows. *)
Record stage2 := {
    s2_source : tensor4 Q;
    s2_target : tensor4 Q;
    s2_target_prime_un : tensor4 Q;
    s2_flow_un : tensor4 Q;
    s2_target_prime_ss : tensor4 Q;
    s2_flow_ss : tensor4 Q
  }.

Record mini_batch_out := {
    source_image : tensor4 Q;
    target_image : tensor4 Q;
    target_image_prime : tensor4 Q;
    flow_map : tensor4 Q;
    correspondence_mask : tensor3 bool;
    mask_zero_borders : option (tensor3 bool)
  }.


Section Call.
Variable ext : collaborators.
Variable self : settings.

    (** [x_start = w // 2 - crop_size[1] // 2], [y_start = h // 2 - crop_size[0] // 2],
        with [b, _, h, w = source_image.shape]. *)
Definition x_start (source_image : tensor4 Q) : Z :=
      let '(_, _, h, w) := shape4 source_image in start_offset w (snd (crop_size self)).
Definition y_start (source_image : tensor4 Q) : Z :=
      let '(_, _, h, w) := shape4 source_image in start_offset h (fst (crop_size self)).

    (** **** [BatchedImageTripletCreation.__call__]
        for a mini-batch that holds [source_image] and [target_image] only (no
        ground-truth flow between them, no keypoints); [synthetic_flow] is what
        the flow generator returned for this batch. *)

    (** Lines 65-85. *)
Definition before_crop (source_image target_image synthetic_flow : tensor4 Q) : stage :=
      let '(_, _, h, w) := shape4 source_image in
      let flow_gt := rescale_synthetic_flow h w synthetic_flow in
      let target_image_prime := warp_byte ext target_image flow_gt (Some (padding_mode self)) in
      {| s_source := source_image; s_target := target_image;
         s_target_prime := target_image_prime; s_flow := flow_gt |}.

    (** Lines 100-109. *)
Definition center_crop (source_image target_image synthetic_flow : tensor4 Q) : stage :=
      let u := before_crop source_image target_image synthetic_flow in
      let c := crop (y_start source_image) (x_start source_image) (crop_size self) in
      {| s_source := c (s_source u); s_target := c (s_target u);
         s_target_prime := c (s_target_prime u); s_flow := c (s_flow u) |}.

Definition call (source_image target_image synthetic_flow : tensor4 Q) : mini_batch_out :=
      let r := center_crop source_image target_image synthetic_flow in
      let r :=
        if negb (size_eqb (output_size self) (crop_size self)) then
          {| s_source := interpolate_area ext (s_source r) (output_size self);
             s_target := interpolate_area ext (s_target r) (output_size self);
             s_target_prime := interpolate_area ext (s_target_prime r) (output_size self);
             s_flow := resize_cropped_flow self (s_flow r) |}
        else r in
      let mask_gt := create_border_mask ext (s_flow r) in
      let mzb :=
        if compute_mask_zero_borders self then
          if too_few_valid self mask_gt then Some mask_gt
          else Some (define_mask_zero_borders ext (s_target_prime r))
        else None in
      {| source_image := to_byte ext (s_source r);
         target_image := to_byte ext (s_target r);
         target_image_prime := to_byte ext (s_target_prime r);
         flow_map := s_flow r;
         correspondence_mask := mask_gt;
         mask_zero_borders := mzb |}.

    (** **** [BatchedImageTripletCreation2Flows] *)




    (** Lines 271-302. *)
Definition before_crop2 (source_image target_image flow_un flow_ss : tensor4 Q) : stage2 :=
      let '(_, _, h, w) := shape4 source_image in
      let flow_gt_for_unsupervised := rescale_synthetic_flow h w flow_un in
      let prime_un := warp_byte ext target_image flow_gt_for_unsupervised
                                (Some (padding_mode self)) in
      let flow_gt_for_self_supervised := rescale_synthetic_flow h w flow_ss in
      let prime_ss := warp_byte ext target_image flow_gt_for_self_supervised None in
      {| s2_source := source_image; s2_target := target_image;
         s2_target_prime_un := prime_un; s2_flow_un := flow_gt_for_unsupervised;
         s2_target_prime_ss := prime_ss; s2_flow_ss := flow_gt_for_self_supervised |}.

    (** Lines 312-326. *)
Definition center_crop2 (source_image target_image flow_un flow_ss : tensor4 Q) : stage2 :=
      let u := before_crop2 source_image target_image flow_un flow_ss in
      let c := crop (y_start source_image) (x_start source_image) (crop_size self) in
      {| s2_source := c (s2_source u); s2_target := c (s2_target u);
         s2_target_prime_un := c (s2_target_prime_un u); s2_flow_un := c (s2_flow_un u);
         s2_target_prime_ss := c (s2_target_prime_ss u); s2_flow_ss := c (s2_flow_ss u) |}.

End Call.

End OnlineTripletCreation.

(* ===================================================================== *)
(** ** [models/PWCNet/pwc_net.py]: the inference methods *)
(* ===================================================================== *)

Module PWCNetEstimate.

(** What a method hands back: its value, or the exception it raises. *)
Inductive exception := EZeroDivisionError | EIndexError | ERuntimeError.

Inductive result (A : Type) :=
| Return (a : A)
| Raise (e : exception).
Arguments Return {A} a.
Arguments Raise {A} e.

(** [int(x)] of a float: the fraction is cut off. *)
Definition int (x : Q) : Z := Z.quot (Qnum x) (Z.pos (Qden x)).

(** [a / b] of two Python floats. *)
Definition true_div (a b : Q) : result Q :=
  if Qeq_bool b 0 then Raise EZeroDivisionError else Return (a / b).

(** [l[-1]] *)
Fixpoint last_item (A : Type) (l : list A) : option A :=
  match l with
  | [] => None
  | [x] => Some x
  | _ :: r => last_item r
  end.

(** [int(math.floor(math.ceil(scale / 64.0) * 64.0))] *)
Definition int_preprocessed (scale : nat) : Z :=
  Qfloor (inject_Z (Qceiling (Qnat scale / 64)) * 64).

(** The flow as it is returned: (b, 2, H, W), or (b, H, W, 2) after
    [permute(0, 2, 3, 1)]. *)
Inductive flow_out :=
| ChannelFirst (flow : tensor4 Q)
| ChannelLast (flow : list (image (Q * Q))).

Section Methods.
(** The attribute [div], the network ([forward], of which the list
    'flow_estimates' is used), and the resizing of both images through PIL
    followed by the swap to BGR (lines 351-363 and 368) are given. *)
Variable div : Q.
Variable forward : tensor4 Q -> tensor4 Q -> list (tensor4 Q).
Variable resize_to_BGR : Z * Z -> tensor4 Q -> tensor4 Q -> tensor4 Q * tensor4 Q.

(** [pre_process_data] *)
Definition pre_process_data (source_img target_img : tensor4 Q)
  : result (tensor4 Q * tensor4 Q * Q * Q) :=
  let '(b, _, h_scale, w_scale) := shape4 target_img in
  let int_preprocessed_width := int_preprocessed w_scale in
  let int_preprocessed_height := int_preprocessed h_scale in
  let '(source_img, target_img) :=
    resize_to_BGR (int_preprocessed_height, int_preprocessed_width) source_img target_img in
  match true_div (Qnat w_scale) (inject_Z int_preprocessed_width) with
  | Return ratio_x =>
      match true_div (Qnat h_scale) (inject_Z int_preprocessed_height) with
      | Return ratio_y => Return (source_img, target_img, ratio_x, ratio_y)
      | _ => Raise EZeroDivisionError
      end
  | _ => Raise EZeroDivisionError
  end.

(** Lines 392-394: the output shape when none is passed and [scaling] is not 1. *)
Definition define_output_shape (h_scale w_scale : nat) (output_shape : option (Z * Z))
           (scaling : Q) : option (Z * Z) :=
  match output_shape with
  | None =>
      if negb (Qeq_bool scaling 1)
      then Some (int (Qnat h_scale * scaling), int (Qnat w_scale * scaling))
      else None
  | Some shape => Some shape
  end.

(** The end of both methods: the two channels are scaled in place, and the
    flow is returned as it is or permuted. *)
Definition scale_and_return (flow_est : tensor4 Q) (ratio_x ratio_y : Q) (channel_first : bool)
  : flow_out :=
  let flow_est := scale_channel 0 ratio_x flow_est in
  let flow_est := scale_channel 1 ratio_y flow_est in
  if channel_first then ChannelFirst flow_est
  else ChannelLast (Torch.permute_0231 flow_est).

(** [estimate_flow]; [channel_first] stands for [mode == 'channel_first']. *)
Definition estimate_flow (source_img target_img : tensor4 Q) (output_shape : option (Z * Z))
           (scaling : Q) (channel_first : bool) : result flow_out :=
  let '(_, _, h_scale, w_scale) := shape4 target_img in
  let output_shape := define_output_shape h_scale w_scale output_shape scaling in
  match pre_process_data source_img target_img with
  | Return (source_img, target_img, ratio_x, ratio_y) =>
      match last_item (forward target_img source_img) with
      | None => Raise EIndexError
      | Some last =>
          let flow_est := tmap (Qmult div) last in
          match output_shape with
          | Some output_shape =>
              let flow_est := Torch.interpolate flow_est (h_scale, w_scale) in
              match true_div (inject_Z (snd output_shape)) (Qnat w_scale) with
              | Return fx =>
                  match true_div (inject_Z (fst output_shape)) (Qnat h_scale) with
                  | Return fy =>
                      Return (scale_and_return flow_est (ratio_x * fx) (ratio_y * fy)
                                               channel_first)
                  | _ => Raise EZeroDivisionError
                  end
              | _ => Raise EZeroDivisionError
              end
          | None =>
              let flow_est := Torch.interpolate flow_est (h_scale, w_scale) in
              Return (scale_and_return flow_est ratio_x ratio_y channel_first)
          end
      end
  | Raise e => Raise e
  end.

(** The flow that [estimate_flow_and_confidence_map] returns (lines 439-457
    and 471-474); [F.interpolate] refuses an output size that is not
    positive. *)
Definition estimate_flow_and_confidence_map_flow
           (source_img target_img : tensor4 Q) (output_shape : option (Z * Z))
           (scaling : Q) (channel_first : bool) : result flow_out :=
  let '(_, _, h_scale, w_scale) := shape4 target_img in
  let output_shape := define_output_shape h_scale w_scale output_shape scaling in
  match pre_process_data source_img target_img with
  | Return (source_img, target_img, ratio_x, ratio_y) =>
      match last_item (forward target_img source_img) with
      | None => Raise EIndexError
      | Some flow_est =>
          match output_shape with
          | Some output_shape =>
              match true_div (inject_Z (snd output_shape)) (Qnat w_scale) with
              | Return fx =>
                  match true_div (inject_Z (fst output_shape)) (Qnat h_scale) with
                  | Return fy =>
                      if ((fst output_shape <=? 0)%Z || (snd output_shape <=? 0)%Z)%bool
                      then Raise ERuntimeError
                      else
                        let flow_est :=
                          Torch.interpolate flow_est (Z.to_nat (fst output_shape),
                                                      Z.to_nat (snd output_shape)) in
                        Return (scale_and_return flow_est (ratio_x * fx) (ratio_y * fy)
                                                 channel_first)
                  | _ => Raise EZeroDivisionError
                  end
              | _ => Raise EZeroDivisionError
              end
          | None =>
              let flow_est := Torch.interpolate flow_est (h_scale, w_scale) in
              Return (scale_and_return flow_est ratio_x ratio_y channel_first)
          end
      end
  | Raise e => Raise e
  end.
End Methods.

End PWCNetEstimate.

(* ===================================================================== *)
(** ** [training/losses/basic_losses.py]: the evaluation metrics *)
(* ===================================================================== *)

Module BasicMetrics.
Import BasicLosses.

(** What indexing with a boolean mask hands back: the selected entries, or
    the [IndexError] of a mask whose shape is not the shape of the tensor. *)
Inductive indexed (A : Type) :=
| Selected (a : A)
| IndexError.
Arguments Selected {A} a.
Arguments IndexError {A}.

Definition shape_of3 (A : Type) (t : tensor3 A) : list (list nat) :=
  map (map (@length A)) t.

Definition same_shape3 (A B : Type) (t : tensor3 A) (m : tensor3 B) : bool :=
  if list_eq_dec (list_eq_dec Nat.eq_dec) (shape_of3 t) (shape_of3 m) then true else false.

(** [t.permute(0, 2, 3, 1)[:, :, :, c]]: channel [c] of every sample of a
    flow field of two channels. *)
Definition channel (c : nat) (t : tensor4 Q) : tensor3 Q :=
  map (fun sample => nth c sample []) t.

Definition qsum (l : list Q) : Q := fold_left Qplus l 0.

(** [t.mean()] of a one-dimensional tensor: 0/0 = NaN when it is empty. *)
Definition mean (l : list Q) : xq := xdiv (Fin (qsum l)) (Fin (Qnat (length l))).

(** [t.le(thresh).float()] *)
Definition le_float (thresh v : Q) : Q := if Qle_bool v thresh then 1 else 0.

Section Metrics.
(** The square root is taken as given. *)
Variable qsqrt : Q -> Q.

(** [torch.norm(flow_est - flow_target, 2, 1)] of two (N, 2) tensors, given
    by their columns. *)
Definition norm_rows (est_x est_y target_x target_y : list Q) : list Q :=
  zip_with (fun dx dy => qsqrt (dx * dx + dy * dy))
           (zip_with Qminus est_x target_x) (zip_with Qminus est_y target_y).

(** Lines 33-54 of [realEPE], repeated as lines 77-97 of [real_metrics]:
    the end-point error at the pixels of [mask_gt]. *)
Definition masked_EPE (output target : tensor4 Q) (mask_gt : tensor3 bool)
           (ratio_x ratio_y : option Q) : indexed (list Q) :=
  let upsampled_output := realEPE_upsampled_output output target ratio_x ratio_y in
  let flow_target_x := channel 0 target in
  let flow_target_y := channel 1 target in
  let flow_est_x := channel 0 upsampled_output in
  let flow_est_y := channel 1 upsampled_output in
  if (same_shape3 flow_target_x mask_gt && same_shape3 flow_target_y mask_gt &&
      same_shape3 flow_est_x mask_gt && same_shape3 flow_est_y mask_gt)%bool
  then Selected (norm_rows (pick3 flow_est_x mask_gt) (pick3 flow_est_y mask_gt)
                           (pick3 flow_target_x mask_gt) (pick3 flow_target_y mask_gt))
  else IndexError.

(** [realEPE] *)
Definition realEPE (output target : tensor4 Q) (mask_gt : tensor3 bool)
           (ratio_x ratio_y : option Q) : indexed xq :=
  match masked_EPE output target mask_gt ratio_x ratio_y with
  | Selected EPE => Selected (mean EPE)
  | IndexError => IndexError
  end.

(** [real_metrics] *)
Definition real_metrics (output target : tensor4 Q) (mask_gt : tensor3 bool)
           (ratio_x ratio_y : option Q) (thresh_1 thresh_2 thresh_3 : Q)
  : indexed (xq * xq * xq * xq) :=
  match masked_EPE output target mask_gt ratio_x ratio_y with
  | Selected EPE =>
      let PCK_1 := map (le_float thresh_1) EPE in
      let PCK_3 := map (le_float thresh_2) EPE in
      let PCK_5 := map (le_float thresh_3) EPE in
      Selected (mean EPE, mean PCK_1, mean PCK_3, mean PCK_5)
  | IndexError => IndexError
  end.
End Metrics.

(** *** [fbeta_score] and [f1_score], for [y_true] and [y_pred] of one shape *)

(** [t.sum(dim=2).sum(dim=2)]: the sum of every channel of every sample over
    its two spatial dimensions. *)
Definition sum_spatial (t : tensor4 Q) : list (list Q) :=
  map (map (fun im => qsum (concat im))) t.

(** [torch.mean(t)] of a (b, c) tensor. *)
Definition xmean (t : list (list xq)) : xq :=
  xdiv (xsum (concat t)) (Fin (Qnat (length (concat t)))).

Definition fbeta_score (y_true y_pred : tensor4 Q) (beta eps : Q) : xq :=
  let beta2 := beta * beta in
  let true_positive := sum_spatial (tzip Qmult y_pred y_true) in
  let precision :=
    zip_with (zip_with (fun tp s => xdiv (Fin tp) (Fin (s + eps))))
             true_positive (sum_spatial y_pred) in
  let recall :=
    zip_with (zip_with (fun tp s => xdiv (Fin tp) (Fin (s + eps))))
             true_positive (sum_spatial y_true) in
  xmean (zip_with (zip_with (fun p r =>
                     xmul (xdiv (xmul p r) (xadd (xadd (xmul p (Fin beta2)) r) (Fin eps)))
                          (Fin (1 + beta2))))
                  precision recall).

Definition f1_score (y_true y_pred : tensor4 Q) : xq :=
  fbeta_score y_true y_pred 1 (1 # 100000000).

End BasicMetrics.

(* ===================================================================== *)
(** ** [training/actors/warp_consistency_actor_BaseNet.py]: the mask of
       [GLOCALNetWarpCUnsupervisedBatchPreprocessing.__call__] *)
(* ===================================================================== *)

Module BatchPreprocessing.
Import WarpConsistencyLosses.

(** How the choice of the mask ends: with a mask, or with the exception
    that is raised. *)
Inductive raised (A : Type) :=
| Returned (a : A)
| ValueError
| KeyError (k : string)
| AttributeError.
Arguments Returned {A} a.
Arguments ValueError {A}.
Arguments KeyError {A} k.
Arguments AttributeError {A}.

Section Mask.
(** The mask strategies and [get_mask] of [mask_strategies.py] are given. *)
Variable strategy : Type.
Variable get_mask : strategy -> dict (tensor3 bool) -> tensor3 bool.

(** The attributes read by the choice of the mask. *)
Record preprocessing := {
  apply_mask : bool;
  apply_mask_zero_borders : bool;
  mask_strategy : option strategy
}.

(** [.float()] of a mask, and [.byte()] followed by [.bool()] of a float
    between 0 and 1: the fraction is cut off. *)
Definition float (m : bool) : Q := if m then 1 else 0.
Definition byte_bool (v : Q) : bool := negb (Z.eqb ((Qfloor v) mod 256) 0).

(** Lines 142-145: the mask brought to the size of the flow. *)
Definition resize_mask (h w : nat) (mask : tensor3 bool) : tensor3 bool :=
  squeeze1 (tmap byte_bool (Torch.interpolate (unsqueeze1 (tmap3 float mask)) (h, w))).

(** Lines 127-146, for a flow of [h] x [w] pixels; [mini_batch] holds the
    masks of the mini-batch under their keys. *)
Definition select_mask (self : preprocessing) (mini_batch : dict (tensor3 bool)) (h w : nat)
  : raised (tensor3 bool) :=
  let mask : raised (option (tensor3 bool)) :=
    match mask_strategy self with
    | Some s => Returned (Some (get_mask s mini_batch))
    | None =>
        if apply_mask_zero_borders self then
          match lookup "mask_zero_borders" mini_batch with
          | None => ValueError
          | Some m => Returned (Some m)
          end
        else if apply_mask self then
          match lookup "correspondence_mask" mini_batch with
          | None => KeyError "correspondence_mask"
          | Some m => Returned (Some m)
          end
        else Returned None
    end in
  match mask with
  | Returned (Some mask) =>
      if (negb (Nat.eqb (height (hd [] mask)) h) || negb (Nat.eqb (width (hd [] mask)) w))%bool
      then Returned (resize_mask h w mask)
      else Returned mask
  | Returned None => AttributeError
  | ValueError => ValueError
  | KeyError k => KeyError k
  | AttributeError => AttributeError
  end.
End Mask.

End BatchPreprocessing.

(* ===================================================================== *)
(** * Statements: specification-side definitions and example data *)
(* ===================================================================== *)

(** The 4x4 map of the sparse-downsampling scenario: +5 at (0,0), -3 at (3,3). *)
Definition sparse_flow_4x4 : tensor4 Q :=
  [[[[ 5; 0; 0; 0];
     [ 0; 0; 0; 0];
     [ 0; 0; 0; 0];
     [ 0; 0; 0; -3 # 1]]]].

Import OnlineTripletCreation.

(** Every channel of every sample is an [h] x [w] image. *)
Definition spatial (A : Type) (h w : nat) (t : tensor4 A) : Prop :=
  Forall (Forall (image_wf h w)) t.

(** A stand-in for the collaborators, to run the constructor on examples: the
    warp leaves the image as it is and every mask is empty. *)
Definition plain_collaborators : collaborators :=
  {| warp_byte := fun x _ _ => x;
     interpolate_area := fun x size => Torch.interpolate x size;
     to_byte := fun x => x;
     create_border_mask := fun _ => [];
     define_mask_zero_borders := fun _ => [] |}.

Definition crop_settings (crop_hw : nat * nat) : settings :=
  {| compute_mask_zero_borders := false;
     min_percent_valid_corr := 1 # 10;
     crop_size := crop_hw;
     output_size := crop_hw;
     padding_mode := zeros |}.

(** A 4x4 image with one channel whose entries are their own row-major index,
    and a zero flow of the same size. *)
Definition image_4x4 : tensor4 Q :=
  [[[[ 0;  1;  2;  3];
     [ 4;  5;  6;  7];
     [ 8;  9; 10; 11];
     [12; 13; 14; 15]]]].

Definition zero_flow_4x4 : tensor4 Q := tfull 1 2 4 4 0.

Definition stage_spatial (h w : nat) (s : stage) : Prop :=
  spatial h w (s_source s) /\ spatial h w (s_target s) /\
  spatial h w (s_target_prime s) /\ spatial h w (s_flow s).

Definition stage2_spatial (h w : nat) (s : stage2) : Prop :=
  spatial h w (s2_source s) /\ spatial h w (s2_target s) /\
  spatial h w (s2_target_prime_un s) /\ spatial h w (s2_flow_un s) /\
  spatial h w (s2_target_prime_ss s) /\ spatial h w (s2_flow_ss s).

(** The sampling grid of the zero flow: pixel ([i], [j]) samples at its own
    normalised coordinates. *)
Definition identity_grid (H W : nat) : image (Q * Q) :=
  map (fun i =>
         map (fun j => (2 * (Qnat j + 0) / Qnat (Nat.max (W - 1) 1) - 1,
                        2 * (Qnat i + 0) / Qnat (Nat.max (H - 1) 1) - 1))
             (seq 0 W))
      (seq 0 H).

(** An entry that is finite and equal to a rational, and tensors related so
    entry by entry. *)
Definition fin_eq (v : xq) (q : Q) : Prop := exists a, v = Fin a /\ a == q.

Definition teq_fin : tensor4 xq -> tensor4 Q -> Prop :=
  Forall2 (Forall2 (Forall2 (Forall2 fin_eq))).

(** A 1x2 image whose second entry is infinite, and the zero flow of its size. *)
Definition infinite_entry_1x2 : tensor4 xq := [[[[Fin 1; PInf]]]].

Definition zero_flow_1x2 : tensor4 Q := tfull 1 2 1 2 0.

(** The two assignments that threshold the in-range mask, for one entry:
    [mask[mask < 0.9999] = 0] and then [mask[mask > 0] = 1]. *)
Definition mask_thresholds (m : Q) : Q :=
  (fun m => if Qlt_le_dec 0 m then 1 else m)
    ((fun m => if Qlt_le_dec m (9999 # 10000) then 0 else m) m).

Import BasicLosses.

(** *** The per-sample normalisation, as the specification words it *)

(** The value of a finite entry. *)
Definition to_Q (x : xq) : Q := match x with Fin q => q | _ => 0 end.

Definition Qsum (l : list Q) : Q := fold_right Qplus 0 l.

(** The valid pixels of a sample: inside the mask, with an error that is
    neither NaN nor infinite. *)
Definition valid_pixels (error_bb : tensor3 xq) (mask_bb : tensor3 bool) : tensor3 bool :=
  tzip3 andb (tmap3 finite error_bb) mask_bb.

Definition num_valid_pixels (error_bb : tensor3 xq) (mask_bb : tensor3 bool) : Q :=
  Qnat (count3 (valid_pixels error_bb mask_bb)).

(** The sum of the error over the valid pixels of a sample. *)
Definition valid_error_sum (error_bb : tensor3 xq) (mask_bb : tensor3 bool) : Q :=
  Qsum (map to_Q (pick3 error_bb (valid_pixels error_bb mask_bb))).

(** ... times (H*W) / (num_valid_pixels + 1e-6). *)
Definition sample_normalized (h w : nat) (error_bb : tensor3 xq) (mask_bb : tensor3 bool) : Q :=
  valid_error_sum error_bb mask_bb
  * (Qnat (h * w) / (num_valid_pixels error_bb mask_bb + (1 # 1000000))).

(** (1/b) times the sum over the samples. *)
Definition per_sample_normalized_loss (b h w : nat) (error_map : tensor4 xq)
           (mask : tensor4 bool) : Q :=
  (1 / Qnat b)
  * Qsum (map (fun bb => sample_normalized h w (nth bb error_map []) (nth bb mask []))
              (seq 0 b)).

Definition is_fin (x : xq) : Prop := match x with Fin _ => True | _ => False end.

(** The mask rebound by the loss, on one row, and what is picked under it
    from the row times [mask.float()] (the code) or from the row itself (the
    specification). *)
Definition row_valid (es : list xq) (ms : list bool) : list bool :=
  zip_with andb (map finite es) ms.

Definition row_code (es : list xq) (ms : list bool) : list xq :=
  pick (zip_with xmul es (map of_bool (row_valid es ms))) (row_valid es ms).

Definition row_spec (es : list xq) (ms : list bool) : list xq :=
  pick es (row_valid es ms).

(** The term that round [bb] of the loop adds to [L], for an error map [E]
    and a mask passed by the caller. *)
Definition loop_term (h w : nat) (E : tensor4 xq) (mask : tensor4 bool) (bb : nat) : xq :=
  let M := tzip andb (tmap finite E) mask in
  sample_term h w (nth bb (tzip xmul E (tmap of_bool M)) []) (nth bb M []).

(** Two samples of 10x10 pixels with an L1 error of 1 at every pixel; the
    mask of the first covers every pixel, the mask of the second one pixel
    (1 percent). *)
Definition two_sample_gt : tensor4 xq := tfull 2 2 10 10 (Fin 0).

Definition two_sample_est : tensor4 xq :=
  repeat [ifull 10 10 (Fin 1); ifull 10 10 (Fin 0)] 2.

Definition one_pixel_mask : image bool :=
  (true :: repeat false 9) :: repeat (repeat false 10) 9.

Definition two_sample_mask : tensor4 bool := [[ifull 10 10 true]; [one_pixel_mask]].

Definition sum_normalized_loss : loss_object :=
  {| sum_normalized := true; ratio := 1; valid_transformation_bool := None |}.

(** [self.valid_transformation_bool = v] *)
Definition set_valid_transformation_bool (self : loss_object) (v : option (list bool))
  : loss_object :=
  {| sum_normalized := sum_normalized self; ratio := ratio self;
     valid_transformation_bool := v |}.

Definition is_scalar (r : loss_result) : Prop :=
  match r with Scalar _ => True | _ => False end.

Import WarpConsistencyLosses.

(** The flow used for warping at a level: the copy [E * 1.0] of the estimated
    flow [E], with channel 0 multiplied by [w_/w] and channel 1 by [h_/h]. *)
Definition warping_copy (h w : nat) (E : tensor4 Q) : tensor4 Q :=
  let '(_, _, h_, w_) := shape4 E in
  scale_channel 1 (Qnat h_ / Qnat h)
    (scale_channel 0 (Qnat w_ / Qnat w) (tmap (fun v => v * 1) E)).

(** [self.compute_cyclic_consistency = flag] *)
Definition set_cyclic (self : WBipathLoss) (flag : bool) : WBipathLoss :=
  {| detach_flow_for_warping := detach_flow_for_warping self;
     compute_cyclic_consistency := flag;
     alpha_1 := alpha_1 self;
     alpha_2 := alpha_2 self |}.

(** Entry [b][y][x] of a mask, [false] outside. *)
Definition mask_at (m : tensor3 bool) (b y x : nat) : bool :=
  nth x (nth y (nth b m []) []) false.

(** Every valid pixel of [m1] is a valid pixel of [m2]. *)
Definition mask_subset (m1 m2 : tensor3 bool) : Prop :=
  forall b y x, mask_at m1 b y x = true -> mask_at m2 b y x = true.

(** The masks of a level, from the data of the two estimated flows. *)
Definition level_masks (warp : tensor4 Q -> tensor4 Q -> tensor4 Q) (self : WBipathLoss)
           (h w : nat) (flow_map : tensor4 Q)
           (mask_used : option (tensor3 bool)) (E S : tensor4 Q)
  : tensor3 bool * tensor3 bool :=
  let '(b, _, h_, w_) := shape4 E in
  (warping_mask warp b h_ w_ mask_used (warping_copy h w E),
   get_cyclic_consistency_mask self E (warp S (warping_copy h w E)) flow_map).

(** The flow composed at a level, from the data of the two estimated flows. *)
Definition composed_flow (warp : tensor4 Q -> tensor4 Q -> tensor4 Q) (h w : nat)
           (E S : tensor4 Q) : tensor4 Q :=
  tzip Qplus E (warp S (warping_copy h w E)).

(** A run of the loss with one level of 1x1 flows against a 2x2 ground truth:
    the store holds the flow from target prime to source at 0 and the flow
    from source to target at 1. *)
Definition example_loss : WBipathLoss :=
  {| detach_flow_for_warping := true;
     compute_cyclic_consistency := false;
     alpha_1 := 1 # 100;
     alpha_2 := 1 # 2 |}.

Definition example_objective
  : list (tensor4 Q) -> tensor4 Q -> list (tensor3 bool) -> xq * unit :=
  fun _ _ _ => (Fin 0, tt).

Definition example_flow_map : tensor4 Q := [[ifull 2 2 2; ifull 2 2 0]].

Definition example_store : store := [[[[[2]]; [[0]]]]; [[[[0]]; [[0]]]]].

(** Entry [b][c][y][x] of a tensor, 0 outside. *)
Definition entry (t : tensor4 Q) (b c y x : nat) : Q :=
  nth x (nth y (nth c (nth b t []) []) []) 0.

(** A level of 1x1 flows, to be compared with the synthetic flow
    [example_flow_map] of 2x2 that is (2, 0) everywhere. *)
Definition level_flow_1x1 : tensor4 Q := [[[[2]]; [[0]]]].

Definition zero_flow_1x1 : tensor4 Q := [[[[0]]; [[0]]]].

(** The weights 'warp_supervision' and 'w_bipath' of the default configuration. *)
Definition equal_weights : dict Q :=
  [("warp_supervision"%string, 1); ("w_bipath"%string, 1)].

(** [self.sum_normalized = flag] *)
Definition set_sum_normalized (self : loss_object) (flag : bool) : loss_object :=
  {| sum_normalized := flag; ratio := ratio self;
     valid_transformation_bool := valid_transformation_bool self |}.

(** The mask that the losses work with, whether a mask was passed or not. *)
Definition rebound (E : tensor4 xq) (mask : option (tensor4 bool)) : tensor4 bool :=
  match mask with
  | Some m => tzip andb (tmap finite E) m
  | None => tmap finite E
  end.

(** An error map with the entries outside of the mask put to 0. *)
Definition keep_inside (E : tensor4 xq) (mask : tensor4 bool) : tensor4 xq :=
  tzip (fun e (m : bool) => if m then e else Fin 0) E mask.

(** A batch of one 1x2 sample whose estimated flow holds a NaN. *)
Definition nan_gt : tensor4 xq := [[[[Fin 0; Fin 0]]; [[Fin 0; Fin 0]]]].
Definition nan_est : tensor4 xq := [[[[Fin 1; NaN]]; [[Fin 0; PInf]]]].

(** Two estimates for the ground truth [nan_gt] that differ only at the
    second pixel, which the mask leaves out. *)
Definition first_pixel_mask : tensor4 bool := [[[[true; false]]]].
Definition other_est : tensor4 xq := [[[[Fin 1; Fin 7]]; [[Fin 0; Fin 3]]]].

(** Statistics of an earlier iteration, constant weights 2 and 1, and the
    statistics after a call with the losses 1 (supervised) and 2
    (unsupervised). *)
Definition stale_stats : dict xq :=
  [("Loss/total"%string, Fin 9); ("lr"%string, Fin (1 # 10000))].

Definition constant_weights : dict Q :=
  [("w_bipath_constant"%string, 2); ("warp_supervision_constant"%string, 1)].

Definition stale_stats_after : dict xq :=
  [("Loss/total"%string, Fin 5); ("lr"%string, Fin (1 # 10000));
   ("Loss_w_bipath/total"%string, Fin 4); ("Loss_warp_sup/total"%string, Fin 1)].

(** Every entry of a tensor has the property [P]. *)
Definition all_entries3 (A : Type) (P : A -> Prop) (t : tensor3 A) : Prop :=
  Forall (Forall (Forall P)) t.

Definition all_entries (A : Type) (P : A -> Prop) (t : tensor4 A) : Prop :=
  Forall (all_entries3 P) t.

(** Two flows of 1x2 pixels whose sum is the synthetic flow [consistent_sum]. *)
Definition consistent_first : tensor4 Q := [[[[1; 2]]; [[0; -1 # 1]]]].
Definition consistent_second : tensor4 Q := [[[[3; 0]]; [[1; 1]]]].
Definition consistent_sum : tensor4 Q := [[[[4; 2]]; [[1; 0]]]].

Import PWCNetEstimate.

(** A network that answers with one level of 1x1 flows, and a stand-in for
    the resizing of the images that leaves them as they are. *)
Definition example_forward : tensor4 Q -> tensor4 Q -> list (tensor4 Q) :=
  fun _ _ => [level_flow_1x1].

Definition example_resize_to_BGR : Z * Z -> tensor4 Q -> tensor4 Q -> tensor4 Q * tensor4 Q :=
  fun _ source_img target_img => (source_img, target_img).

Import BasicMetrics.

(** An entry between 0 and 1, as the entries of a mask or of a probability
    map are. *)
Definition in_unit_interval (v : Q) : Prop := 0 <= v /\ v <= 1.

(** A mask over the two pixels of [consistent_sum] that selects the first,
    and two occlusion maps of two pixels. *)
Definition first_of_two : tensor3 bool := [[[true; false]]].
Definition occlusion_true : tensor4 Q := [[[[1; 0]]]].
Definition occlusion_pred : tensor4 Q := [[[[1 # 2; 1 # 4]]]].

(** A mini-batch with a correspondence mask of 1x2 pixels, and a processing
    class that applies it. *)
Definition masks_of_batch : dict (tensor3 bool) :=
  [("correspondence_mask"%string, first_of_two)].

Definition apply_mask_only : BatchPreprocessing.preprocessing unit :=
  {| BatchPreprocessing.apply_mask := true;
     BatchPreprocessing.apply_mask_zero_borders := false;
     BatchPreprocessing.mask_strategy := None |}.

Definition default_preprocessing : BatchPreprocessing.preprocessing unit :=
  {| BatchPreprocessing.apply_mask := false;
     BatchPreprocessing.apply_mask_zero_borders := false;
     BatchPreprocessing.mask_strategy := None |}.

Definition no_strategy : unit -> dict (tensor3 bool) -> tensor3 bool := fun _ _ => [].

(** All samples of a mask have [h] x [w] pixels. *)
Definition mask_spatial (h w : nat) (m : tensor3 bool) : Prop := Forall (image_wf h w) m.

(** A level of 1x2 pixels under a ground truth of 2x4 pixels: the store
    holds the flow from target prime to source at 0 (the first pixel moves by
    2 in x) and the flow from source to target at 1. *)
Definition example_flow_map_2x4 : tensor4 Q := [[ifull 2 4 2; ifull 2 4 0]].

Definition example_store_1x2 : store :=
  [[[[[2; 0]]; [[0; 0]]]]; [[[[5; 7]]; [[1; 3]]]]].

(* ===================================================================== *)
(** * Properties *)
(* ===================================================================== *)


(** C8. [sparse_max_pool] of the 4x4 map holding +5 at (0,0) and -3 at (3,3),
    pooled to 2x2, is [[5,0],[0,-3]]: the max-pool of the positive part is
    [[5,0],[0,0]], the max-pool of the negated negative part is [[0,0],[0,3]],
    the result is their difference, and neither the cell of (0,0) nor the cell
    of (3,3) is 0. *)
Theorem sparse_max_pool_keeps_isolated_values :
  teq (BasicLosses.sparse_max_pool_positive_part sparse_flow_4x4 (2, 2)%nat)
      [[[[5; 0]; [0; 0]]]] /\
  teq (BasicLosses.sparse_max_pool_negative_part sparse_flow_4x4 (2, 2)%nat)
      [[[[0; 0]; [0; 3]]]] /\
  teq (BasicLosses.sparse_max_pool sparse_flow_4x4 (2, 2)%nat)
      [[[[5; 0]; [0; -3 # 1]]]] /\
  ~ entry (BasicLosses.sparse_max_pool sparse_flow_4x4 (2, 2)%nat) 0 0 0 0 == 0 /\
  ~ entry (BasicLosses.sparse_max_pool sparse_flow_4x4 (2, 2)%nat) 0 0 1 1 == 0.
Proof.
  split; [| split; [| split; [| split]]].
  - repeat constructor; vm_compute; reflexivity.
  - repeat constructor; vm_compute; reflexivity.
  - repeat constructor; vm_compute; reflexivity.
  - vm_compute. discriminate.
  - vm_compute. discriminate.
Qed.

(* --------------------------------------------------------------------- *)
(** ** The center crop of the triplet constructor *)
(* --------------------------------------------------------------------- *)

Section CenterCrop.

Lemma map_id_Forall (A : Type) (f : A -> A) (l : list A) :
    Forall (fun x => f x = x) l -> map f l = l.
Proof.
    induction 1 as [| x l Hx _ IH]; simpl; [reflexivity | now rewrite Hx, IH].
Qed.

Lemma py_slice_whole (A : Type) (stop : Z) (l : list A) :
    (Z.of_nat (length l) <= stop)%Z -> py_slice 0 stop l = l.
Proof.
    intros Hlen. unfold py_slice, slice_index.
    replace (0 <? 0)%Z with false by reflexivity.
    destruct (Z.ltb_spec stop 0) as [Hneg | _]; [lia |].
    rewrite (Z.min_l 0) by lia. rewrite (Z.min_r stop) by lia.
    rewrite Z.sub_0_r, Nat2Z.id. simpl. apply firstn_all.
Qed.

Lemma crop_whole (A : Type) (h w : nat) (cs : nat * nat) (t : tensor4 A) :
    spatial h w t -> (h <= fst cs)%nat -> (w <= snd cs)%nat -> crop 0 0 cs t = t.
Proof.
    intros Hsp Hh Hw. unfold crop.
    apply map_id_Forall. eapply Forall_impl; [| exact Hsp].
    intros sample Hsample. apply map_id_Forall.
    eapply Forall_impl; [| exact Hsample].
    intros im [Hlen Hrows]. simpl.
    rewrite py_slice_whole by lia.
    apply map_id_Forall. eapply Forall_impl; [| exact Hrows].
    intros row Hrow. simpl in Hrow. apply py_slice_whole. lia.
Qed.

Lemma start_offset_same (dim : nat) : start_offset dim dim = 0%Z.
Proof. unfold start_offset. lia. Qed.

End CenterCrop.

(** C1. The claim fails on the code at a 4x4 image with a crop size of 8,
    which is larger than the image: no guard stands before the slices, both
    start offsets are -2, and Python's slicing [-2:6] keeps the last two rows
    and columns only.  What the comment of the source calls the crop of a
    center patch is the lower right 2x2 block, not the full image, in both
    variants of the triplet constructor. *)
Theorem crop_larger_than_image_is_not_full :
  shape4 image_4x4 = (1, 1, 4, 4)%nat /\
  (4 <= fst (crop_size (crop_settings (8, 8)%nat)))%nat /\
  (4 <= snd (crop_size (crop_settings (8, 8)%nat)))%nat /\
  x_start (crop_settings (8, 8)%nat) image_4x4 = (-2)%Z /\
  y_start (crop_settings (8, 8)%nat) image_4x4 = (-2)%Z /\
  s_source (center_crop plain_collaborators (crop_settings (8, 8)%nat)
                        image_4x4 image_4x4 zero_flow_4x4)
    = [[[[10; 11]; [14; 15]]]] /\
  s_source (center_crop plain_collaborators (crop_settings (8, 8)%nat)
                        image_4x4 image_4x4 zero_flow_4x4)
    <> image_4x4 /\
  s2_source (center_crop2 plain_collaborators (crop_settings (8, 8)%nat)
                          image_4x4 image_4x4 zero_flow_4x4 zero_flow_4x4)
    = [[[[10; 11]; [14; 15]]]].
Proof.
  repeat split; try reflexivity; try (simpl; lia).
  vm_compute. discriminate.
Qed.

(* --------------------------------------------------------------------- *)
(** ** Lists built over index ranges *)
(* --------------------------------------------------------------------- *)

Section IndexRanges.
Variables A B C : Type.

Lemma zip_with_map_seq_repeat (f : A -> B -> C) (g : nat -> A) (z : B) (n s : nat) :
    zip_with f (map g (seq s n)) (repeat z n) = map (fun a => f (g a) z) (seq s n).
  Proof.
    revert s. induction n as [| n IH]; intros s; simpl; [reflexivity |].
    now rewrite IH.
  Qed.

Lemma zip_with_map_map (D : Type) (f : A -> B -> C) (g : D -> A) (h : D -> B) (l : list D) :
    zip_with f (map g l) (map h l) = map (fun a => f (g a) (h a)) l.
  Proof.
    induction l as [| x l IH]; simpl; [reflexivity | now rewrite IH].
  Qed.

Lemma zip_with_repeat_r (f : A -> B -> C) (z : B) (l : list A) :
    zip_with f l (repeat z (length l)) = map (fun a => f a z) l.
  Proof.
    induction l as [| x l IH]; simpl; [reflexivity | now rewrite IH].
  Qed.

Lemma zip_with_repeat_repeat (f : A -> B -> C) (a : A) (z : B) (n : nat) :
    zip_with f (repeat a n) (repeat z n) = repeat (f a z) n.
  Proof.
    induction n as [| n IH]; simpl; [reflexivity | now rewrite IH].
  Qed.

Lemma map_repeat_const (f : A -> B) (a : A) (n : nat) :
    map f (repeat a n) = repeat (f a) n.
  Proof.
    induction n as [| n IH]; simpl; [reflexivity | now rewrite IH].
  Qed.

  (** A list computed index by index is related to [l] as soon as each of its
      entries is related to the entry of [l] at the same index. *)
Lemma Forall2_map_seq (R : A -> B -> Prop) (f : nat -> A) (d : B) (l : list B) (s : nat) :
    (forall k, (k < length l)%nat -> R (f (s + k)%nat) (nth k l d)) ->
    Forall2 R (map f (seq s (length l))) l.
  Proof.
    revert s. induction l as [| x l IH]; intros s H; simpl; constructor.
    - specialize (H O). simpl in H. rewrite Nat.add_0_r in H. apply H. lia.
    - apply IH. intros k Hk. specialize (H (S k)). simpl in H.
      rewrite Nat.add_succ_r in H. apply H. lia.
  Qed.

Lemma Forall2_map_l_same (R : B -> A -> Prop) (f : A -> B) (l : list A) :
    Forall (fun a => R (f a) a) l -> Forall2 R (map f l) l.
  Proof.
    induction 1; simpl; constructor; assumption.
  Qed.
Lemma Forall2_map_seq_len (R : A -> B -> Prop) (f : nat -> A) (d : B) (l : list B) (n : nat) :
  length l = n ->
  (forall k, (k < n)%nat -> R (f k) (nth k l d)) ->
  Forall2 R (map f (seq 0 n)) l.
Proof.
  intros <- H. apply Forall2_map_seq with (d := d). exact H.
Qed.

Lemma map_seq_const (f : nat -> A) (c : A) (n s : nat) :
  (forall k, (s <= k < s + n)%nat -> f k = c) -> map f (seq s n) = repeat c n.
Proof.
  revert s. induction n as [| n IH]; intros s H; simpl; [reflexivity |].
  rewrite H by lia. f_equal. apply IH. intros k Hk. apply H. lia.
Qed.

Lemma Forall2_zip_with_map_repeat (D : Type) (R : C -> D -> Prop) (f : A -> B -> C)
      (g : D -> A) (z : B) (l : list D) :
  Forall (fun a => R (f (g a) z) a) l ->
  Forall2 R (zip_with f (map g l) (repeat z (length l))) l.
Proof.
  induction 1; simpl; constructor; assumption.
Qed.
End IndexRanges.

Lemma nth_map_nil (X Y : Type) (g : list X -> list Y) (l : list (list X)) (i : nat) :
  g [] = [] -> nth i (map g l) [] = g (nth i l []).
Proof.
  intros Hg. revert i. induction l as [| x l IH]; intros i; simpl.
  - destruct i; now rewrite Hg.
  - destruct i; simpl; [reflexivity | apply IH].
Qed.

Lemma height_imap (A B : Type) (f : A -> B) (im : image A) : height (imap f im) = height im.
Proof. unfold height, imap. apply length_map. Qed.

Lemma width_imap (A B : Type) (f : A -> B) (im : image A) : width (imap f im) = width im.
Proof. unfold width, imap. destruct im; simpl; [reflexivity | apply length_map]. Qed.

(* --------------------------------------------------------------------- *)
(** ** Warping with the zero flow *)
(* --------------------------------------------------------------------- *)

Section ZeroFlowWarp.

Lemma Qnat_pred (n : nat) : (1 <= n)%nat -> Qnat (n - 1) == Qnat n - 1.
  Proof.
    intros Hn. unfold Qnat. rewrite Nat2Z.inj_sub by lia.
    unfold Qeq, Qminus, Qplus, Qopp, inject_Z. simpl. lia.
  Qed.

Lemma Qnat_lt (a b : nat) : (a < b)%nat -> Qnat a < Qnat b.
  Proof. intros H. unfold Qnat. rewrite <- Zlt_Qlt. lia. Qed.

  (** Normalising pixel [j] to [-1,1] and back gives pixel [j]. *)
Lemma unnormalize_pixel (n j : nat) :
    (j < n)%nat ->
    Torch.unnormalize n (2 * (Qnat j + 0) / Qnat (Nat.max (n - 1) 1) - 1) == Qnat j.
  Proof.
    intros Hj. unfold Torch.unnormalize.
    destruct (Nat.eq_dec n 1) as [-> | Hn].
    - assert (j = 0)%nat by lia. subst j. vm_compute. reflexivity.
    - rewrite Nat.max_l by lia.
      rewrite (Qnat_pred (n := n)) by lia.
      assert (Qnat 1 < Qnat n) by (apply Qnat_lt; lia).
      change (Qnat 1) with 1 in *.
      field. lra.
  Qed.

Lemma image_wf_width (A : Type) (h w : nat) (im : image A) :
  image_wf h w im -> (0 < h)%nat -> width im = w.
Proof.
  intros [Hlen Hrows] Hh. unfold width.
  destruct im as [| row im']; simpl in *; [lia |].
  now inversion Hrows.
Qed.

Lemma pixz_inside (im : image Q) (h w i j : nat) :
  image_wf h w im -> (i < h)%nat -> (j < w)%nat ->
  Torch.pixz im (Z.of_nat i) (Z.of_nat j) = pix 0 im i j.
Proof.
  intros Hwf Hi Hj. unfold Torch.pixz.
  rewrite (image_wf_width Hwf) by lia.
  destruct Hwf as [Hlen _]. unfold height. rewrite Hlen.
  rewrite !Nat2Z.id.
  replace (0 <=? Z.of_nat i)%Z with true by (symmetry; apply Z.leb_le; lia).
  replace (Z.of_nat i <? Z.of_nat h)%Z with true by (symmetry; apply Z.ltb_lt; lia).
  replace (0 <=? Z.of_nat j)%Z with true by (symmetry; apply Z.leb_le; lia).
  replace (Z.of_nat j <? Z.of_nat w)%Z with true by (symmetry; apply Z.ltb_lt; lia).
  reflexivity.
Qed.

(** Bilinear sampling at the exact center of pixel ([i], [j]) returns the
    value of that pixel: its weight is 1 and the other three weights are 0. *)
Lemma grid_sample_at_pixel (im : image Q) (h w i j : nat) (g : Q * Q) :
  image_wf h w im -> (i < h)%nat -> (j < w)%nat ->
  Torch.unnormalize w (fst g) == Qnat j ->
  Torch.unnormalize h (snd g) == Qnat i ->
  Torch.grid_sample_at im g == pix 0 im i j.
Proof.
  intros Hwf Hi Hj Hx Hy. unfold Torch.grid_sample_at.
  rewrite (image_wf_width Hwf) by lia.
  replace (height im) with h by (symmetry; apply Hwf).
  set (ix := Torch.unnormalize w (fst g)) in *.
  set (iy := Torch.unnormalize h (snd g)) in *.
  cbv zeta.
  assert (Fx : Qfloor ix = Z.of_nat j)
    by (rewrite (Qfloor_comp _ _ Hx); apply Qfloor_Z).
  assert (Fy : Qfloor iy = Z.of_nat i)
    by (rewrite (Qfloor_comp _ _ Hy); apply Qfloor_Z).
  rewrite Fx, Fy. rewrite (pixz_inside Hwf Hi Hj).
  generalize (Torch.pixz im (Z.of_nat i) (Z.of_nat j + 1)).
  generalize (Torch.pixz im (Z.of_nat i + 1) (Z.of_nat j)).
  generalize (Torch.pixz im (Z.of_nat i + 1) (Z.of_nat j + 1)).
  generalize (pix 0 im i j).
  intros p q11 q10 q01.
  rewrite Hx, Hy. unfold Qnat. rewrite !inject_Z_plus. ring.
Qed.

Lemma warp_vgrid_zero (B H W : nat) :
  Torch.permute_0231 (PWCNet.warp_vgrid B H W (tfull B 2 H W 0))
  = repeat (identity_grid H W) B.
Proof.
  unfold PWCNet.warp_vgrid, tfull, tzip, Torch.permute_0231, map_channel.
  rewrite zip_with_repeat_repeat. rewrite !map_repeat_const. simpl.
  f_equal.
  unfold izip, imap, PWCNet.mesh_xx, PWCNet.mesh_yy, ifull, identity_grid.
  rewrite !zip_with_map_seq_repeat, !map_map, zip_with_map_map.
  apply map_ext. intros i.
  rewrite !zip_with_map_seq_repeat, !map_map, zip_with_map_map.
  reflexivity.
Qed.

Lemma ifull_wf (A : Type) (h w : nat) (v : A) : image_wf h w (ifull h w v).
Proof.
  unfold ifull. split; [apply repeat_length |].
  apply Forall_forall. intros row Hin. apply repeat_spec in Hin. subst row.
  apply repeat_length.
Qed.

Lemma pix_ifull (A : Type) (h w i j : nat) (v d : A) :
  (i < h)%nat -> (j < w)%nat -> pix d (ifull h w v) i j = v.
Proof.
  intros Hi Hj. unfold pix, ifull. now rewrite !nth_repeat_lt.
Qed.

Lemma image_wf_row (A : Type) (h w i : nat) (im : image A) :
  image_wf h w im -> (i < h)%nat -> length (nth i im []) = w.
Proof.
  intros [Hlen Hrows] Hi. rewrite Forall_forall in Hrows.
  apply Hrows. apply nth_In. lia.
Qed.

(** Sampling an image on the grid of the zero flow reproduces the image. *)
Lemma sample_identity_grid (im : image Q) (H W : nat) :
  image_wf H W im ->
  ieq (imap (Torch.grid_sample_at im) (identity_grid H W)) im.
Proof.
  intros Hwf. unfold ieq, imap, identity_grid. rewrite map_map.
  apply Forall2_map_seq_len with (d := @nil Q); [apply Hwf |].
  intros i Hi. rewrite map_map.
  apply Forall2_map_seq_len with (d := 0); [now apply (image_wf_row Hwf) |].
  intros j Hj.
  apply (grid_sample_at_pixel (h := H) (w := W)); try assumption; simpl.
  - now apply unnormalize_pixel.
  - now apply unnormalize_pixel.
Qed.

(** The two thresholds of the mask leave a value equal to 1 at 1. *)
Lemma mask_threshold_one (m : Q) :
  m == 1 ->
  (let m1 := if Qlt_le_dec m (9999 # 10000) then 0 else m in
   if Qlt_le_dec 0 m1 then 1 else m1) = 1.
Proof.
  intros Hm. cbv zeta.
  destruct (Qlt_le_dec m (9999 # 10000)) as [Hlt | Hge].
  - exfalso. rewrite Hm in Hlt. discriminate Hlt.
  - destruct (Qlt_le_dec 0 m) as [_ | Hle]; [reflexivity |].
    exfalso. rewrite Hm in Hle. apply Hle. reflexivity.
Qed.

(** The in-range mask of the zero flow is 1 everywhere. *)
Lemma mask_identity_grid (H W : nat) :
  imap (fun m => if Qlt_le_dec 0 m then 1 else m)
       (imap (fun m => if Qlt_le_dec m (9999 # 10000) then 0 else m)
             (imap (Torch.grid_sample_at (ifull H W 1)) (identity_grid H W)))
  = ifull H W 1.
Proof.
  unfold imap, identity_grid, ifull at 2. rewrite !map_map.
  apply map_seq_const. intros i Hi. rewrite !map_map.
  apply map_seq_const. intros j Hj.
  apply mask_threshold_one.
  rewrite (grid_sample_at_pixel (h := H) (w := W) (i := i) (j := j));
    try (simpl; apply unnormalize_pixel); try lia; try apply ifull_wf.
  rewrite pix_ifull by lia. reflexivity.
Qed.

Lemma warp_mask_zero_flow (B C H W : nat) (x : tensor4 Q) :
  shape4 x = (B, C, H, W) ->
  PWCNet.warp_mask x (tfull B 2 H W 0) = tfull B C H W 1.
Proof.
  intros Hshape. unfold PWCNet.warp_mask. rewrite Hshape, warp_vgrid_zero.
  unfold Torch.grid_sample, tfull, tmap, tmap3.
  rewrite zip_with_repeat_repeat, !map_repeat_const.
  now rewrite mask_identity_grid.
Qed.

End ZeroFlowWarp.

(** *** The input with finite entries in the kernel that can hold infinite ones *)

Section FiniteEntries.

Lemma shape4_tmap (A B : Type) (f : A -> B) (t : tensor4 A) :
  shape4 (tmap f t) = shape4 t.
Proof.
  unfold shape4, tmap, tmap3, imap, height, width.
  rewrite length_map.
  destruct t as [| s t]; simpl; [reflexivity |]. rewrite length_map.
  destruct s as [| im s]; simpl; [reflexivity |]. rewrite length_map.
  destruct im as [| r im]; simpl; [reflexivity |].
  now rewrite length_map.
Qed.

Lemma pix_imap_Fin (im : image Q) (h w i j : nat) :
  image_wf h w im -> (i < h)%nat -> (j < w)%nat ->
  pix NaN (imap Fin im) i j = Fin (pix 0 im i j).
Proof.
  intros Hwf Hi Hj. unfold pix, imap, image in *.
  rewrite nth_map_nil by reflexivity.
  rewrite (nth_indep _ NaN (Fin 0))
    by (rewrite length_map, (image_wf_row Hwf Hi); exact Hj).
  apply map_nth.
Qed.

Lemma fin_eq_comp (v : xq) (q q' : Q) : fin_eq v q -> q == q' -> fin_eq v q'.
Proof.
  intros (a & -> & Ha) Hq. exists a. split; [reflexivity |]. now rewrite Ha.
Qed.

(** Adding a corner: an entry outside the input counts as 0 on the rational
    side and is skipped by the kernel. *)
Lemma add_corner_fin (im : image Q) (h w : nat) (y x : Z) (weight : Q) (res : xq) (q : Q) :
  image_wf h w im -> (0 < h)%nat ->
  fin_eq res q ->
  fin_eq (PWCNetNonFinite.add_corner (imap Fin im) y x weight res)
         (q + Torch.pixz im y x * weight).
Proof.
  intros Hwf Hh (a & -> & Ha).
  unfold PWCNetNonFinite.add_corner, PWCNetNonFinite.within_bounds_2d, Torch.pixz.
  rewrite height_imap, width_imap.
  rewrite (image_wf_width Hwf Hh).
  replace (height im) with h by (symmetry; apply Hwf).
  destruct ((0 <=? y)%Z && (y <? Z.of_nat h)%Z &&
            (0 <=? x)%Z && (x <? Z.of_nat w)%Z)%bool eqn:Hin.
  - apply andb_prop in Hin. destruct Hin as [Hin Hx1].
    apply andb_prop in Hin. destruct Hin as [Hin Hx0].
    apply andb_prop in Hin. destruct Hin as [Hy0 Hy1].
    apply Z.leb_le in Hy0, Hx0. apply Z.ltb_lt in Hy1, Hx1.
    rewrite (pix_imap_Fin (h := h) (w := w)) by (assumption || lia).
    simpl. eexists. split; [reflexivity |]. now rewrite Ha.
  - exists a. split; [reflexivity |]. rewrite Ha. ring.
Qed.

(** On finite entries the kernel computes the bilinear combination of
    [Torch.grid_sample_at]. *)
Lemma grid_sample_at_fin (im : image Q) (h w : nat) (g : Q * Q) :
  image_wf h w im -> (0 < h)%nat ->
  fin_eq (PWCNetNonFinite.grid_sample_at (imap Fin im) g) (Torch.grid_sample_at im g).
Proof.
  intros Hwf Hh. unfold PWCNetNonFinite.grid_sample_at.
  rewrite height_imap, width_imap. cbv zeta.
  eapply fin_eq_comp.
  - do 4 (eapply add_corner_fin; [exact Hwf | exact Hh |]).
    exists 0. split; reflexivity.
  - unfold Torch.grid_sample_at. cbv zeta. ring.
Qed.

End FiniteEntries.

(** *** Sampling next to a pixel center *)

Section NearPixelCenters.

Lemma Qfloor_unique (q : Q) (z : Z) :
  inject_Z z <= q -> q < inject_Z z + 1 -> Qfloor q = z.
Proof.
  intros Hlo Hhi.
  pose proof (Qfloor_le q) as H1. pose proof (Qlt_floor q) as H2.
  assert (A : inject_Z (Qfloor q) < inject_Z (z + 1)).
  { rewrite inject_Z_plus. change (inject_Z 1) with 1. lra. }
  assert (B : inject_Z z < inject_Z (Qfloor q + 1)) by lra.
  rewrite <- Zlt_Qlt in A, B. lia.
Qed.

Lemma inject_Z_pred (z : Z) : inject_Z (z - 1) == inject_Z z - 1.
Proof. unfold Z.sub. rewrite inject_Z_plus. reflexivity. Qed.

Lemma inject_Z_succ (z : Z) : inject_Z (z + 1) == inject_Z z + 1.
Proof. rewrite inject_Z_plus. reflexivity. Qed.

(** A weighted mean of four values lies near the first of them when the
    other three weights are small. *)
Lemma convex4_near (w1 w2 w3 w4 p1 p2 p3 p4 M : Q) :
  0 <= w1 -> 0 <= w2 -> 0 <= w3 -> 0 <= w4 ->
  w1 + w2 + w3 + w4 == 1 ->
  Qabs p1 <= M -> Qabs p2 <= M -> Qabs p3 <= M -> Qabs p4 <= M ->
  Qabs (p1 * w1 + p2 * w2 + p3 * w3 + p4 * w4 - p1) <= 2 * M * (1 - w1).
Proof.
  intros H1 H2 H3 H4 Hs A1 A2 A3 A4.
  apply Qabs_Qle_condition in A1, A2, A3, A4.
  destruct A1 as [L1 U1], A2 as [L2 U2], A3 as [L3 U3], A4 as [L4 U4].
  assert (E : p1 * w1 + p2 * w2 + p3 * w3 + p4 * w4 - p1
              == (p2 - p1) * w2 + (p3 - p1) * w3 + (p4 - p1) * w4).
  { setoid_replace w1 with (1 - w2 - w3 - w4) by lra. ring. }
  rewrite E.
  assert (B2 : - (2 * M) * w2 <= (p2 - p1) * w2 /\ (p2 - p1) * w2 <= 2 * M * w2)
    by (split; nra).
  assert (B3 : - (2 * M) * w3 <= (p3 - p1) * w3 /\ (p3 - p1) * w3 <= 2 * M * w3)
    by (split; nra).
  assert (B4 : - (2 * M) * w4 <= (p4 - p1) * w4 /\ (p4 - p1) * w4 <= 2 * M * w4)
    by (split; nra).
  apply Qabs_Qle_condition.
  setoid_replace (1 - w1) with (w2 + w3 + w4) by lra.
  split; nra.
Qed.

(** A coordinate within [delta < 1] of the integer [t] has floor [t] or [t - 1]. *)
Lemma floor_near (ix : Q) (t : Z) (delta : Q) :
  0 <= delta -> delta < 1 -> Qabs (ix - inject_Z t) <= delta ->
  (Qfloor ix = t /\ 0 <= ix - inject_Z t) \/
  (Qfloor ix = (t - 1)%Z /\ ix - inject_Z t < 0).
Proof.
  intros H0 H1 Habs. apply Qabs_Qle_condition in Habs. destruct Habs as [Hlo Hhi].
  destruct (Qlt_le_dec (ix - inject_Z t) 0) as [Hneg | Hpos].
  - right. split; [| exact Hneg].
    apply Qfloor_unique; rewrite inject_Z_pred; lra.
  - left. split; [| exact Hpos]. apply Qfloor_unique; lra.
Qed.

(** The bilinear combination at a point within [delta] of the pixel
    ([ti], [tj]) is a weighted mean of four entries, one of them the entry at
    ([ti], [tj]) with a weight of at least [1 - 2 * delta]. *)
Lemma bilinear_near (P : Z -> Z -> Q) (ix iy : Q) (ti tj : Z) (delta : Q) :
  0 <= delta -> delta < 1 ->
  Qabs (ix - inject_Z tj) <= delta ->
  Qabs (iy - inject_Z ti) <= delta ->
  exists (w1 w2 w3 w4 : Q) (y2 x2 y3 x3 y4 x4 : Z),
    P (Qfloor iy) (Qfloor ix)
      * ((inject_Z (Qfloor ix + 1) - ix) * (inject_Z (Qfloor iy + 1) - iy))
    + P (Qfloor iy) (Qfloor ix + 1)%Z
      * ((ix - inject_Z (Qfloor ix)) * (inject_Z (Qfloor iy + 1) - iy))
    + P (Qfloor iy + 1)%Z (Qfloor ix)
      * ((inject_Z (Qfloor ix + 1) - ix) * (iy - inject_Z (Qfloor iy)))
    + P (Qfloor iy + 1)%Z (Qfloor ix + 1)%Z
      * ((ix - inject_Z (Qfloor ix)) * (iy - inject_Z (Qfloor iy)))
    == P ti tj * w1 + P y2 x2 * w2 + P y3 x3 * w3 + P y4 x4 * w4 /\
    0 <= w1 /\ 0 <= w2 /\ 0 <= w3 /\ 0 <= w4 /\
    w1 + w2 + w3 + w4 == 1 /\
    1 - w1 <= 2 * delta.
Proof.
  intros H0 H1 Hx Hy.
  pose proof Hx as Hx'. pose proof Hy as Hy'.
  apply Qabs_Qle_condition in Hx'. apply Qabs_Qle_condition in Hy'.
  destruct Hx' as [Hxl Hxu]. destruct Hy' as [Hyl Hyu].
  destruct (@floor_near ix tj delta H0 H1 Hx) as [[Fx Sx] | [Fx Sx]];
    destruct (@floor_near iy ti delta H0 H1 Hy) as [[Fy Sy] | [Fy Sy]];
    rewrite Fx, Fy;
    try replace (tj - 1 + 1)%Z with tj by lia;
    try replace (ti - 1 + 1)%Z with ti by lia;
    pose (X := inject_Z tj); pose (Y := inject_Z ti).
  - exists ((X + 1 - ix) * (Y + 1 - iy)), ((ix - X) * (Y + 1 - iy)),
           ((X + 1 - ix) * (iy - Y)), ((ix - X) * (iy - Y)),
           ti, (tj + 1)%Z, (ti + 1)%Z, tj, (ti + 1)%Z, (tj + 1)%Z.
    rewrite ?inject_Z_succ, ?inject_Z_pred; fold X Y;
      fold X Y in Hxl, Hxu, Hyl, Hyu, Sx, Sy; clearbody X Y;
      split; [ring |]; do 4 (split; [nra |]); split; [ring | nra].
  - exists ((X + 1 - ix) * (iy - (Y - 1))), ((ix - X) * (iy - (Y - 1))),
           ((X + 1 - ix) * (Y - iy)), ((ix - X) * (Y - iy)),
           ti, (tj + 1)%Z, (ti - 1)%Z, tj, (ti - 1)%Z, (tj + 1)%Z.
    rewrite ?inject_Z_succ, ?inject_Z_pred; fold X Y;
      fold X Y in Hxl, Hxu, Hyl, Hyu, Sx, Sy; clearbody X Y;
      split; [ring |]; do 4 (split; [nra |]); split; [ring | nra].
  - exists ((ix - (X - 1)) * (Y + 1 - iy)), ((X - ix) * (Y + 1 - iy)),
           ((ix - (X - 1)) * (iy - Y)), ((X - ix) * (iy - Y)),
           ti, (tj - 1)%Z, (ti + 1)%Z, tj, (ti + 1)%Z, (tj - 1)%Z.
    rewrite ?inject_Z_succ, ?inject_Z_pred; fold X Y;
      fold X Y in Hxl, Hxu, Hyl, Hyu, Sx, Sy; clearbody X Y;
      split; [ring |]; do 4 (split; [nra |]); split; [ring | nra].
  - exists ((ix - (X - 1)) * (iy - (Y - 1))),
           ((X - ix) * (iy - (Y - 1))),
           ((ix - (X - 1)) * (Y - iy)), ((X - ix) * (Y - iy)),
           ti, (tj - 1)%Z, (ti - 1)%Z, tj, (ti - 1)%Z, (tj - 1)%Z.
    rewrite ?inject_Z_succ, ?inject_Z_pred; fold X Y;
      fold X Y in Hxl, Hxu, Hyl, Hyu, Sx, Sy; clearbody X Y;
      split; [ring |]; do 4 (split; [nra |]); split; [ring | nra].
Qed.

Lemma pixz_bounded (im : image Q) (M : Q) :
  (forall y x, Qabs (pix 0 im y x) <= M) ->
  forall y x, Qabs (Torch.pixz im y x) <= M.
Proof.
  intros HM y x. unfold Torch.pixz.
  destruct ((0 <=? y)%Z && (y <? Z.of_nat (height im))%Z &&
            (0 <=? x)%Z && (x <? Z.of_nat (width im))%Z)%bool; [apply HM |].
  pose proof (HM 0%nat 0%nat) as H0. pose proof (Qabs_nonneg (pix 0 im 0 0)) as H1.
  change (Qabs 0) with 0. lra.
Qed.

(** Sampling within [delta] of the center of pixel ([i], [j]) returns the
    value of that pixel up to [4 * delta] times the largest entry. *)
Lemma grid_sample_at_near (im : image Q) (h w i j : nat) (g : Q * Q) (delta M : Q) :
  image_wf h w im -> (i < h)%nat -> (j < w)%nat ->
  0 <= delta -> delta < 1 ->
  (forall y x, Qabs (pix 0 im y x) <= M) ->
  Qabs (Torch.unnormalize w (fst g) - Qnat j) <= delta ->
  Qabs (Torch.unnormalize h (snd g) - Qnat i) <= delta ->
  Qabs (Torch.grid_sample_at im g - pix 0 im i j) <= 4 * delta * M.
Proof.
  intros Hwf Hi Hj H0 H1 HM Hx Hy. unfold Torch.grid_sample_at.
  rewrite (image_wf_width Hwf) by lia.
  replace (height im) with h by (symmetry; apply Hwf).
  cbv zeta. unfold Qnat in Hx, Hy.
  destruct (bilinear_near (Torch.pixz im) H0 H1 Hx Hy)
    as (w1 & w2 & w3 & w4 & y2 & x2 & y3 & x3 & y4 & x4 &
        E & P1 & P2 & P3 & P4 & S & N).
  rewrite E, (pixz_inside Hwf Hi Hj).
  pose proof (pixz_bounded im HM) as HP.
  assert (HM0 : 0 <= M).
  { pose proof (HM 0%nat 0%nat). pose proof (Qabs_nonneg (pix 0 im 0 0)). lra. }
  eapply Qle_trans.
  - apply (@convex4_near w1 w2 w3 w4 _ _ _ _ M); try assumption;
      first [apply HM | apply HP].
  - nra.
Qed.

Lemma nth_repeat_cases (A : Type) (a d : A) (n k : nat) :
  nth k (repeat a n) d = a \/ nth k (repeat a n) d = d.
Proof.
  revert k. induction n as [| n IH]; intros k; simpl.
  - right. now destruct k.
  - destruct k; [now left | apply IH].
Qed.

Lemma pixz_ones (h w : nat) (y x : Z) :
  0 <= Torch.pixz (ifull h w 1) y x /\ Torch.pixz (ifull h w 1) y x <= 1.
Proof.
  unfold Torch.pixz.
  match goal with |- context [if ?c then _ else _] => destruct c end;
    [| split; lra].
  unfold pix, ifull.
  destruct (nth_repeat_cases (repeat 1 w) [] h (Z.to_nat y)) as [-> | ->].
  - destruct (nth_repeat_cases 1 0 w (Z.to_nat x)) as [-> | ->]; split; lra.
  - destruct (Z.to_nat x); simpl; split; lra.
Qed.

(** The mask sampled within [delta <= 1/20000] of a pixel center passes both
    thresholds: the neighbours outside the input take at most [2 * delta]. *)
Lemma mask_near (h w i j : nat) (g : Q * Q) (delta : Q) :
  (i < h)%nat -> (j < w)%nat ->
  0 <= delta -> delta <= 1 # 20000 ->
  Qabs (Torch.unnormalize w (fst g) - Qnat j) <= delta ->
  Qabs (Torch.unnormalize h (snd g) - Qnat i) <= delta ->
  mask_thresholds (Torch.grid_sample_at (ifull h w 1) g) = 1.
Proof.
  intros Hi Hj H0 H1 Hx Hy.
  assert (Hm : 9999 # 10000 <= Torch.grid_sample_at (ifull h w 1) g).
  { unfold Torch.grid_sample_at.
    rewrite (image_wf_width (ifull_wf h w 1)) by lia.
    replace (height (ifull h w 1)) with h by (symmetry; apply ifull_wf).
    cbv zeta. unfold Qnat in Hx, Hy.
    assert (H1' : delta < 1) by lra.
    destruct (bilinear_near (Torch.pixz (ifull h w 1)) H0 H1' Hx Hy)
      as (w1 & w2 & w3 & w4 & y2 & x2 & y3 & x3 & y4 & x4 &
          E & P1 & P2 & P3 & P4 & S & N).
    rewrite E, (pixz_inside (ifull_wf h w 1) Hi Hj), pix_ifull by lia.
    pose proof (pixz_ones h w y2 x2) as [A2 _].
    pose proof (pixz_ones h w y3 x3) as [A3 _].
    pose proof (pixz_ones h w y4 x4) as [A4 _].
    nra. }
  unfold mask_thresholds.
  destruct (Qlt_le_dec (Torch.grid_sample_at (ifull h w 1) g) (9999 # 10000)) as [Hlt | _];
    [lra |].
  destruct (Qlt_le_dec 0 (Torch.grid_sample_at (ifull h w 1) g)) as [_ | Hle];
    [reflexivity | lra].
Qed.

End NearPixelCenters.

Section WarpOfFiniteEntries.

Lemma zip_with_map_repeat_r (A B C D : Type) (f : A -> B -> C) (g : D -> A) (z : B)
      (l : list D) :
  zip_with f (map g l) (repeat z (length l)) = map (fun a => f (g a) z) l.
Proof.
  induction l as [| x l IH]; simpl; [reflexivity | now rewrite IH].
Qed.

Lemma tmap_tfull (A B : Type) (f : A -> B) (b c h w : nat) (v : A) :
  tmap f (tfull b c h w v) = tfull b c h w (f v).
Proof.
  unfold tmap, tmap3, imap, tfull, ifull. now rewrite !map_repeat_const.
Qed.

(** The two assignments to the mask, entry by entry. *)
Lemma warp_mask_entrywise (B C H W : nat) (x flo : tensor4 Q) :
  shape4 x = (B, C, H, W) ->
  PWCNet.warp_mask x flo
  = tmap mask_thresholds
         (Torch.grid_sample (tfull B C H W 1)
                            (Torch.permute_0231 (PWCNet.warp_vgrid B H W flo))).
Proof.
  intros Hshape. unfold PWCNet.warp_mask. rewrite Hshape.
  unfold tmap, tmap3, imap. rewrite map_map. apply map_ext. intros sample.
  rewrite map_map. apply map_ext. intros im.
  rewrite map_map. apply map_ext. intros row.
  rewrite map_map. reflexivity.
Qed.

(** With exact coordinates and finite entries the warp with the zero flow
    returns its input. *)
Lemma warp_zero_flow_exact (B C H W : nat) (x : tensor4 Q) :
  tensor4_wf B C H W x ->
  shape4 x = (B, C, H, W) ->
  teq (Torch.grid_sample x (repeat (identity_grid H W) B)) x /\
  teq (PWCNet.warp x (tfull B 2 H W 0)) x.
Proof.
  intros [Hlen Hwf] Hshape.
  split.
  { unfold Torch.grid_sample. rewrite <- Hlen, zip_with_repeat_r.
    apply Forall2_map_l_same. eapply Forall_impl; [| exact Hwf].
    intros sample [_ Himgs]. apply Forall2_map_l_same.
    eapply Forall_impl; [| exact Himgs].
    intros im Him. now apply sample_identity_grid. }
  unfold PWCNet.warp.
  rewrite (warp_mask_zero_flow Hshape), Hshape, warp_vgrid_zero.
  unfold Torch.grid_sample, tfull, tzip.
  rewrite <- Hlen, zip_with_repeat_r.
  apply Forall2_zip_with_map_repeat.
  eapply Forall_impl; [| exact Hwf].
  intros sample [Hc Himgs]. unfold tzip3. rewrite <- Hc.
  apply Forall2_zip_with_map_repeat.
  eapply Forall_impl; [| exact Himgs].
  intros im Him. unfold izip, imap, identity_grid, ifull.
  rewrite map_map, zip_with_map_seq_repeat.
  apply Forall2_map_seq_len with (d := @nil Q); [apply Him |].
  intros i Hi. rewrite map_map, zip_with_map_seq_repeat.
  apply Forall2_map_seq_len with (d := 0); [now apply (image_wf_row Him) |].
  intros j Hj.
  rewrite (grid_sample_at_pixel (h := H) (w := W) (i := i) (j := j));
    try (simpl; apply unnormalize_pixel); try assumption.
  fold (pix 0 im i j). ring.
Qed.

(** The same in the kernel that can hold infinite entries: the entries of the
    result are finite and equal to those of the input. *)
Lemma warp_zero_flow_fin (B C H W : nat) (x : tensor4 Q) :
  tensor4_wf B C H W x ->
  shape4 x = (B, C, H, W) ->
  teq_fin (PWCNetNonFinite.warp (tmap Fin x) (tfull B 2 H W 0)) x.
Proof.
  intros [Hlen Hwf] Hshape.
  pose proof (warp_mask_zero_flow Hshape) as Hmask.
  unfold PWCNet.warp_mask in Hmask. rewrite Hshape, warp_vgrid_zero in Hmask.
  cbv zeta in Hmask.
  unfold PWCNetNonFinite.warp.
  rewrite shape4_tmap, Hshape, warp_vgrid_zero. cbv zeta.
  rewrite Hmask, tmap_tfull.
  unfold teq_fin, PWCNetNonFinite.grid_sample, tfull, tzip, tmap.
  rewrite <- Hlen, zip_with_map_repeat_r.
  apply Forall2_zip_with_map_repeat.
  eapply Forall_impl; [| exact Hwf].
  intros sample [Hc Himgs]. unfold tzip3, tmap3. rewrite map_map, <- Hc.
  apply Forall2_zip_with_map_repeat.
  eapply Forall_impl; [| exact Himgs].
  intros im Him. unfold izip, identity_grid, ifull.
  unfold imap at 1.
  rewrite map_map, zip_with_map_seq_repeat.
  apply Forall2_map_seq_len with (d := @nil Q); [apply Him |].
  intros i Hi. rewrite map_map, zip_with_map_seq_repeat.
  apply Forall2_map_seq_len with (d := 0); [now apply (image_wf_row Him) |].
  intros j Hj.
  match goal with
  | |- fin_eq (xmul (PWCNetNonFinite.grid_sample_at _ ?g) _) _ =>
      destruct (@grid_sample_at_fin im H W g Him ltac:(lia)) as (a & Ea & Ha)
  end.
  rewrite Ea. exists (a * 1). split; [reflexivity |].
  rewrite Ha.
  rewrite (grid_sample_at_pixel (h := H) (w := W) (i := i) (j := j));
    try (simpl; apply unnormalize_pixel); try assumption.
  fold (pix 0 im i j). ring.
Qed.

End WarpOfFiniteEntries.

(** C9 (as stated, refuted). At a tensor with an infinite entry: in the 1x2
    image [1, +inf] the right neighbour of pixel 0 lies inside the image and is
    added with the weight 0, and 0 times +inf is NaN. *)
Lemma warp_zero_flow_changes_infinite_neighbour :
  shape4 infinite_entry_1x2 = (1, 1, 1, 2)%nat /\
  zero_flow_1x2 = tfull 1 2 1 2 0 /\
  PWCNetNonFinite.warp infinite_entry_1x2 zero_flow_1x2 = [[[[NaN; PInf]]]] /\
  PWCNetNonFinite.warp infinite_entry_1x2 zero_flow_1x2 <> infinite_entry_1x2.
Proof.
  split; [reflexivity |]. split; [reflexivity |].
  assert (E : PWCNetNonFinite.warp infinite_entry_1x2 zero_flow_1x2 = [[[[NaN; PInf]]]])
    by (vm_compute; reflexivity).
  split; [exact E |]. rewrite E. discriminate.
Qed.

(** C9 (amended). For a tensor [x] of shape (B, C, H, W) with finite entries,
    warping [x] with the all-zero flow returns [x]: the sampling grid is the
    identity pixel grid, sampling at the pixel centers reproduces the values
    of [x], the in-range mask is 1 everywhere and the product is [x], with
    finite entries also in the kernel that can hold infinite ones.  This is
    exact for exactly computed coordinates.  For coordinates that are off
    the center of pixel ([i], [j]) by at most [delta <= 1/20000] in each
    direction, the mask entry is still 1 and the sampled value differs from
    the entry of [x] by at most [4 * delta * M], with [M] a bound of the
    entries of the image. *)
Theorem warp_zero_flow_is_identity_on_finite_entries (B C H W : nat) (x : tensor4 Q) :
  tensor4_wf B C H W x ->
  shape4 x = (B, C, H, W) ->
  Torch.permute_0231 (PWCNet.warp_vgrid B H W (tfull B 2 H W 0))
    = repeat (identity_grid H W) B /\
  teq (Torch.grid_sample x (repeat (identity_grid H W) B)) x /\
  PWCNet.warp_mask x (tfull B 2 H W 0) = tfull B C H W 1 /\
  teq (PWCNet.warp x (tfull B 2 H W 0)) x /\
  teq_fin (PWCNetNonFinite.warp (tmap Fin x) (tfull B 2 H W 0)) x /\
  (forall flo : tensor4 Q,
     PWCNet.warp_mask x flo
     = tmap mask_thresholds
            (Torch.grid_sample (tfull B C H W 1)
                               (Torch.permute_0231 (PWCNet.warp_vgrid B H W flo)))) /\
  (forall (sample : tensor3 Q) (im : image Q) (i j : nat) (g : Q * Q) (delta M : Q),
     In sample x -> In im sample ->
     (i < H)%nat -> (j < W)%nat ->
     0 <= delta -> delta <= 1 # 20000 ->
     (forall y x', Qabs (pix 0 im y x') <= M) ->
     Qabs (Torch.unnormalize W (fst g) - Qnat j) <= delta ->
     Qabs (Torch.unnormalize H (snd g) - Qnat i) <= delta ->
     mask_thresholds (Torch.grid_sample_at (ifull H W 1) g) = 1 /\
     Qabs (Torch.grid_sample_at im g
           * mask_thresholds (Torch.grid_sample_at (ifull H W 1) g)
           - pix 0 im i j) <= 4 * delta * M).
Proof.
  intros Hwf4 Hshape.
  destruct (warp_zero_flow_exact Hwf4 Hshape) as [Hsample Hwarp].
  split; [apply warp_vgrid_zero |].
  split; [exact Hsample |].
  split; [now apply warp_mask_zero_flow |].
  split; [exact Hwarp |].
  split; [exact (warp_zero_flow_fin Hwf4 Hshape) |].
  split; [intros flo; exact (warp_mask_entrywise flo Hshape) |].
  intros sample im i j g delta M Hs Him Hi Hj H0 H1 HM Hx Hy.
  destruct Hwf4 as [_ Hwf]. rewrite Forall_forall in Hwf.
  destruct (Hwf sample Hs) as [_ Himgs]. rewrite Forall_forall in Himgs.
  pose proof (Himgs im Him) as Hwfim.
  pose proof (mask_near g Hi Hj H0 H1 Hx Hy) as Hm.
  split; [exact Hm |].
  rewrite Hm.
  setoid_replace (Torch.grid_sample_at im g * 1 - pix 0 im i j)
    with (Torch.grid_sample_at im g - pix 0 im i j) by ring.
  apply (grid_sample_at_near g Hwfim Hi Hj H0); [lra | exact HM | exact Hx | exact Hy].
Qed.

(** C9 at a 4x4 image with one channel: the warp returns the image, and a
    grid point within 1/30000 of the center of pixel (1, 1) samples the entry
    5 up to 4/30000 * 15. *)
Lemma warp_zero_flow_is_identity_on_finite_entries_witness :
  teq (PWCNet.warp image_4x4 (tfull 1 2 4 4 0)) image_4x4 /\
  teq_fin (PWCNetNonFinite.warp (tmap Fin image_4x4) (tfull 1 2 4 4 0)) image_4x4 /\
  Qabs (Torch.grid_sample_at (nth 0 (nth 0 image_4x4 []) []) (- (29999 # 90000), - (1 # 3))
        * mask_thresholds (Torch.grid_sample_at (ifull 4 4 1) (- (29999 # 90000), - (1 # 3)))
        - 5) <= 4 * (1 # 30000) * 15.
Proof.
  assert (Hwf : tensor4_wf 1 1 4 4 image_4x4)
    by (unfold tensor4_wf, tensor3_wf, image_wf; simpl; repeat constructor).
  pose proof (@warp_zero_flow_is_identity_on_finite_entries 1 1 4 4 image_4x4 Hwf eq_refl)
    as (_ & _ & _ & Hw & Hf & _ & Hnear).
  split; [exact Hw |]. split; [exact Hf |].
  refine (proj2 (Hnear (nth 0 image_4x4 []) (nth 0 (nth 0 image_4x4 []) []) 1%nat 1%nat
                       (- (29999 # 90000), - (1 # 3)) (1 # 30000) 15
                       _ _ _ _ _ _ _ _ _)).
  - simpl. now left.
  - simpl. now left.
  - lia.
  - lia.
  - discriminate.
  - discriminate.
  - intros y x'. simpl.
    do 4 (destruct y as [| y]; [do 4 (destruct x' as [| x']; [discriminate |]);
                                 destruct x'; discriminate |]).
    destruct y; destruct x'; discriminate.
  - vm_compute. discriminate.
  - vm_compute. discriminate.
Defined.

(* --------------------------------------------------------------------- *)
(** ** The point-wise losses *)
(* --------------------------------------------------------------------- *)


Section LossLemmas.

Lemma Qsum_app (l m : list Q) : Qsum (l ++ m) == Qsum l + Qsum m.
Proof.
  induction l as [| x l IH]; simpl; [ring | rewrite IH; ring].
Qed.

Lemma fold_xadd_fin (l : list xq) (acc : Q) :
  Forall is_fin l ->
  exists q, fold_left xadd l (Fin acc) = Fin q /\ q == acc + Qsum (map to_Q l).
Proof.
  intros H. revert acc. induction H as [| x l Hx _ IH]; intros acc; simpl.
  - exists acc. split; [reflexivity | ring].
  - destruct x as [a | | |]; try contradiction. simpl.
    destruct (IH (acc + a)) as (q & Hq & Hsum).
    exists q. split; [exact Hq | rewrite Hsum; ring].
Qed.

Lemma xsum_fin (l : list xq) :
  Forall is_fin l -> exists q, xsum l = Fin q /\ q == Qsum (map to_Q l).
Proof.
  intros H. destruct (fold_xadd_fin 0 H) as (q & Hq & Hsum).
  exists q. split; [exact Hq | rewrite Hsum; ring].
Qed.

Lemma row_code_spec (es : list xq) (ms : list bool) :
  Forall is_fin (row_code es ms) /\
  Qsum (map to_Q (row_code es ms)) == Qsum (map to_Q (row_spec es ms)).
Proof.
  unfold row_code, row_spec, row_valid.
  revert ms. induction es as [| e es IH]; intros ms; simpl.
  - split; [constructor | reflexivity].
  - destruct ms as [| m ms]; simpl; [split; [constructor | reflexivity] |].
    destruct (IH ms) as [Hfin Hsum].
    destruct e as [a | | |]; destruct m; simpl; try (split; assumption).
    split; [constructor; [exact I | exact Hfin] |].
    rewrite Hsum. ring.
Qed.

Lemma concat_zip_fin_sum (X Y : Type) (F G : X -> Y -> list xq) :
  (forall x y, Forall is_fin (F x y) /\
               Qsum (map to_Q (F x y)) == Qsum (map to_Q (G x y))) ->
  forall l m,
    Forall is_fin (concat (zip_with F l m)) /\
    Qsum (map to_Q (concat (zip_with F l m))) == Qsum (map to_Q (concat (zip_with G l m))).
Proof.
  intros H l. induction l as [| x l IH]; intros m; simpl.
  - split; [constructor | reflexivity].
  - destruct m as [| y m]; simpl; [split; [constructor | reflexivity] |].
    destruct (H x y) as [Hf Hs]. destruct (IH m) as [Hf' Hs'].
    split; [apply Forall_app; split; assumption |].
    rewrite !map_app, !Qsum_app, Hs, Hs'. reflexivity.
Qed.

Lemma zip_rows_code (e : image xq) (m : image bool) :
  zip_with (@pick xq)
           (izip xmul e (imap of_bool (izip andb (imap finite e) m)))
           (izip andb (imap finite e) m)
  = zip_with row_code e m.
Proof.
  unfold izip, imap. revert m. induction e as [| r e IH]; intros m; simpl; [reflexivity |].
  destruct m as [| mr m]; simpl; [reflexivity |]. now rewrite IH.
Qed.

Lemma zip_rows_spec (e : image xq) (m : image bool) :
  zip_with (@pick xq) e (izip andb (imap finite e) m) = zip_with row_spec e m.
Proof.
  unfold izip, imap. revert m. induction e as [| r e IH]; intros m; simpl; [reflexivity |].
  destruct m as [| mr m]; simpl; [reflexivity |]. now rewrite IH.
Qed.

Lemma pick3_code (e : tensor3 xq) (m : tensor3 bool) :
  pick3 (tzip3 xmul e (tmap3 of_bool (valid_pixels e m))) (valid_pixels e m)
  = concat (zip_with (fun ei mi => concat (zip_with row_code ei mi)) e m).
Proof.
  unfold pick3, valid_pixels, tzip3, tmap3. f_equal.
  revert m. induction e as [| ei e IH]; intros m; simpl; [reflexivity |].
  destruct m as [| mi m]; simpl; [reflexivity |].
  now rewrite IH, zip_rows_code.
Qed.

Lemma pick3_spec (e : tensor3 xq) (m : tensor3 bool) :
  pick3 e (valid_pixels e m)
  = concat (zip_with (fun ei mi => concat (zip_with row_spec ei mi)) e m).
Proof.
  unfold pick3, valid_pixels, tzip3, tmap3. f_equal.
  revert m. induction e as [| ei e IH]; intros m; simpl; [reflexivity |].
  destruct m as [| mi m]; simpl; [reflexivity |].
  now rewrite IH, zip_rows_spec.
Qed.

(** What the loop picks from a sample is finite and sums to the error over
    the valid pixels. *)
Lemma picked_code_spec (e : tensor3 xq) (m : tensor3 bool) :
  Forall is_fin (pick3 (tzip3 xmul e (tmap3 of_bool (valid_pixels e m))) (valid_pixels e m)) /\
  Qsum (map to_Q (pick3 (tzip3 xmul e (tmap3 of_bool (valid_pixels e m)))
                        (valid_pixels e m)))
  == valid_error_sum e m.
Proof.
  unfold valid_error_sum. rewrite pick3_code, pick3_spec.
  apply concat_zip_fin_sum. intros ei mi.
  apply concat_zip_fin_sum. apply row_code_spec.
Qed.

Lemma Qnat_nonneg (n : nat) : 0 <= Qnat n.
Proof. unfold Qnat. change 0 with (inject_Z 0). rewrite <- Zle_Qle. lia. Qed.

Lemma Qnat_pos (n : nat) : (0 < n)%nat -> 0 < Qnat n.
Proof. intros H. change 0 with (Qnat 0). now apply Qnat_lt. Qed.

Lemma xdiv_fin_pos (a d : Q) : 0 < d -> xdiv (Fin a) (Fin d) = Fin (a / d).
Proof.
  intros Hd. unfold xdiv.
  apply Qgt_alt in Hd. now rewrite Hd.
Qed.

(** The denominator of the normalisation constant is the number of valid
    pixels plus 1e-6, a positive number. *)
Lemma norm_denominator_positive (mask_bb : tensor3 bool) :
  xadd (Fin (Qnat (count3 mask_bb))) (Fin (1 # 1000000))
    = Fin (Qnat (count3 mask_bb) + (1 # 1000000)) /\
  0 < Qnat (count3 mask_bb) + (1 # 1000000).
Proof.
  split; [reflexivity |].
  pose proof (Qnat_nonneg (count3 mask_bb)). lra.
Qed.

(** The term that one sample adds to [L]. *)
Lemma sample_term_spec (h w : nat) (e : tensor3 xq) (m : tensor3 bool) :
  exists q,
    sample_term h w (tzip3 xmul e (tmap3 of_bool (valid_pixels e m))) (valid_pixels e m) = Fin q
    /\ q == sample_normalized h w e m.
Proof.
  unfold sample_term, sample_normalized, num_valid_pixels.
  destruct (picked_code_spec e m) as [Hfin Hsum].
  destruct (xsum_fin Hfin) as (s0 & Hs0 & Hs0eq).
  destruct (norm_denominator_positive (valid_pixels e m)) as [Hden Hpos].
  cbv zeta. rewrite Hs0, Hden, (xdiv_fin_pos _ Hpos). simpl.
  eexists. split; [reflexivity |].
  rewrite Hs0eq, Hsum. reflexivity.
Qed.

Lemma nth_zip_with_nil (X Y Z : Type) (f : list X -> list Y -> list Z)
      (l : list (list X)) (m : list (list Y)) (i : nat) :
  (forall y, f [] y = []) -> (forall x, f x [] = []) ->
  nth i (zip_with f l m) [] = f (nth i l []) (nth i m []).
Proof.
  intros Hl Hr. revert m i. induction l as [| x l IH]; intros m i; simpl.
  - destruct i; now rewrite Hl.
  - destruct m as [| y m]; simpl.
    + destruct i; simpl; now rewrite Hr.
    + destruct i; simpl; [reflexivity | apply IH].
Qed.

Lemma zip_with_nil_r (X Y Z : Type) (f : X -> Y -> Z) (l : list X) : zip_with f l [] = [].
Proof. destruct l; reflexivity. Qed.

(** Sample [bb] of the rebound mask and of the masked error map. *)
Lemma nth_rebound (E : tensor4 xq) (mask : tensor4 bool) (bb : nat) :
  nth bb (tzip andb (tmap finite E) mask) [] = valid_pixels (nth bb E []) (nth bb mask []).
Proof.
  unfold tzip, tmap, valid_pixels, tensor4, tensor3 in *.
  rewrite nth_zip_with_nil.
  - now rewrite nth_map_nil.
  - reflexivity.
  - intros x. apply zip_with_nil_r.
Qed.

Lemma nth_masked_map (E : tensor4 xq) (M : tensor4 bool) (bb : nat) :
  nth bb (tzip xmul E (tmap of_bool M)) [] = tzip3 xmul (nth bb E []) (tmap3 of_bool (nth bb M [])).
Proof.
  unfold tzip, tmap, tensor4, tensor3 in *.
  rewrite nth_zip_with_nil.
  - now rewrite nth_map_nil.
  - reflexivity.
  - intros x. apply zip_with_nil_r.
Qed.

Lemma fold_terms_fin (term : nat -> xq) (spec : nat -> Q) (l : list nat) (acc : Q) :
  (forall bb, exists q, term bb = Fin q /\ q == spec bb) ->
  exists q, fold_left (fun L bb => xadd L (term bb)) l (Fin acc) = Fin q
            /\ q == acc + Qsum (map spec l).
Proof.
  intros H. revert acc. induction l as [| bb l IH]; intros acc; simpl.
  - exists acc. split; [reflexivity | ring].
  - destruct (H bb) as (t & Ht & Hteq). rewrite Ht. simpl.
    destruct (IH (acc + t)) as (q & Hq & Hqeq).
    exists q. split; [exact Hq |]. rewrite Hqeq, Hteq. ring.
Qed.

(** The loop over the batch computes the sum of the normalised samples. *)
Lemma batch_loop_spec (b h w : nat) (E : tensor4 xq) (mask : tensor4 bool) :
  exists q,
    batch_loop b h w (tzip xmul E (tmap of_bool (tzip andb (tmap finite E) mask)))
               (tzip andb (tmap finite E) mask) = Fin q
    /\ q == Qsum (map (fun bb => sample_normalized h w (nth bb E []) (nth bb mask []))
                      (seq 0 b)).
Proof.
  unfold batch_loop.
  destruct (fold_terms_fin
              (fun bb => sample_term h w
                 (nth bb (tzip xmul E (tmap of_bool (tzip andb (tmap finite E) mask))) [])
                 (nth bb (tzip andb (tmap finite E) mask) []))
              (fun bb => sample_normalized h w (nth bb E []) (nth bb mask []))
              (seq 0 b) 0) as (q & Hq & Hqeq).
  - intros bb. rewrite nth_masked_map, nth_rebound. apply sample_term_spec.
  - exists q. split; [exact Hq | rewrite Hqeq; ring].
Qed.

(** The branch taken by the three losses, with [sum_normalized = True]. *)
Lemma normalized_branch_spec (self : loss_object) (b h w : nat)
      (E : tensor4 xq) (mask : tensor4 bool) :
  sum_normalized self = true -> (0 < b)%nat ->
  exists q,
    normalized_branch self b h w E (tzip andb (tmap finite E) mask) = Scalar (Fin q)
    /\ q == per_sample_normalized_loss b h w E mask.
Proof.
  intros Hsn Hb. unfold normalized_branch, per_sample_normalized_loss.
  rewrite Hsn. destruct (Nat.eqb_spec b 0) as [-> | _]; [lia |].
  destruct (batch_loop_spec b h w E mask) as (L & HL & HLeq).
  cbv zeta. rewrite HL, (xdiv_fin_pos _ (Qnat_pos Hb)).
  eexists. split; [reflexivity |].
  rewrite HLeq. field.
  pose proof (Qnat_pos Hb). lra.
Qed.

(** **** A sample whose error is the same finite value at every pixel *)

Lemma row_valid_const (eps : Q) (ms : list bool) :
  row_valid (repeat (Fin eps) (length ms)) ms = ms.
Proof.
  unfold row_valid. induction ms as [| m ms IH]; simpl; [reflexivity |].
  now rewrite IH.
Qed.

Lemma pick_const (eps : Q) (ms : list bool) :
  Qsum (map to_Q (pick (repeat (Fin eps) (length ms)) ms)) == eps * Qnat (count_row ms).
Proof.
  unfold count_row. induction ms as [| m ms IH]; simpl.
  - unfold Qnat. simpl. ring.
  - destruct m; simpl; [| exact IH].
    rewrite IH. unfold Qnat. rewrite Nat2Z.inj_succ, <- Z.add_1_r, inject_Z_plus. ring.
Qed.

Lemma Qnat_add (a b : nat) : Qnat (a + b) == Qnat a + Qnat b.
Proof. unfold Qnat. now rewrite Nat2Z.inj_add, inject_Z_plus. Qed.

Lemma valid_pixels_const (eps : Q) (H W : nat) (mi : image bool) :
  image_wf H W mi ->
  valid_pixels [ifull H W (Fin eps)] [mi] = [mi] /\
  valid_error_sum [ifull H W (Fin eps)] [mi] == eps * Qnat (count3 [mi]).
Proof.
  intros [Hlen Hrows]. unfold valid_error_sum. rewrite pick3_spec.
  unfold valid_pixels, tzip3, tmap3, izip, imap, ifull, count3. simpl.
  rewrite app_nil_r, Nat.add_0_r. subst H.
  induction Hrows as [| row mi Hrow _ IH]; simpl.
  - split; [reflexivity |]. unfold Qnat. simpl. ring.
  - destruct IH as [IHv IHs]. simpl in Hrow. subst W.
    injection IHv as IHv.
    split.
    + f_equal. f_equal; [apply row_valid_const | exact IHv].
    + rewrite map_app, Qsum_app, IHs. unfold row_spec.
      rewrite row_valid_const, pick_const, Qnat_add. ring.
Qed.

(** With the same error [eps] at every pixel, a sample with [n] valid pixels
    contributes [eps * H*W * n / (n + 1e-6)]. *)
Lemma sample_normalized_const (eps : Q) (H W : nat) (mi : image bool) :
  image_wf H W mi ->
  sample_normalized H W [ifull H W (Fin eps)] [mi]
  == eps * Qnat (H * W) * (Qnat (count3 [mi]) / (Qnat (count3 [mi]) + (1 # 1000000))).
Proof.
  intros Hwf. destruct (valid_pixels_const eps Hwf) as [Hv Hs].
  unfold sample_normalized, num_valid_pixels. rewrite Hs, Hv.
  pose proof (Qnat_nonneg (count3 [mi])).
  field. lra.
Qed.

Lemma normalized_ratio_bounds (n : nat) :
  (1 <= n)%nat ->
  1 - (1 # 1000000) <= Qnat n / (Qnat n + (1 # 1000000)) /\
  Qnat n / (Qnat n + (1 # 1000000)) <= 1.
Proof.
  intros Hn.
  assert (H1 : 1 <= Qnat n).
  { change 1 with (Qnat 1). unfold Qnat. rewrite <- Zle_Qle. lia. }
  split.
  - apply Qle_shift_div_l; lra.
  - apply Qle_shift_div_r; lra.
Qed.

(** **** Samples without valid pixels *)

Lemma list_sum_zero (l : list nat) : list_sum l = 0%nat -> Forall (fun n => n = 0%nat) l.
Proof.
  induction l as [| n l IH]; simpl; intros H; constructor; [lia | apply IH; lia].
Qed.

Lemma pick_none (A : Type) (vs : list A) (ms : list bool) :
  count_row ms = 0%nat -> pick vs ms = [].
Proof.
  unfold count_row. revert vs. induction ms as [| m ms IH]; intros vs Hc.
  - destruct vs; reflexivity.
  - destruct m; simpl in Hc; [discriminate |].
    destruct vs as [| v vs]; simpl; [reflexivity | now apply IH].
Qed.

Lemma pick3_none (A : Type) (vs : tensor3 A) (ms : tensor3 bool) :
  count3 ms = 0%nat -> pick3 vs ms = [].
Proof.
  unfold count3, pick3. intros Hc. apply list_sum_zero in Hc.
  rewrite Forall_map in Hc.
  revert vs. induction Hc as [| mi ms Hmi _ IH]; intros vs.
  - destruct vs; reflexivity.
  - destruct vs as [| vi vs]; simpl; [reflexivity |].
    rewrite IH, app_nil_r.
    apply list_sum_zero in Hmi. rewrite Forall_map in Hmi.
    clear IH. revert vi. induction Hmi as [| mr mi Hmr _ IH]; intros vi.
    + destruct vi; reflexivity.
    + destruct vi as [| vr vi]; simpl; [reflexivity |].
      now rewrite IH, (pick_none vr mr Hmr).
Qed.

Lemma count_row_and (fs ms : list bool) :
  (count_row (zip_with andb fs ms) <= count_row ms)%nat.
Proof.
  unfold count_row. revert ms. induction fs as [| f fs IH]; intros ms; simpl; [lia |].
  destruct ms as [| m ms]; simpl; [lia |].
  specialize (IH ms). destruct f, m; simpl; lia.
Qed.

(** The rebound mask never has more valid pixels than the mask passed in. *)
Lemma count3_valid_pixels (e : tensor3 xq) (m : tensor3 bool) :
  (count3 (valid_pixels e m) <= count3 m)%nat.
Proof.
  unfold count3, valid_pixels, tzip3, tmap3, izip, imap.
  revert m. induction e as [| ei e IH]; intros m; simpl; [lia |].
  destruct m as [| mi m]; simpl; [lia |].
  specialize (IH m).
  assert (list_sum (map count_row (zip_with (zip_with andb) (map (map finite) ei) mi))
          <= list_sum (map count_row mi))%nat.
  { clear. revert mi. induction ei as [| r ei IH]; intros mi; simpl; [lia |].
    destruct mi as [| mr mi]; simpl; [lia |].
    specialize (IH mi). pose proof (count_row_and (map finite r) mr). lia. }
  lia.
Qed.

End LossLemmas.

(** C4. With [sum_normalized = True] and a batch of [b >= 1] samples,
    [EPE], [L1] and [L1Charbonnier] return (1/b) times the sum over the
    samples of the error summed over the valid pixels of the sample times
    (H*W) / (num_valid_pixels + 1e-6).  When the error is the same value [eps]
    at every pixel, a sample with [n] valid pixels contributes
    [eps * H*W * n / (n + 1e-6)], so two samples whose masks each hold at
    least one pixel (all of the pixels and 1 percent of them, for instance)
    contribute equal amounts up to the 1e-6 of the formula: the amounts differ
    by at most [eps * H*W * 1e-6]. *)
Theorem per_sample_normalization
  (xsqrt : xq -> xq) (xpow : xq -> Q -> xq)
  (self : loss_object) (gt est : tensor4 xq) (mask : tensor4 bool) (b c h w : nat)
  (eps : Q) (H W : nat) (mA mB : image bool) :
  sum_normalized self = true ->
  shape4 gt = (b, c, h, w) ->
  (0 < b)%nat ->
  image_wf H W mA -> image_wf H W mB ->
  0 <= eps ->
  (1 <= count3 [mA])%nat -> (1 <= count3 [mB])%nat ->
  (exists q, EPE_call xsqrt self gt est (Some mask) = Scalar (Fin q) /\
             q == per_sample_normalized_loss b h w (EPE_map xsqrt h w gt est) mask) /\
  (exists q, L1_call self gt est (Some mask) = Scalar (Fin q) /\
             q == per_sample_normalized_loss b h w (L1_map h w gt est) mask) /\
  (exists q, L1Charbonnier_call xpow self gt est (Some mask) = Scalar (Fin q) /\
             q == per_sample_normalized_loss b h w (Charbonnier_map xpow h w gt est) mask) /\
  sample_normalized H W [ifull H W (Fin eps)] [mA]
    == eps * Qnat (H * W) * (Qnat (count3 [mA]) / (Qnat (count3 [mA]) + (1 # 1000000))) /\
  sample_normalized H W [ifull H W (Fin eps)] [mB]
    == eps * Qnat (H * W) * (Qnat (count3 [mB]) / (Qnat (count3 [mB]) + (1 # 1000000))) /\
  Qabs (sample_normalized H W [ifull H W (Fin eps)] [mA]
        - sample_normalized H W [ifull H W (Fin eps)] [mB])
    <= eps * Qnat (H * W) * (1 # 1000000).
Proof.
  intros Hsn Hshape Hb HwfA HwfB Heps HnA HnB.
  split; [| split; [| split]].
  - unfold EPE_call. rewrite Hshape. simpl. now apply normalized_branch_spec.
  - unfold L1_call. rewrite Hshape. simpl. now apply normalized_branch_spec.
  - unfold L1Charbonnier_call. rewrite Hshape. simpl. now apply normalized_branch_spec.
  - pose proof (sample_normalized_const eps HwfA) as HA.
    pose proof (sample_normalized_const eps HwfB) as HB.
    split; [exact HA |]. split; [exact HB |].
    rewrite HA, HB.
    destruct (normalized_ratio_bounds HnA) as [LA UA].
    destruct (normalized_ratio_bounds HnB) as [LB UB].
    pose proof (Qnat_nonneg (H * W)) as HHW.
    set (rA := Qnat (count3 [mA]) / (Qnat (count3 [mA]) + (1 # 1000000))) in *.
    set (rB := Qnat (count3 [mB]) / (Qnat (count3 [mB]) + (1 # 1000000))) in *.
    assert (HA0 : 0 <= eps * Qnat (H * W)) by (apply Qmult_le_0_compat; assumption).
    set (A := eps * Qnat (H * W)) in *.
    apply Qabs_Qle_condition. split; nra.
Qed.

(** C4 at the two-sample batch above, for the L1 loss. *)
Lemma per_sample_normalization_witness :
  exists q,
    L1_call sum_normalized_loss two_sample_gt two_sample_est (Some two_sample_mask)
      = Scalar (Fin q) /\
    q == per_sample_normalized_loss 2 10 10 (L1_map 10 10 two_sample_gt two_sample_est)
                                    two_sample_mask.
Proof.
  refine (proj1 (proj2
    (@per_sample_normalization (fun x => x) (fun x _ => x) sum_normalized_loss
       two_sample_gt two_sample_est two_sample_mask 2 2 10 10
       1 10 10 (ifull 10 10 true) one_pixel_mask _ _ _ _ _ _ _ _))).
  - reflexivity.
  - reflexivity.
  - lia.
  - apply ifull_wf.
  - unfold image_wf, one_pixel_mask. simpl. split; [reflexivity | repeat constructor].
  - discriminate.
  - vm_compute. lia.
  - vm_compute. lia.
Defined.

(** C7. Whatever the mask, the normalisation constant divides by the number
    of valid pixels plus 1e-6, which is positive.  A sample without valid
    pixels (in particular one whose mask is empty) adds exactly 0 to [L]: the
    accumulated loss is the same before and after its round of the loop, in
    the branch shared by [EPE], [L1] and [L1Charbonnier]. *)
Theorem sample_without_valid_pixels_adds_zero
  (b h w : nat) (E : tensor4 xq) (mask : tensor4 bool) (bb : nat) (L : Q) :
  count3 (valid_pixels (nth bb E []) (nth bb mask [])) = 0%nat ->
  batch_loop b h w (tzip xmul E (tmap of_bool (tzip andb (tmap finite E) mask)))
             (tzip andb (tmap finite E) mask)
    = fold_left (fun L bb => xadd L (loop_term h w E mask bb)) (seq 0 b) (Fin 0) /\
  xadd (Fin (Qnat (count3 (valid_pixels (nth bb E []) (nth bb mask []))))) (Fin (1 # 1000000))
    = Fin (Qnat 0 + (1 # 1000000)) /\
  0 < Qnat 0 + (1 # 1000000) /\
  (exists q, loop_term h w E mask bb = Fin q /\ q == 0) /\
  (exists L', xadd (Fin L) (loop_term h w E mask bb) = Fin L' /\ L' == L) /\
  sample_normalized h w (nth bb E []) (nth bb mask []) == 0 /\
  (count3 (nth bb mask []) = 0%nat ->
   count3 (valid_pixels (nth bb E []) (nth bb mask [])) = 0%nat).
Proof.
  intros Hzero.
  assert (Hterm : exists q, loop_term h w E mask bb = Fin q /\ q == 0).
  { unfold loop_term. cbv zeta. rewrite nth_masked_map, nth_rebound.
    unfold sample_term. rewrite (pick3_none _ _ Hzero), Hzero.
    cbv zeta. unfold xsum. simpl fold_left.
    simpl xadd. rewrite xdiv_fin_pos by reflexivity.
    eexists. split; [reflexivity | ring]. }
  split; [reflexivity |].
  split; [now rewrite Hzero |].
  split; [reflexivity |].
  split; [exact Hterm |].
  split.
  - destruct Hterm as (q & Hq & Hq0). rewrite Hq. simpl.
    eexists. split; [reflexivity | rewrite Hq0; ring].
  - split.
    + unfold sample_normalized, valid_error_sum.
      rewrite (pick3_none _ _ Hzero). simpl. ring.
    + intros Hm. pose proof (count3_valid_pixels (nth bb E []) (nth bb mask [])). lia.
Qed.

(** C7 at the second sample of a batch whose second mask is empty. *)
Lemma sample_without_valid_pixels_adds_zero_witness :
  exists q,
    loop_term 10 10 (L1_map 10 10 two_sample_gt two_sample_est)
              [[ifull 10 10 true]; [ifull 10 10 false]] 1 = Fin q /\ q == 0.
Proof.
  refine (proj1 (proj2 (proj2 (proj2
    (@sample_without_valid_pixels_adds_zero 2 10 10
       (L1_map 10 10 two_sample_gt two_sample_est)
       [[ifull 10 10 true]; [ifull 10 10 false]] 1 0 _))))).
  vm_compute. reflexivity.
Defined.

Lemma normalized_branch_scalar (self : loss_object) (b h w : nat)
      (E : tensor4 xq) (mask : tensor4 bool) :
  (0 < b)%nat -> is_scalar (normalized_branch self b h w E mask).
Proof.
  intros Hb. unfold normalized_branch.
  destruct (sum_normalized self); [| exact I].
  destruct (Nat.eqb_spec b 0); [lia | exact I].
Qed.

Lemma normalized_branch_ignores_valid_transformation
      (self : loss_object) (v : option (list bool)) (b h w : nat)
      (E : tensor4 xq) (mask : tensor4 bool) :
  normalized_branch (set_valid_transformation_bool self v) b h w E mask
  = normalized_branch self b h w E mask.
Proof. reflexivity. Qed.

Lemma tmap_ext (A B : Type) (f g : A -> B) (t : tensor4 A) :
  (forall a, f a = g a) -> tmap f t = tmap g t.
Proof.
  intros H. unfold tmap, tmap3, imap.
  apply map_ext. intros sample. apply map_ext. intros im.
  apply map_ext. intros row. apply map_ext. exact H.
Qed.

Lemma normalized_branch_outcome (self : loss_object) (b h w : nat)
      (E : tensor4 xq) (mask : tensor4 bool) :
  match normalized_branch self b h w E mask with
  | Scalar _ => (0 < b)%nat \/ sum_normalized self = false
  | ZeroDivisionError => b = 0%nat /\ sum_normalized self = true
  | ErrorMap _ => False
  end.
Proof.
  unfold normalized_branch. cbv zeta.
  destruct (sum_normalized self); [| now right].
  destruct (Nat.eqb_spec b 0) as [-> | Hb]; [now split | left; lia].
Qed.

(** C10 (as stated, refuted). For an empty batch and [sum_normalized = True],
    the call with [mask=None] runs the normalised branch and raises
    [ZeroDivisionError] in [L / b]: it returns no scalar. *)
Lemma mask_none_empty_batch_returns_no_scalar :
  shape4 (@nil (tensor3 xq)) = (0, 0, 0, 0)%nat /\
  sum_normalized sum_normalized_loss = true /\
  L1_call sum_normalized_loss [] [] None = ZeroDivisionError /\
  ~ is_scalar (L1_call sum_normalized_loss [] [] None).
Proof.
  repeat split. intros H. exact H.
Qed.

(** C10 (amended). Called with [mask=None], each of [EPE], [L1] and
    [L1Charbonnier] builds the mask that is true exactly where the error is
    neither NaN nor infinite, and runs the per-sample-normalised branch on
    it: the test that guards the code after the branch never fails, the
    result is that of this branch, it is the same whatever
    [valid_transformation_bool] holds, and it is never a per-pixel map.  It
    is a scalar unless the batch is empty and [sum_normalized] is set, in
    which case [L / b] raises [ZeroDivisionError]. *)
Theorem mask_none_runs_normalized_branch
  (xsqrt : xq -> xq) (xpow : xq -> Q -> xq)
  (self : loss_object) (gt est : tensor4 xq) (b c h w : nat) :
  shape4 gt = (b, c, h, w) ->
  (forall E mask, rebind_mask E mask <> None) /\
  (forall E, rebind_mask E None
             = Some (tmap (fun v => match v with Fin _ => true | _ => false end) E)) /\
  (EPE_call xsqrt self gt est None
     = normalized_branch self b h w (EPE_map xsqrt h w gt est)
         (tmap (fun v => match v with Fin _ => true | _ => false end)
               (EPE_map xsqrt h w gt est)) /\
   match EPE_call xsqrt self gt est None with
   | Scalar _ => (0 < b)%nat \/ sum_normalized self = false
   | ZeroDivisionError => b = 0%nat /\ sum_normalized self = true
   | ErrorMap _ => False
   end /\
   (forall v, EPE_call xsqrt (set_valid_transformation_bool self v) gt est None
              = EPE_call xsqrt self gt est None)) /\
  (L1_call self gt est None
     = normalized_branch self b h w (L1_map h w gt est)
         (tmap (fun v => match v with Fin _ => true | _ => false end) (L1_map h w gt est)) /\
   match L1_call self gt est None with
   | Scalar _ => (0 < b)%nat \/ sum_normalized self = false
   | ZeroDivisionError => b = 0%nat /\ sum_normalized self = true
   | ErrorMap _ => False
   end /\
   (forall v, L1_call (set_valid_transformation_bool self v) gt est None
              = L1_call self gt est None)) /\
  (L1Charbonnier_call xpow self gt est None
     = normalized_branch self b h w (Charbonnier_map xpow h w gt est)
         (tmap (fun v => match v with Fin _ => true | _ => false end)
               (Charbonnier_map xpow h w gt est)) /\
   match L1Charbonnier_call xpow self gt est None with
   | Scalar _ => (0 < b)%nat \/ sum_normalized self = false
   | ZeroDivisionError => b = 0%nat /\ sum_normalized self = true
   | ErrorMap _ => False
   end /\
   (forall v, L1Charbonnier_call xpow (set_valid_transformation_bool self v) gt est None
              = L1Charbonnier_call xpow self gt est None)).
Proof.
  intros Hshape.
  assert (Hfinite : forall E : tensor4 xq,
             tmap finite E
             = tmap (fun v => match v with Fin _ => true | _ => false end) E).
  { intros E. apply tmap_ext. intros v. now destruct v. }
  split; [intros E [m |]; discriminate |].
  split; [intros E; simpl; now rewrite Hfinite |].
  unfold EPE_call, L1_call, L1Charbonnier_call. rewrite Hshape. simpl rebind_mask.
  cbv beta iota zeta. rewrite <- !Hfinite.
  repeat split; try reflexivity; apply normalized_branch_outcome.
Qed.

(** The amended C10 at the two-sample batch, for the L1 loss: a scalar. *)
Lemma mask_none_runs_normalized_branch_witness :
  match L1_call sum_normalized_loss two_sample_gt two_sample_est None with
  | Scalar _ => (0 < 2)%nat \/ sum_normalized sum_normalized_loss = false
  | ZeroDivisionError => 2%nat = 0%nat /\ sum_normalized sum_normalized_loss = true
  | ErrorMap _ => False
  end.
Proof.
  refine (proj1 (proj2 (proj1 (proj2 (proj2 (proj2
    (@mask_none_runs_normalized_branch (fun x => x) (fun x _ => x) sum_normalized_loss
       two_sample_gt two_sample_est 2 2 10 10 _))))))).
  reflexivity.
Defined.

(* --------------------------------------------------------------------- *)
(** ** The W-bipath loss *)
(* --------------------------------------------------------------------- *)

Section WBipath.
Variable warp : tensor4 Q -> tensor4 Q -> tensor4 Q.
Variable Stats : Type.
Variable objective : list (tensor4 Q) -> tensor4 Q -> list (tensor3 bool) -> xq * Stats.

Lemma map_at_app_last (A : Type) (f : A -> A) (l : list A) (x : A) :
  map_at (length l) f (l ++ [x]) = l ++ [f x].
Proof. induction l as [| y l IH]; simpl; [reflexivity | now rewrite IH]. Qed.

Lemma imul_channel_last (s : store) (x : tensor4 Q) (c : nat) (k : Q) :
  imul_channel (length s) c k (s ++ [x]) = (tt, s ++ [scale_channel c k x]).
Proof. unfold imul_channel. now rewrite map_at_app_last. Qed.

Lemma times_run (r : ref) (k : Q) (s : store) :
  times r k s = (length s, s ++ [tmap (fun v => v * k) (nth r s [])]).
Proof. reflexivity. Qed.

Lemma plus_run (a b : ref) (s : store) :
  plus a b s = (length s, s ++ [tzip Qplus (nth a s []) (nth b s [])]).
Proof. reflexivity. Qed.

(** One round of the loop, run in a store that holds both estimated flows:
    the store grows by the tensors of the flow pipeline (the warping copy, the
    warped flow and the composed flow; the masks are passed as values) and no
    tensor that was in the store is written. *)
Lemma level_run (self : WBipathLoss) (h w : nat) (flow_map : tensor4 Q)
      (mask_used : option (tensor3 bool)) (a c : ref) (s : store) :
  (a < length s)%nat -> (c < length s)%nat ->
  level warp self h w flow_map mask_used a c s
  = ({| estimated_flow := (length s + 2)%nat;
        mask := if compute_cyclic_consistency self
                then tzip3 andb (fst (level_masks warp self h w flow_map mask_used
                                                  (nth a s []) (nth c s [])))
                                (snd (level_masks warp self h w flow_map mask_used
                                                  (nth a s []) (nth c s [])))
                else fst (level_masks warp self h w flow_map mask_used (nth a s []) (nth c s []));
        mask_cyclic := if compute_cyclic_consistency self
                       then Some (snd (level_masks warp self h w flow_map mask_used
                                                   (nth a s []) (nth c s [])))
                       else None |},
     s ++ [warping_copy h w (nth a s []);
           warp (nth c s []) (warping_copy h w (nth a s []));
           tzip Qplus (nth a s [])
                (warp (nth c s []) (warping_copy h w (nth a s [])))]).
Proof.
  intros Ha Hc. unfold level, level_masks, warping_copy, bind at 1, read at 1.
  destruct (shape4 (nth a s [])) as [[[b c'] h_] w_] eqn:Hshape.
  set (R := scale_channel 1 (Qnat h_ / Qnat h)
              (scale_channel 0 (Qnat w_ / Qnat w) (tmap (fun v => v * 1) (nth a s [])))).
  assert (Hwarping :
    (if detach_flow_for_warping self
     then bind (detach a) (fun d => times d 1)
     else times a 1) s
    = (length s, s ++ [tmap (fun v => v * 1) (nth a s [])]))
    by (destruct (detach_flow_for_warping self); reflexivity).
  unfold bind at 1. rewrite Hwarping.
  unfold bind at 1. rewrite imul_channel_last.
  unfold bind at 1. rewrite imul_channel_last. fold R.
  unfold bind at 1, read at 1. unfold bind at 1, read at 1.
  rewrite (app_nth1 s [R] [] Hc).
  replace (nth (length s) (s ++ [R]) []) with R by (symmetry; apply nth_middle).
  unfold bind at 1, new at 1.
  unfold bind at 1. rewrite plus_run.
  assert (Ha1 : (a < length (s ++ [R]))%nat) by (rewrite length_app; simpl; lia).
  rewrite (app_nth1 (s ++ [R]) [warp (nth c s []) R] [] Ha1).
  rewrite (app_nth1 s [R] [] Ha).
  replace (nth (length (s ++ [R])) ((s ++ [R]) ++ [warp (nth c s []) R]) [])
    with (warp (nth c s []) R) by (symmetry; apply nth_middle).
  assert (Hlen : length ((s ++ [R]) ++ [warp (nth c s []) R]) = (length s + 2)%nat)
    by (rewrite !length_app; simpl; lia).
  rewrite Hlen.
  set (WF := warp (nth c s []) R).
  set (EF := tzip Qplus (nth a s []) WF).
  assert (Hstore : ((s ++ [R]) ++ [WF]) ++ [EF] = s ++ [R; WF; EF])
    by (rewrite <- !app_assoc; reflexivity).
  destruct (compute_cyclic_consistency self).
  - unfold bind, read, ret. rewrite Hstore. simpl fst. simpl snd.
    assert (Ha3 : (a < length s)%nat) by exact Ha.
    rewrite (app_nth1 s [R; WF; EF] [] Ha).
    replace (nth (length (s ++ [R])) (s ++ [R; WF; EF]) []) with WF; [reflexivity |].
    rewrite length_app. simpl length.
    rewrite app_nth2 by lia.
    replace (length s + 1 - length s)%nat with 1%nat by lia. reflexivity.
  - unfold ret. rewrite Hstore. reflexivity.
Qed.

(** The loop over the levels only appends to the store, and the flow composed
    at level [k] is computed from the two estimated flows of level [k] as they
    were when the loop started. *)
Lemma levels_run (self : WBipathLoss) (h w : nat) (flow_map : tensor4 Q)
      (mask_used : option (tensor3 bool)) (s0 : store) :
  forall (tp2s s2t : list ref) (ext : store),
    Forall (fun r => r < length s0)%nat tp2s ->
    Forall (fun r => r < length s0)%nat s2t ->
    exists rs more,
      levels warp self h w flow_map mask_used tp2s s2t (s0 ++ ext) = (rs, s0 ++ ext ++ more) /\
      forall k a c,
        nth_error tp2s k = Some a -> nth_error s2t k = Some c ->
        exists r, nth_error rs k = Some r /\
                  nth (estimated_flow r) (s0 ++ ext ++ more) []
                  = composed_flow warp h w (nth a s0 []) (nth c s0 []).
Proof.
  induction tp2s as [| a tp2s IH]; intros s2t ext Htp Hst.
  - exists [], []. simpl. rewrite app_nil_r. split; [reflexivity |].
    intros k a c Hk. destruct k; discriminate.
  - destruct s2t as [| c s2t].
    + exists [], []. simpl. rewrite app_nil_r. split; [reflexivity |].
      intros k a' c' _ Hk. destruct k; discriminate.
    + inversion Htp as [| ? ? Ha Htp']; subst. inversion Hst as [| ? ? Hc Hst']; subst.
      assert (Ha' : (a < length (s0 ++ ext))%nat) by (rewrite length_app; lia).
      assert (Hc' : (c < length (s0 ++ ext))%nat) by (rewrite length_app; lia).
      simpl levels. unfold bind at 1.
      rewrite (@level_run self h w flow_map mask_used a c (s0 ++ ext) Ha' Hc').
      rewrite !(app_nth1 s0 ext [] Ha), !(app_nth1 s0 ext [] Hc).
      set (R := warping_copy h w (nth a s0 [])).
      set (WF := warp (nth c s0 []) R).
      set (EF := tzip Qplus (nth a s0 []) WF).
      destruct (IH s2t (ext ++ [R; WF; EF]) Htp' Hst') as (rs & more & Hrun & Hspec).
      rewrite <- (app_assoc s0 ext [R; WF; EF]).
      unfold bind at 1. rewrite Hrun. unfold ret.
      eexists. exists ([R; WF; EF] ++ more).
      rewrite <- (app_assoc ext [R; WF; EF] more) in *.
      split; [reflexivity |].
      intros k a' c' Hka Hkc. destruct k as [| k].
      * simpl in Hka, Hkc. injection Hka as <-. injection Hkc as <-.
        eexists. split; [reflexivity |]. simpl estimated_flow.
        rewrite (app_assoc s0 ext ([R; WF; EF] ++ more)).
        rewrite app_nth2 by lia.
        replace (length (s0 ++ ext) + 2 - length (s0 ++ ext))%nat with 2%nat by lia.
        reflexivity.
      * simpl in Hka, Hkc. destruct (Hspec k a' c' Hka Hkc) as (r & Hr & Hval).
        exists r. split; [exact Hr | exact Hval].
Qed.

(** Enabling the cyclic-consistency check changes neither the store nor the
    composed flows, and it intersects the mask of each level with the mask of
    the check. *)
Lemma levels_on_off (self : WBipathLoss) (h w : nat) (flow_map : tensor4 Q)
      (mask_used : option (tensor3 bool)) :
  forall (tp2s s2t : list ref) (s : store),
    Forall (fun r => r < length s)%nat tp2s ->
    Forall (fun r => r < length s)%nat s2t ->
    snd (levels warp (set_cyclic self true) h w flow_map mask_used tp2s s2t s)
      = snd (levels warp (set_cyclic self false) h w flow_map mask_used tp2s s2t s) /\
    Forall2 (fun r_on r_off =>
               estimated_flow r_on = estimated_flow r_off /\
               exists mc, mask r_on = tzip3 andb (mask r_off) mc)
            (fst (levels warp (set_cyclic self true) h w flow_map mask_used tp2s s2t s))
            (fst (levels warp (set_cyclic self false) h w flow_map mask_used tp2s s2t s)).
Proof.
  induction tp2s as [| a tp2s IH]; intros s2t s Htp Hst.
  - simpl. split; [reflexivity | constructor].
  - destruct s2t as [| c s2t]; [simpl; split; [reflexivity | constructor] |].
    inversion Htp as [| ? ? Ha Htp']; subst. inversion Hst as [| ? ? Hc Hst']; subst.
    simpl levels. unfold bind, ret.
    rewrite !(@level_run _ h w flow_map mask_used a c s Ha Hc).
    set (s' := s ++ _).
    assert (Hgrow : forall r, (r < length s)%nat -> (r < length s')%nat).
    { intros r Hr. unfold s'. rewrite length_app. lia. }
    destruct (IH s2t s') as [Hstore Hrs].
    { eapply Forall_impl; [| exact Htp']. exact Hgrow. }
    { eapply Forall_impl; [| exact Hst']. exact Hgrow. }
    destruct (levels warp (set_cyclic self true) h w flow_map mask_used tp2s s2t s')
      as [rs_on s_on].
    destruct (levels warp (set_cyclic self false) h w flow_map mask_used tp2s s2t s')
      as [rs_off s_off].
    simpl in *. split; [exact Hstore |].
    constructor; [| exact Hrs].
    split; [reflexivity |]. eexists. reflexivity.
Qed.

Lemma read_all_store (l : list ref) (s : store) : snd (read_all l s) = s.
Proof.
  revert s. induction l as [| r l IH]; intros s; simpl; [reflexivity |].
  unfold bind, read, ret. specialize (IH s).
  destruct (read_all l s) as [ts s']. simpl in *. exact IH.
Qed.

(** What [__call__] puts into [output] and leaves in the store is what the
    loop over the levels produced. *)
Lemma call_output (self : WBipathLoss) (flow_map : tensor4 Q)
      (mask_used : option (tensor3 bool)) (tp st : flows) (s : store) :
  mask_training (snd (fst (call warp objective self flow_map mask_used tp st s)))
    = map (@mask) (fst (levels warp self (snd (fst (shape4 flow_map))) (snd (shape4 flow_map))
                               flow_map mask_used (as_list tp) (as_list st) s)) /\
  estimated_flow_target_prime_to_target_through_composition
      (snd (fst (call warp objective self flow_map mask_used tp st s)))
    = map (@estimated_flow)
          (fst (levels warp self (snd (fst (shape4 flow_map))) (snd (shape4 flow_map))
                       flow_map mask_used (as_list tp) (as_list st) s)) /\
  snd (call warp objective self flow_map mask_used tp st s)
    = snd (levels warp self (snd (fst (shape4 flow_map))) (snd (shape4 flow_map))
                  flow_map mask_used (as_list tp) (as_list st) s).
Proof.
  unfold call. destruct (shape4 flow_map) as [[[b0 c0] h] w]. simpl fst. simpl snd.
  unfold bind, ret.
  destruct (levels warp self h w flow_map mask_used (as_list tp) (as_list st) s) as [rs s1].
  pose proof (read_all_store (map (@estimated_flow) rs) s1) as Hread.
  destruct (read_all (map (@estimated_flow) rs) s1) as [composed s2]. simpl in Hread. subst s2.
  destruct (objective composed flow_map (map (@mask) rs)) as [loss_un stats_un].
  simpl. repeat split.
Qed.

End WBipath.

Lemma nth_zip_andb (l m : list bool) (x : nat) :
  nth x (zip_with andb l m) false = (nth x l false && nth x m false)%bool.
Proof.
  revert m x. induction l as [| a l IH]; intros m x; simpl.
  - now destruct x.
  - destruct m as [| c m]; simpl.
    + destruct x; simpl; now rewrite andb_false_r.
    + destruct x; simpl; [reflexivity | apply IH].
Qed.

(** A mask intersected with another one keeps no pixel that it did not have. *)
Lemma mask_subset_and (m mc : tensor3 bool) : mask_subset (tzip3 andb m mc) m.
Proof.
  intros b y x. unfold mask_at, tzip3, izip, tensor3, image in *.
  rewrite nth_zip_with_nil;
    [| reflexivity | intros l; apply zip_with_nil_r].
  rewrite nth_zip_with_nil;
    [| reflexivity | intros l; apply zip_with_nil_r].
  rewrite nth_zip_andb. intros H. apply andb_true_iff in H. apply H.
Qed.

Lemma teq_times_one (E : tensor4 Q) : teq (tmap (fun v => v * 1) E) E.
Proof.
  unfold teq, teq3, ieq, tmap, tmap3, imap.
  apply Forall2_map_l_same, Forall_forall. intros sample _.
  apply Forall2_map_l_same, Forall_forall. intros im _.
  apply Forall2_map_l_same, Forall_forall. intros row _.
  apply Forall2_map_l_same, Forall_forall. intros v _. ring.
Qed.

(** C5. On the same inputs, the training mask of every level with
    [compute_cyclic_consistency] enabled is a point-wise subset of the mask
    with it disabled. *)
Theorem cyclic_consistency_only_removes_pixels
  (warp : tensor4 Q -> tensor4 Q -> tensor4 Q) (Stats : Type)
  (objective : list (tensor4 Q) -> tensor4 Q -> list (tensor3 bool) -> xq * Stats)
  (self : WBipathLoss) (flow_map : tensor4 Q) (mask_used : option (tensor3 bool))
  (tp st : flows) (s : store) :
  Forall (fun r => r < length s)%nat (as_list tp) ->
  Forall (fun r => r < length s)%nat (as_list st) ->
  Forall2 mask_subset
    (mask_training
       (snd (fst (call warp objective (set_cyclic self true) flow_map mask_used tp st s))))
    (mask_training
       (snd (fst (call warp objective (set_cyclic self false) flow_map mask_used tp st s)))).
Proof.
  intros Htp Hst.
  rewrite (proj1 (call_output warp objective (set_cyclic self true) flow_map mask_used tp st s)).
  rewrite (proj1 (call_output warp objective (set_cyclic self false) flow_map mask_used tp st s)).
  destruct (@levels_on_off warp self (snd (fst (shape4 flow_map))) (snd (shape4 flow_map))
                           flow_map mask_used (as_list tp) (as_list st) s Htp Hst) as [_ Hrs].
  induction Hrs as [| r_on r_off rs_on rs_off [_ [mc Hmask]] _ IH]; simpl; constructor.
  - rewrite Hmask. apply mask_subset_and.
  - exact IH.
Qed.

(** C5 at the level of the example. *)
Lemma cyclic_consistency_only_removes_pixels_witness :
  Forall2 mask_subset
    (mask_training
       (snd (fst (call PWCNet.warp example_objective (set_cyclic example_loss true)
                       example_flow_map None (Many [0%nat]) (Many [1%nat]) example_store))))
    (mask_training
       (snd (fst (call PWCNet.warp example_objective (set_cyclic example_loss false)
                       example_flow_map None (Many [0%nat]) (Many [1%nat]) example_store)))).
Proof.
  apply (@cyclic_consistency_only_removes_pixels PWCNet.warp unit example_objective
           example_loss example_flow_map None (Many [0%nat]) (Many [1%nat]) example_store).
  - repeat constructor.
  - repeat constructor.
Defined.

(* --------------------------------------------------------------------- *)
(** ** Channel-wise rescaling of resized flows *)
(* --------------------------------------------------------------------- *)

Lemma map_at_nil (A : Type) (c : nat) (f : A -> A) : map_at c f [] = [].
Proof. destruct c; reflexivity. Qed.

Lemma nth_map_at_nil (A : Type) (f : list A -> list A) (c i : nat) (l : list (list A)) :
  f [] = [] ->
  nth i (map_at c f l) [] = if Nat.eqb i c then f (nth i l []) else nth i l [].
Proof.
  intros Hf. revert c i. induction l as [| x l IH]; intros c i; simpl.
  - destruct c, i; simpl; rewrite ?Hf; try reflexivity;
      destruct (Nat.eqb i c); rewrite ?Hf; reflexivity.
  - destruct c as [| c]; destruct i as [| i]; simpl; try reflexivity.
    apply IH.
Qed.

Lemma nth_map_scale (k : Q) (row : list Q) (x : nat) :
  nth x (map (fun v => v * k) row) 0 == nth x row 0 * k.
Proof.
  revert x. induction row as [| v row IH]; intros x; simpl.
  - destruct x; ring.
  - destruct x; [reflexivity | apply IH].
Qed.

(** [t[:, c] *= k] multiplies the entries of channel [c] by [k] and leaves the
    other channels as they are. *)
Lemma entry_scale_channel (t : tensor4 Q) (c : nat) (k : Q) (b ci y x : nat) :
  entry (scale_channel c k t) b ci y x
  == if Nat.eqb ci c then entry t b ci y x * k else entry t b ci y x.
Proof.
  unfold entry, scale_channel, map_channel, imap, tensor4, tensor3, image in *.
  rewrite nth_map_nil by apply map_at_nil.
  rewrite nth_map_at_nil by reflexivity.
  destruct (Nat.eqb ci c); [| reflexivity].
  rewrite nth_map_nil by reflexivity.
  apply nth_map_scale.
Qed.

Lemma entry_scale_both (t : tensor4 Q) (kx ky : Q) (b y x : nat) :
  entry (scale_channel 1 ky (scale_channel 0 kx t)) b 0 y x == entry t b 0 y x * kx /\
  entry (scale_channel 1 ky (scale_channel 0 kx t)) b 1 y x == entry t b 1 y x * ky.
Proof.
  split; rewrite entry_scale_channel; simpl; rewrite entry_scale_channel; simpl; reflexivity.
Qed.

(** C3 (as stated, refuted). Inside the cyclic-consistency mask the synthetic
    flow is interpolated from 2x2 to 1x1 and keeps its value 2 in channel 0:
    the pixel is kept, whereas with channel 0 multiplied by 1/2 it would be
    dropped.  [realEPE], called without ratios as the actor calls it,
    up-samples an estimated flow of 2 from 1x1 to 2x2 as 2, not as
    2 * (2/1) = 4. *)
Lemma resized_flow_not_rescaled :
  shape4 example_flow_map = (1, 2, 2, 2)%nat /\
  shape4 level_flow_1x1 = (1, 2, 1, 1)%nat /\
  get_cyclic_consistency_mask example_loss level_flow_1x1 zero_flow_1x1 example_flow_map
    = [[[true]]] /\
  not_occluded example_loss level_flow_1x1 zero_flow_1x1
               (scale_channel 1 (Qnat 1 / Qnat 2)
                  (scale_channel 0 (Qnat 1 / Qnat 2)
                     (Torch.interpolate example_flow_map (1, 1)%nat)))
    = [[[false]]] /\
  entry (realEPE_upsampled_output level_flow_1x1 example_flow_map None None) 0 0 0 0 == 2 /\
  ~ entry (realEPE_upsampled_output level_flow_1x1 example_flow_map None None) 0 0 0 0
    == entry (Torch.interpolate level_flow_1x1 (2, 2)%nat) 0 0 0 0 * (Qnat 2 / Qnat 1).
Proof.
  repeat split; try (vm_compute; reflexivity).
  vm_compute. discriminate.
Qed.

(** C3 (amended). Channel 0 is multiplied by W'/W and channel 1 by H'/H where
    the triplet constructor resizes the synthetic flow to the size of the
    images and where it resizes the cropped flow to the output size.  Inside
    the cyclic-consistency mask the synthetic flow is interpolated to the size
    of the level and used as it is.  [realEPE] multiplies the up-sampled
    estimate by the [ratio_x] and [ratio_y] of its caller when both are given,
    and returns the interpolated estimate otherwise. *)
Theorem flow_rescaling_where_it_happens
  (self_t : settings) (flow cropped : tensor4 Q) (h w bs cf h_f w_f : nat)
  (self_l : WBipathLoss) (E WF syn : tensor4 Q) (bE cE h_ w_ : nat)
  (output target : tensor4 Q) (bt ct ht wt : nat) (ratio_x ratio_y : Q)
  (b y x : nat) :
  shape4 flow = (bs, cf, h_f, w_f) ->
  h_f <> h \/ w_f <> w ->
  shape4 E = (bE, cE, h_, w_) ->
  shape4 target = (bt, ct, ht, wt) ->
  (entry (rescale_synthetic_flow h w flow) b 0 y x
     == entry (Torch.interpolate flow (h, w)) b 0 y x * (Qnat w / Qnat w_f) /\
   entry (rescale_synthetic_flow h w flow) b 1 y x
     == entry (Torch.interpolate flow (h, w)) b 1 y x * (Qnat h / Qnat h_f)) /\
  (entry (resize_cropped_flow self_t cropped) b 0 y x
     == entry (Torch.interpolate cropped (output_size self_t)) b 0 y x
        * (Qnat (snd (output_size self_t)) / Qnat (snd (crop_size self_t))) /\
   entry (resize_cropped_flow self_t cropped) b 1 y x
     == entry (Torch.interpolate cropped (output_size self_t)) b 1 y x
        * (Qnat (fst (output_size self_t)) / Qnat (fst (crop_size self_t)))) /\
  get_cyclic_consistency_mask self_l E WF syn
    = not_occluded self_l E WF (Torch.interpolate syn (h_, w_)) /\
  (entry (realEPE_upsampled_output output target (Some ratio_x) (Some ratio_y)) b 0 y x
     == entry (Torch.interpolate output (ht, wt)) b 0 y x * ratio_x /\
   entry (realEPE_upsampled_output output target (Some ratio_x) (Some ratio_y)) b 1 y x
     == entry (Torch.interpolate output (ht, wt)) b 1 y x * ratio_y) /\
  realEPE_upsampled_output output target None None = Torch.interpolate output (ht, wt) /\
  realEPE_upsampled_output output target (Some ratio_x) None = Torch.interpolate output (ht, wt) /\
  realEPE_upsampled_output output target None (Some ratio_y) = Torch.interpolate output (ht, wt).
Proof.
  intros Hflow Hdiff HE Htarget.
  split.
  { unfold rescale_synthetic_flow. rewrite Hflow.
    assert (Hb : (negb (Nat.eqb h_f h) || negb (Nat.eqb w_f w))%bool = true).
    { destruct Hdiff as [Hd | Hd]; apply Nat.eqb_neq in Hd; rewrite Hd;
        [reflexivity | apply orb_true_r]. }
    rewrite Hb. apply entry_scale_both. }
  split; [unfold resize_cropped_flow; apply entry_scale_both |].
  split; [unfold get_cyclic_consistency_mask; now rewrite HE |].
  unfold realEPE_upsampled_output. rewrite Htarget.
  split; [apply entry_scale_both |].
  repeat split.
Qed.

(** The amended C3 at the flows of the counterexample. *)
Lemma flow_rescaling_where_it_happens_witness :
  get_cyclic_consistency_mask example_loss level_flow_1x1 zero_flow_1x1 example_flow_map
  = not_occluded example_loss level_flow_1x1 zero_flow_1x1
                 (Torch.interpolate example_flow_map (1, 1)%nat).
Proof.
  refine (proj1 (proj2 (proj2
    (@flow_rescaling_where_it_happens (crop_settings (4, 4)%nat)
       level_flow_1x1 zero_flow_4x4 2 2 1 2 1 1
       example_loss level_flow_1x1 zero_flow_1x1 example_flow_map 1 2 1 1
       level_flow_1x1 example_flow_map 1 2 2 2 1 1
       0 0 0 _ _ _ _)))).
  - reflexivity.
  - left. discriminate.
  - reflexivity.
  - reflexivity.
Defined.

(* --------------------------------------------------------------------- *)
(** ** The flow composed by the W-bipath loss *)
(* --------------------------------------------------------------------- *)

Lemma entry_tmap_scale (t : tensor4 Q) (k : Q) (b c y x : nat) :
  entry (tmap (fun v => v * k) t) b c y x == entry t b c y x * k.
Proof.
  unfold entry, tmap, tmap3, imap, tensor4, tensor3, image in *.
  rewrite nth_map_nil by reflexivity.
  rewrite nth_map_nil by reflexivity.
  rewrite nth_map_nil by reflexivity.
  apply nth_map_scale.
Qed.

(** The entries of the flow used for warping: channel 0 of the estimated
    flow times [w_/w], channel 1 times [h_/h], every other channel as it is. *)
Lemma warping_copy_entry (h w : nat) (E : tensor4 Q) (bE cE h_ w_ : nat) (b c y x : nat) :
  shape4 E = (bE, cE, h_, w_) ->
  entry (warping_copy h w E) b c y x
  == entry E b c y x
     * (if Nat.eqb c 0 then Qnat w_ / Qnat w else if Nat.eqb c 1 then Qnat h_ / Qnat h else 1).
Proof.
  intros Hshape. unfold warping_copy. rewrite Hshape.
  rewrite entry_scale_channel.
  destruct c as [| [| c]]; simpl Nat.eqb; cbv iota;
    rewrite entry_scale_channel; simpl Nat.eqb; cbv iota;
    rewrite entry_tmap_scale; ring.
Qed.

(** C2. At every level [k], the composed flow that [WBipathLoss.__call__]
    returns is the estimated flow from target prime to source plus the warp of
    the estimated flow from source to target by [R], where the entries of [R]
    are those of the estimated flow from target prime to source, multiplied
    by [w_/w] in channel 0 and by [h_/h] in channel 1 ([(h_, w_)] the size of
    the level, [(h, w)] the size of the ground-truth flow); [R] is a copy:
    the estimated flow itself is not written. *)
Theorem composed_flow_at_each_level
  (warp : tensor4 Q -> tensor4 Q -> tensor4 Q) (Stats : Type)
  (objective : list (tensor4 Q) -> tensor4 Q -> list (tensor3 bool) -> xq * Stats)
  (self : WBipathLoss) (flow_map : tensor4 Q) (mask_used : option (tensor3 bool))
  (tp st : flows) (s : store) (k : nat) (a c : ref) (b0 c0 h w bE cE h_ w_ : nat) :
  shape4 flow_map = (b0, c0, h, w) ->
  Forall (fun r => r < length s)%nat (as_list tp) ->
  Forall (fun r => r < length s)%nat (as_list st) ->
  nth_error (as_list tp) k = Some a ->
  nth_error (as_list st) k = Some c ->
  shape4 (nth a s []) = (bE, cE, h_, w_) ->
  exists r R,
    nth_error (estimated_flow_target_prime_to_target_through_composition
                 (snd (fst (call warp objective self flow_map mask_used tp st s)))) k
      = Some r /\
    nth r (snd (call warp objective self flow_map mask_used tp st s)) []
      = tzip Qplus (nth a s []) (warp (nth c s []) R) /\
    (forall bi y x, entry R bi 0 y x == entry (nth a s []) bi 0 y x * (Qnat w_ / Qnat w)) /\
    (forall bi y x, entry R bi 1 y x == entry (nth a s []) bi 1 y x * (Qnat h_ / Qnat h)) /\
    (forall bi ci y x, entry R bi (2 + ci) y x == entry (nth a s []) bi (2 + ci) y x) /\
    nth a (snd (call warp objective self flow_map mask_used tp st s)) [] = nth a s [].
Proof.
  intros Hshape Htp Hst Hka Hkc HE.
  destruct (call_output warp objective self flow_map mask_used tp st s) as (_ & Hcomp & Hstore).
  rewrite Hcomp, Hstore, Hshape. simpl fst. simpl snd.
  destruct (@levels_run warp self h w flow_map mask_used s (as_list tp) (as_list st) [] Htp Hst)
    as (rs & more & Hrun & Hspec).
  rewrite app_nil_r in Hrun. simpl app in *. rewrite Hrun. simpl fst. simpl snd.
  destruct (Hspec k a c Hka Hkc) as (r & Hr & Hval).
  exists (estimated_flow r), (warping_copy h w (nth a s [])).
  split; [now apply map_nth_error |].
  split; [exact Hval |].
  split; [intros bi y x; rewrite (warping_copy_entry h w bi 0 y x HE); reflexivity |].
  split; [intros bi y x; rewrite (warping_copy_entry h w bi 1 y x HE); reflexivity |].
  split; [intros bi ci y x; rewrite (warping_copy_entry h w bi (2 + ci) y x HE);
          simpl; ring |].
  apply app_nth1. rewrite Forall_forall in Htp. apply Htp.
  eapply nth_error_In. exact Hka.
Qed.

(** C2 at a level of 1x2 pixels under a ground truth of 2x4 pixels: the flow
    from target prime to source moves the first pixel by 2 in x, the flow from
    source to target is not zero. *)
Lemma composed_flow_at_each_level_witness :
  exists r R,
    nth_error (estimated_flow_target_prime_to_target_through_composition
                 (snd (fst (call PWCNet.warp example_objective example_loss
                                 example_flow_map_2x4 None (Many [0%nat]) (Many [1%nat])
                                 example_store_1x2)))) 0%nat
      = Some r /\
    nth r (snd (call PWCNet.warp example_objective example_loss example_flow_map_2x4
                     None (Many [0%nat]) (Many [1%nat]) example_store_1x2)) []
      = tzip Qplus (nth 0%nat example_store_1x2 [])
             (PWCNet.warp (nth 1%nat example_store_1x2 []) R) /\
    (forall bi y x, entry R bi 0 y x
                    == entry (nth 0%nat example_store_1x2 []) bi 0 y x * (Qnat 2 / Qnat 4)) /\
    (forall bi y x, entry R bi 1 y x
                    == entry (nth 0%nat example_store_1x2 []) bi 1 y x * (Qnat 1 / Qnat 2)) /\
    (forall bi ci y x, entry R bi (2 + ci) y x
                       == entry (nth 0%nat example_store_1x2 []) bi (2 + ci) y x) /\
    nth 0%nat (snd (call PWCNet.warp example_objective example_loss example_flow_map_2x4
                     None (Many [0%nat]) (Many [1%nat]) example_store_1x2)) []
      = nth 0%nat example_store_1x2 [].
Proof.
  apply (@composed_flow_at_each_level PWCNet.warp unit example_objective example_loss
           example_flow_map_2x4 None (Many [0%nat]) (Many [1%nat]) example_store_1x2
           0%nat 0%nat 1%nat 1%nat 2%nat 2%nat 4%nat 1%nat 2%nat 1%nat 2%nat).
  - reflexivity.
  - repeat constructor.
  - repeat constructor.
  - reflexivity.
  - reflexivity.
  - reflexivity.
Defined.

(** At this level the scaling decides the result: with the first pixel moved
    by 2 * (2/4) = 1 the warp reads the second pixel of the flow from source
    to target, and the composed flow is (2, 0) + (7, 3) there; moved by the
    unscaled 2 the warp would read outside of the flow and return 0. *)
Lemma composed_flow_at_the_example :
  teq (nth 4 (snd (call PWCNet.warp example_objective example_loss example_flow_map_2x4
                        None (Many [0%nat]) (Many [1%nat]) example_store_1x2)) [])
      [[[[9; 7]]; [[3; 3]]]] /\
  teq (PWCNet.warp (nth 1%nat example_store_1x2 []) (nth 0%nat example_store_1x2 []))
      [[[[0; 7]]; [[0; 3]]]].
Proof.
  split; repeat constructor; vm_compute; reflexivity.
Qed.

(* --------------------------------------------------------------------- *)
(** ** Balancing the self-supervised and the unsupervised loss *)
(* --------------------------------------------------------------------- *)

Lemma xdiv_fin_nonzero (a d : Q) : ~ d == 0 -> xdiv (Fin a) (Fin d) = Fin (a / d).
Proof.
  intros Hd. unfold xdiv.
  destruct (d ?= 0) eqn:Hcmp; try reflexivity.
  apply Qeq_alt in Hcmp. contradiction.
Qed.

Lemma xgt_fin (a b : Q) : xgt (Fin a) (Fin b) = true <-> b < a.
Proof.
  unfold xgt. destruct (Qlt_le_dec b a) as [Hlt | Hle]; split; intros H;
    try reflexivity; try assumption; try discriminate.
  exfalso. apply (Qlt_not_le _ _ H Hle).
Qed.

Lemma xgt_fin_false (a b : Q) : a <= b -> xgt (Fin a) (Fin b) = false.
Proof.
  intros H. destruct (xgt (Fin a) (Fin b)) eqn:Hg; [| reflexivity].
  apply xgt_fin in Hg. exfalso. apply (Qlt_not_le _ _ Hg H).
Qed.

(** C6 (as stated, refuted). With both losses equal to 0 and equal weights,
    the factor of the unsupervised loss is 0 / (0 + 1e-8) = 0, which is not
    close to 1.  With a weight ratio of 1/10 and losses 1 (self-supervised)
    and 2 (unsupervised), the smaller loss is multiplied by
    2 / (1 + 1e-8) / 10 < 1: it is rescaled downward. *)
Lemma adaptive_weights_not_near_one :
  (exists u stats,
     adaptive_weights (Fin 0) (Fin 0) (1 / 1) = (Fin u, Fin 1) /\
     weights_self_supervised_and_unsupervised (Fin 0) (Fin 0) [] equal_weights false
       = Ok (Fin 0, stats) /\
     u == 0 /\ ~ 1 - u <= 1 # 2) /\
  (exists s,
     adaptive_weights (Fin 1) (Fin 2) (1 / 10) = (Fin 1, Fin s) /\ s < 1).
Proof.
  split.
  - eexists. eexists. split; [vm_compute; reflexivity |].
    split; [vm_compute; reflexivity |].
    split; [vm_compute; reflexivity |].
    vm_compute. intros H. apply H. reflexivity.
  - eexists. split; [vm_compute; reflexivity |]. vm_compute. reflexivity.
Qed.

(** C6 (amended). With equal weights and both losses equal to [L >= 0], the
    factor of the self-supervised loss is exactly 1 and the factor of the
    unsupervised loss is [L / (L + 1e-8)]: it lies in [0, 1], it is within
    [1e-8 / L] of 1 when [L > 0] (and it is 0 when [L = 0]), and the combined
    loss is below the plain sum [2 L] by at most 1e-8.  In general the loss
    that is strictly larger keeps the factor 1 and the other one is multiplied
    by the ratio of the losses times (or divided by) the ratio of the weights;
    with equal weights this factor is above 1 as soon as the losses differ by
    more than 1e-8. *)
Theorem adaptive_weighting
  (L wgt : Q) (stats : dict xq) (loss_weight : dict Q) (L_su L_un r : Q) :
  0 <= L ->
  ~ wgt == 0 ->
  lookup "warp_supervision" loss_weight = Some wgt ->
  lookup "w_bipath" loss_weight = Some wgt ->
  0 <= L_su -> 0 <= L_un ->
  ~ r == 0 ->
  (exists u loss stats',
     adaptive_weights (Fin L) (Fin L) (wgt / wgt) = (Fin u, Fin 1) /\
     weights_self_supervised_and_unsupervised (Fin L) (Fin L) stats loss_weight false
       = Ok (Fin loss, stats') /\
     u == L / (L + (1 # 100000000)) /\
     0 <= u /\ u <= 1 /\
     (0 < L -> 1 - u <= (1 # 100000000) / L) /\
     loss == L * u + L * 1 /\
     0 <= (L + L) - loss /\ (L + L) - loss <= 1 # 100000000) /\
  (L_su < L_un ->
   adaptive_weights (Fin L_su) (Fin L_un) r
   = (Fin 1, Fin (L_un / (L_su + (1 # 100000000)) * r))) /\
  (L_un <= L_su ->
   adaptive_weights (Fin L_su) (Fin L_un) r
   = (Fin (L_su / (L_un + (1 # 100000000)) / r), Fin 1)) /\
  (L_su + (1 # 100000000) < L_un ->
   exists s, adaptive_weights (Fin L_su) (Fin L_un) 1 = (Fin 1, Fin s) /\ 1 < s) /\
  (L_un + (1 # 100000000) < L_su ->
   exists u, adaptive_weights (Fin L_su) (Fin L_un) 1 = (Fin u, Fin 1) /\ 1 < u).
Proof.
  intros HL Hwgt Hsu Hun HLsu HLun Hr.
  assert (Hgt : forall a c k, 0 <= a -> a < c ->
                adaptive_weights (Fin a) (Fin c) k
                = (Fin 1, Fin (c / (a + (1 # 100000000)) * k))).
  { intros a c k Ha Hac. unfold adaptive_weights.
    rewrite (proj2 (xgt_fin c a) Hac). simpl xadd.
    rewrite xdiv_fin_pos by lra. reflexivity. }
  assert (Hle : forall a c k, 0 <= c -> c <= a -> ~ k == 0 ->
                adaptive_weights (Fin a) (Fin c) k
                = (Fin (a / (c + (1 # 100000000)) / k), Fin 1)).
  { intros a c k Hc Hca Hk. unfold adaptive_weights.
    rewrite (xgt_fin_false Hca). simpl xadd.
    rewrite xdiv_fin_pos by lra. now rewrite xdiv_fin_nonzero. }
  assert (Hratio : ~ wgt / wgt == 0).
  { intros H. apply Hwgt. rewrite <- (Qmult_div_r wgt wgt Hwgt), H. ring. }
  split; [| split; [| split; [| split]]].
  - set (e := 1 # 100000000) in *.
    set (u := L / (L + e) / (wgt / wgt)).
    assert (Hu : u == L / (L + e)) by (unfold u; field; repeat split; try exact Hwgt; unfold e; lra).
    assert (Hpos : 0 < L + e) by (unfold e; lra).
    assert (Hu0 : 0 <= u) by (rewrite Hu; apply Qle_shift_div_l; [exact Hpos | lra]).
    assert (Hu1 : u <= 1) by (rewrite Hu; apply Qle_shift_div_r; [exact Hpos | unfold e; lra]).
    assert (Hprod : u * (L + e) == L) by (rewrite Hu; field; lra).
    assert (He : 0 < e) by (unfold e; reflexivity).
    exists u, (L * u + L * 1). eexists.
    split; [apply (Hle L L (wgt / wgt) HL (Qle_refl L) Hratio) |].
    split.
    { unfold weights_self_supervised_and_unsupervised. simpl negb.
      rewrite Hsu, Hun.
      assert (Hb : Qeq_bool wgt 0 = false).
      { destruct (Qeq_bool wgt 0) eqn:Hq; [| reflexivity].
        apply Qeq_bool_eq in Hq. contradiction. }
      rewrite Hb. cbv zeta.
      rewrite (Hle L L (wgt / wgt) HL (Qle_refl L) Hratio). fold e u. simpl. reflexivity. }
    split; [exact Hu |].
    split; [exact Hu0 |]. split; [exact Hu1 |].
    split.
    { intros HLpos. apply Qle_shift_div_l; [exact HLpos | nra]. }
    split; [reflexivity |].
    split; nra.
  - intros Hlt. now apply Hgt.
  - intros Hge. now apply Hle.
  - intros Hgap. eexists. split; [apply Hgt; [exact HLsu | lra] |].
    assert (Hpos : 0 < L_su + (1 # 100000000)) by lra.
    rewrite Qmult_1_r. apply Qlt_shift_div_l; [exact Hpos | lra].
  - intros Hgap. eexists. split; [apply Hle; [exact HLun | lra | discriminate] |].
    assert (Hpos : 0 < L_un + (1 # 100000000)) by lra.
    unfold Qdiv at 1. change (/ 1) with 1. rewrite Qmult_1_r.
    apply Qlt_shift_div_l; [exact Hpos | lra].
Qed.

(** The amended C6 at two losses equal to 1, with the default weights. *)
Lemma adaptive_weighting_witness :
  exists u loss stats',
    adaptive_weights (Fin 1) (Fin 1) (1 / 1) = (Fin u, Fin 1) /\
    weights_self_supervised_and_unsupervised (Fin 1) (Fin 1) [] equal_weights false
      = Ok (Fin loss, stats') /\
    u == 1 / (1 + (1 # 100000000)) /\
    0 <= u /\ u <= 1 /\
    (0 < 1 -> 1 - u <= (1 # 100000000) / 1) /\
    loss == 1 * u + 1 * 1 /\
    0 <= (1 + 1) - loss /\ (1 + 1) - loss <= 1 # 100000000.
Proof.
  refine (proj1 (@adaptive_weighting 1 1 [] equal_weights 1 2 1 _ _ _ _ _ _ _)).
  - discriminate.
  - discriminate.
  - reflexivity.
  - reflexivity.
  - discriminate.
  - discriminate.
  - discriminate.
Defined.

(* ===================================================================== *)
(** * Further properties *)
(* ===================================================================== *)

(* --------------------------------------------------------------------- *)
(** ** The center crop, when the crop fits into the image *)
(* --------------------------------------------------------------------- *)

Lemma py_slice_inside (A : Type) (lo : Z) (n : nat) (l : list A) :
  (0 <= lo)%Z -> (lo + Z.of_nat n <= Z.of_nat (length l))%Z ->
  py_slice lo (lo + Z.of_nat n) l = firstn n (skipn (Z.to_nat lo) l).
Proof.
  intros Hlo Hfit. unfold py_slice, slice_index.
  destruct (Z.ltb_spec lo 0) as [H | _]; [lia |].
  destruct (Z.ltb_spec (lo + Z.of_nat n) 0) as [H | _]; [lia |].
  rewrite !Z.min_l by lia.
  replace (lo + Z.of_nat n - lo)%Z with (Z.of_nat n) by lia.
  now rewrite Nat2Z.id.
Qed.

Lemma py_slice_inside_length (A : Type) (lo : Z) (n : nat) (l : list A) :
  (0 <= lo)%Z -> (lo + Z.of_nat n <= Z.of_nat (length l))%Z ->
  length (py_slice lo (lo + Z.of_nat n) l) = n.
Proof.
  intros Hlo Hfit. rewrite py_slice_inside by assumption.
  rewrite length_firstn, length_skipn. lia.
Qed.

Lemma py_slice_inside_nth (A : Type) (lo : Z) (n i : nat) (l : list A) (d : A) :
  (0 <= lo)%Z -> (lo + Z.of_nat n <= Z.of_nat (length l))%Z -> (i < n)%nat ->
  nth i (py_slice lo (lo + Z.of_nat n) l) d = nth (Z.to_nat lo + i) l d.
Proof.
  intros Hlo Hfit Hi. rewrite py_slice_inside by assumption.
  rewrite nth_firstn. destruct (Nat.ltb_spec i n) as [_ | H]; [| lia].
  apply nth_skipn.
Qed.

Lemma py_slice_incl (A : Type) (lo hi : Z) (l : list A) (x : A) :
  In x (py_slice lo hi l) -> In x l.
Proof.
  unfold py_slice. intros H.
  set (k := Z.to_nat (slice_index (Z.of_nat (length l)) lo)) in *.
  set (n := Z.to_nat (slice_index (Z.of_nat (length l)) hi
                      - slice_index (Z.of_nat (length l)) lo)) in *.
  rewrite <- (firstn_skipn k l). apply in_or_app. right.
  rewrite <- (firstn_skipn n (skipn k l)). apply in_or_app. now left.
Qed.

Lemma start_offset_fits (dim crop_dim : nat) :
  (crop_dim <= dim)%nat ->
  (0 <= start_offset dim crop_dim)%Z /\
  (start_offset dim crop_dim + Z.of_nat crop_dim <= Z.of_nat dim)%Z.
Proof.
  unfold start_offset. intros H.
  assert (Z.of_nat crop_dim <= Z.of_nat dim)%Z by lia.
  Z.to_euclidean_division_equations. lia.
Qed.

Lemma crop_spatial (A : Type) (h w : nat) (y0 x0 : Z) (cs : nat * nat) (t : tensor4 A) :
  spatial h w t ->
  (0 <= y0)%Z -> (y0 + Z.of_nat (fst cs) <= Z.of_nat h)%Z ->
  (0 <= x0)%Z -> (x0 + Z.of_nat (snd cs) <= Z.of_nat w)%Z ->
  spatial (fst cs) (snd cs) (crop y0 x0 cs t).
Proof.
  intros Hsp Hy0 Hy1 Hx0 Hx1. unfold spatial, crop in *.
  apply Forall_map. eapply Forall_impl; [| exact Hsp].
  intros sample Hsample. apply Forall_map. eapply Forall_impl; [| exact Hsample].
  intros im [Hlen Hrows]. split.
  - rewrite length_map. apply py_slice_inside_length; [assumption | lia].
  - apply Forall_map. apply Forall_forall. intros row Hin.
    apply py_slice_incl in Hin. rewrite Forall_forall in Hrows.
    specialize (Hrows row Hin). simpl in Hrows.
    apply py_slice_inside_length; [assumption | lia].
Qed.

(** X1. When the crop size is at most the image size, the three images and
    the flow that come out of the center crop have exactly the crop size, in
    both variants of the triplet constructor. *)
Theorem center_crop_has_crop_size
  (ext : collaborators) (self : settings)
  (source target flow flow_ss : tensor4 Q) (b c h w : nat) :
  shape4 source = (b, c, h, w) ->
  stage_spatial h w (before_crop ext self source target flow) ->
  stage2_spatial h w (before_crop2 ext self source target flow flow_ss) ->
  (fst (crop_size self) <= h)%nat ->
  (snd (crop_size self) <= w)%nat ->
  stage_spatial (fst (crop_size self)) (snd (crop_size self))
                (center_crop ext self source target flow) /\
  stage2_spatial (fst (crop_size self)) (snd (crop_size self))
                 (center_crop2 ext self source target flow flow_ss).
Proof.
  intros Hshape (H1 & H2 & H3 & H4) (K1 & K2 & K3 & K4 & K5 & K6) Hh Hw.
  destruct (start_offset_fits Hh) as [Hy0 Hy1].
  destruct (start_offset_fits Hw) as [Hx0 Hx1].
  unfold center_crop, center_crop2, stage_spatial, stage2_spatial, y_start, x_start.
  rewrite Hshape. simpl.
  repeat split; apply (crop_spatial (h := h) (w := w)); assumption.
Qed.

Lemma center_crop_has_crop_size_witness :
  stage_spatial 2 2
    (center_crop plain_collaborators (crop_settings (2, 2)%nat) image_4x4 image_4x4 zero_flow_4x4).
Proof.
  refine (proj1 (@center_crop_has_crop_size plain_collaborators (crop_settings (2, 2)%nat)
                   image_4x4 image_4x4 zero_flow_4x4 zero_flow_4x4 1 1 4 4 _ _ _ _ _)).
  - reflexivity.
  - unfold stage_spatial, spatial, image_wf; simpl. repeat constructor.
  - unfold stage2_spatial, spatial, image_wf; simpl. repeat constructor.
  - simpl; lia.
  - simpl; lia.
Defined.

(** X2. When the crop size is at most the image size, entry (y, x) of a
    cropped channel is entry (y_start + y, x_start + x) of the channel before
    the crop: the crop is the central patch. *)
Theorem crop_is_central_patch
  (h w : nat) (cs : nat * nat) (t : tensor4 Q) (b c y x : nat) :
  spatial h w t ->
  (fst cs <= h)%nat -> (snd cs <= w)%nat ->
  (b < length t)%nat -> (c < length (nth b t []))%nat ->
  (y < fst cs)%nat -> (x < snd cs)%nat ->
  entry (crop (start_offset h (fst cs)) (start_offset w (snd cs)) cs t) b c y x
  = entry t b c (Z.to_nat (start_offset h (fst cs)) + y)
            (Z.to_nat (start_offset w (snd cs)) + x).
Proof.
  intros Hsp Hh Hw Hb Hc Hy Hx.
  destruct (start_offset_fits Hh) as [Hy0 Hy1].
  destruct (start_offset_fits Hw) as [Hx0 Hx1].
  unfold entry, crop, spatial, tensor4, tensor3, image in *.
  rewrite nth_map_nil by reflexivity.
  rewrite nth_map_nil by (unfold py_slice; simpl; now rewrite skipn_nil, firstn_nil).
  rewrite Forall_forall in Hsp.
  assert (Hsample := Hsp _ (nth_In t [] Hb)). rewrite Forall_forall in Hsample.
  destruct (Hsample _ (nth_In (nth b t []) [] Hc)) as [Hlen Hrows].
  rewrite nth_map_nil by (unfold py_slice; simpl; now rewrite skipn_nil, firstn_nil).
  rewrite (@py_slice_inside_nth _ (start_offset h (fst cs)) (fst cs) y
             (nth c (nth b t []) []) []) by (try assumption; lia).
  rewrite Forall_forall in Hrows.
  assert (Hrow : length (nth (Z.to_nat (start_offset h (fst cs)) + y)
                             (nth c (nth b t []) []) []) = w).
  { apply Hrows. apply nth_In. lia. }
  apply py_slice_inside_nth; try assumption; lia.
Qed.

Lemma crop_is_central_patch_witness :
  entry (crop (start_offset 4 2) (start_offset 4 2) (2, 2)%nat image_4x4) 0 0 1 1
  = entry image_4x4 0 0 (Z.to_nat (start_offset 4 2) + 1) (Z.to_nat (start_offset 4 2) + 1).
Proof.
  apply (@crop_is_central_patch 4 4 (2, 2)%nat image_4x4 0 0 1 1).
  - unfold spatial, image_wf; simpl. repeat constructor.
  - simpl; lia.
  - simpl; lia.
  - simpl; lia.
  - simpl; lia.
  - simpl; lia.
  - simpl; lia.
Defined.

(* --------------------------------------------------------------------- *)
(** ** The point-wise losses: results, modes and masked pixels *)
(* --------------------------------------------------------------------- *)

Lemma zip_with_andb_self (l : list bool) : zip_with andb l l = l.
Proof.
  induction l as [| a l IH]; simpl; [reflexivity |]. now rewrite IH, andb_diag.
Qed.

Lemma zip_with_self_id (A : Type) (f : A -> A -> A) (l : list A) :
  (forall a, f a a = a) -> zip_with f l l = l.
Proof.
  intros H. induction l as [| a l IH]; simpl; [reflexivity |]. now rewrite IH, H.
Qed.

Lemma zip_with_absorb (A B : Type) (f : A -> B -> B) (l : list A) (m : list B) :
  (forall a b, f a (f a b) = f a b) ->
  zip_with f l (zip_with f l m) = zip_with f l m.
Proof.
  intros H. revert m. induction l as [| a l IH]; intros m; simpl; [reflexivity |].
  destruct m as [| c m]; simpl; [reflexivity |]. now rewrite IH, H.
Qed.

Lemma tzip_andb_self (M : tensor4 bool) : tzip andb M M = M.
Proof.
  unfold tzip, tzip3, izip.
  apply zip_with_self_id. intros sample.
  apply zip_with_self_id. intros im.
  apply zip_with_self_id. apply zip_with_andb_self.
Qed.

(** Whatever the caller passes as a mask, the losses run on the error map
    and on a mask that is contained in the finite pixels of the map. *)
Lemma rebind_mask_rebound (E : tensor4 xq) (mask : option (tensor4 bool)) :
  rebind_mask E mask = Some (rebound E mask) /\
  rebound E mask = tzip andb (tmap finite E) (rebound E mask).
Proof.
  destruct mask as [m |]; simpl; split; try reflexivity.
  - unfold tzip, tzip3, izip. symmetry.
    apply zip_with_absorb. intros f ms.
    apply zip_with_absorb. intros fi mi.
    apply zip_with_absorb. intros fr mr.
    apply zip_with_absorb. intros a c. now destruct a, c.
  - symmetry. apply tzip_andb_self.
Qed.

Lemma normalized_branch_modes (self : loss_object) (b h w : nat)
      (E : tensor4 xq) (mask : tensor4 bool) :
  (0 < b)%nat ->
  exists qt qf,
    normalized_branch (set_sum_normalized self true) b h w E
                      (tzip andb (tmap finite E) mask) = Scalar (Fin qt) /\
    normalized_branch (set_sum_normalized self false) b h w E
                      (tzip andb (tmap finite E) mask) = Scalar (Fin qf) /\
    qt * Qnat b == qf.
Proof.
  intros Hb. unfold normalized_branch. simpl sum_normalized.
  destruct (Nat.eqb_spec b 0) as [-> | _]; [lia |].
  destruct (batch_loop_spec b h w E mask) as (L & HL & _).
  cbv zeta. rewrite HL, (xdiv_fin_pos _ (Qnat_pos Hb)).
  exists (L / Qnat b), L. repeat split.
  field. pose proof (Qnat_pos Hb). lra.
Qed.

Lemma set_sum_normalized_same (self : loss_object) :
  set_sum_normalized self (sum_normalized self) = self.
Proof. destruct self; reflexivity. Qed.

Lemma normalized_branch_finite (self : loss_object) (b h w : nat)
      (E : tensor4 xq) (mask : tensor4 bool) :
  (0 < b)%nat ->
  exists q, normalized_branch self b h w E (tzip andb (tmap finite E) mask) = Scalar (Fin q).
Proof.
  intros Hb. destruct (normalized_branch_modes self h w E mask Hb) as (qt & qf & Ht & Hf & _).
  rewrite <- (set_sum_normalized_same self).
  destruct (sum_normalized self); eauto.
Qed.

(** X3. For a batch that is not empty, [EPE], [L1] and [L1Charbonnier]
    return a scalar that is not NaN, whatever the flows hold (NaN and
    infinite entries included), with or without a mask and in both modes of
    [sum_normalized]: the entries of the error map that are NaN or infinite
    are masked out before the sums are taken. *)
Theorem loss_is_never_nan
  (xsqrt : xq -> xq) (xpow : xq -> Q -> xq)
  (self : loss_object) (gt est : tensor4 xq) (mask : option (tensor4 bool))
  (b c h w : nat) :
  shape4 gt = (b, c, h, w) ->
  (0 < b)%nat ->
  (exists v, EPE_call xsqrt self gt est mask = Scalar v /\ isnan v = false) /\
  (exists v, L1_call self gt est mask = Scalar v /\ isnan v = false) /\
  (exists v, L1Charbonnier_call xpow self gt est mask = Scalar v /\ isnan v = false).
Proof.
  intros Hshape Hb. unfold EPE_call, L1_call, L1Charbonnier_call. rewrite Hshape.
  cbv zeta.
  repeat split;
    match goal with
    | |- context [rebind_mask ?E mask] =>
        destruct (rebind_mask_rebound E mask) as [-> ->];
        destruct (@normalized_branch_finite self b h w E (rebound E mask) Hb) as [q ->];
        exists (Fin q); split; reflexivity
    end.
Qed.

Lemma loss_is_never_nan_witness :
  exists v, L1_call sum_normalized_loss nan_gt nan_est None = Scalar v /\ isnan v = false.
Proof.
  refine (proj1 (proj2
    (@loss_is_never_nan (fun x => x) (fun x _ => x) sum_normalized_loss
       nan_gt nan_est None 1 2 1 2 _ _))).
  - reflexivity.
  - lia.
Defined.

(** X4. For an empty batch the three losses raise [ZeroDivisionError] (in
    [L / b]) when [sum_normalized] is set and return 0 otherwise. *)
Theorem loss_of_empty_batch
  (xsqrt : xq -> xq) (xpow : xq -> Q -> xq)
  (self : loss_object) (est : tensor4 xq) (mask : option (tensor4 bool)) :
  EPE_call xsqrt self [] est mask
    = (if sum_normalized self then ZeroDivisionError else Scalar (Fin 0)) /\
  L1_call self [] est mask
    = (if sum_normalized self then ZeroDivisionError else Scalar (Fin 0)) /\
  L1Charbonnier_call xpow self [] est mask
    = (if sum_normalized self then ZeroDivisionError else Scalar (Fin 0)).
Proof.
  unfold EPE_call, L1_call, L1Charbonnier_call, normalized_branch.
  destruct mask; destruct (sum_normalized self); simpl; repeat split.
Qed.

(** X5. For a batch of [b >= 1] samples, the result with [sum_normalized]
    set is the result without it divided by [b]. *)
Theorem sum_normalized_divides_by_batch
  (xsqrt : xq -> xq) (xpow : xq -> Q -> xq)
  (self : loss_object) (gt est : tensor4 xq) (mask : option (tensor4 bool))
  (b c h w : nat) :
  shape4 gt = (b, c, h, w) ->
  (0 < b)%nat ->
  (exists qt qf,
     EPE_call xsqrt (set_sum_normalized self true) gt est mask = Scalar (Fin qt) /\
     EPE_call xsqrt (set_sum_normalized self false) gt est mask = Scalar (Fin qf) /\
     qt * Qnat b == qf) /\
  (exists qt qf,
     L1_call (set_sum_normalized self true) gt est mask = Scalar (Fin qt) /\
     L1_call (set_sum_normalized self false) gt est mask = Scalar (Fin qf) /\
     qt * Qnat b == qf) /\
  (exists qt qf,
     L1Charbonnier_call xpow (set_sum_normalized self true) gt est mask = Scalar (Fin qt) /\
     L1Charbonnier_call xpow (set_sum_normalized self false) gt est mask = Scalar (Fin qf) /\
     qt * Qnat b == qf).
Proof.
  intros Hshape Hb. unfold EPE_call, L1_call, L1Charbonnier_call. rewrite Hshape.
  cbv zeta.
  repeat split;
    match goal with
    | |- context [rebind_mask ?E mask] =>
        destruct (rebind_mask_rebound E mask) as [-> ->];
        now apply normalized_branch_modes
    end.
Qed.

Lemma sum_normalized_divides_by_batch_witness :
  exists qt qf,
    L1_call (set_sum_normalized sum_normalized_loss true) two_sample_gt two_sample_est
            (Some two_sample_mask) = Scalar (Fin qt) /\
    L1_call (set_sum_normalized sum_normalized_loss false) two_sample_gt two_sample_est
            (Some two_sample_mask) = Scalar (Fin qf) /\
    qt * Qnat 2 == qf.
Proof.
  refine (proj1 (proj2
    (@sum_normalized_divides_by_batch (fun x => x) (fun x _ => x) sum_normalized_loss
       two_sample_gt two_sample_est (Some two_sample_mask) 2 2 10 10 _ _))).
  - reflexivity.
  - lia.
Defined.

Lemma zip_with_inner_l (A B C : Type) (F : A -> B -> C) (K : A -> B -> A)
      (l : list A) (m : list B) :
  (forall a b, F (K a b) b = F a b) ->
  zip_with F (zip_with K l m) m = zip_with F l m.
Proof.
  intros H. revert m. induction l as [| a l IH]; intros m; simpl; [reflexivity |].
  destruct m as [| c m]; simpl; [reflexivity |]. now rewrite IH, H.
Qed.

Lemma zip_with_map_inner_l (A B C D : Type) (F : D -> B -> C) (G : A -> D) (K : A -> B -> A)
      (l : list A) (m : list B) :
  (forall a b, F (G (K a b)) b = F (G a) b) ->
  zip_with F (map G (zip_with K l m)) m = zip_with F (map G l) m.
Proof.
  intros H. revert m. induction l as [| a l IH]; intros m; simpl; [reflexivity |].
  destruct m as [| c m]; simpl; [reflexivity |]. now rewrite IH, H.
Qed.

Lemma row_valid_keep (es : list xq) (ms : list bool) :
  row_valid (zip_with (fun e (m : bool) => if m then e else Fin 0) es ms) ms
  = row_valid es ms.
Proof.
  unfold row_valid. apply zip_with_map_inner_l.
  intros a b. destruct b; [reflexivity | now rewrite !andb_false_r].
Qed.

Lemma row_code_keep (es : list xq) (ms : list bool) :
  row_code (zip_with (fun e (m : bool) => if m then e else Fin 0) es ms) ms
  = row_code es ms.
Proof.
  unfold row_code. rewrite row_valid_keep. unfold row_valid.
  revert ms. induction es as [| e es IH]; intros ms; simpl; [reflexivity |].
  destruct ms as [| m ms]; simpl; [reflexivity |].
  destruct m; simpl.
  - rewrite andb_true_r. destruct (finite e); simpl; now rewrite IH.
  - rewrite andb_false_r. simpl. apply IH.
Qed.

Lemma valid_pixels_keep (e : tensor3 xq) (m : tensor3 bool) :
  valid_pixels (tzip3 (fun e (m : bool) => if m then e else Fin 0) e m) m
  = valid_pixels e m.
Proof.
  unfold valid_pixels, tzip3, tmap3, izip, imap.
  apply zip_with_map_inner_l. intros ei mi.
  apply zip_with_map_inner_l. intros er mr.
  apply row_valid_keep.
Qed.

Lemma sample_term_keep (h w : nat) (e : tensor3 xq) (m : tensor3 bool) :
  sample_term h w
    (tzip3 xmul (tzip3 (fun e (m : bool) => if m then e else Fin 0) e m)
           (tmap3 of_bool (valid_pixels e m)))
    (valid_pixels e m)
  = sample_term h w (tzip3 xmul e (tmap3 of_bool (valid_pixels e m))) (valid_pixels e m).
Proof.
  unfold sample_term. cbv zeta. f_equal. f_equal.
  rewrite <- (valid_pixels_keep e m) at 1 2.
  rewrite !pick3_code. f_equal.
  unfold tzip3, izip.
  apply zip_with_inner_l. intros ei mi. f_equal.
  apply zip_with_inner_l. apply row_code_keep.
Qed.

Lemma nth_keep_inside (E : tensor4 xq) (mask : tensor4 bool) (bb : nat) :
  nth bb (keep_inside E mask) []
  = tzip3 (fun e (m : bool) => if m then e else Fin 0) (nth bb E []) (nth bb mask []).
Proof.
  unfold keep_inside, tzip, tensor4, tensor3 in *.
  rewrite nth_zip_with_nil.
  - reflexivity.
  - reflexivity.
  - intros x. apply zip_with_nil_r.
Qed.

Lemma fold_left_ext_fun (A B : Type) (f g : A -> B -> A) (l : list B) (a : A) :
  (forall x y, f x y = g x y) -> fold_left f l a = fold_left g l a.
Proof.
  intros H. revert a. induction l as [| y l IH]; intros a; simpl; [reflexivity |].
  now rewrite H, IH.
Qed.

Lemma normalized_branch_keep_inside (self : loss_object) (b h w : nat)
      (E : tensor4 xq) (mask : tensor4 bool) :
  normalized_branch self b h w (keep_inside E mask)
                    (tzip andb (tmap finite (keep_inside E mask)) mask)
  = normalized_branch self b h w E (tzip andb (tmap finite E) mask).
Proof.
  unfold normalized_branch. cbv zeta.
  assert (HL : batch_loop b h w
                 (tzip xmul (keep_inside E mask)
                       (tmap of_bool (tzip andb (tmap finite (keep_inside E mask)) mask)))
                 (tzip andb (tmap finite (keep_inside E mask)) mask)
               = batch_loop b h w
                   (tzip xmul E (tmap of_bool (tzip andb (tmap finite E) mask)))
                   (tzip andb (tmap finite E) mask)).
  { unfold batch_loop. apply fold_left_ext_fun. intros L bb. f_equal.
    rewrite !nth_masked_map, !nth_rebound, nth_keep_inside, valid_pixels_keep.
    apply sample_term_keep. }
  now rewrite HL.
Qed.

(** X6. The three losses read the error map only where the mask is set: two
    pairs of flows whose error maps agree at the pixels of the mask get the
    same loss, whatever the maps hold elsewhere (NaN included). *)
Theorem loss_reads_only_masked_pixels
  (xsqrt : xq -> xq) (xpow : xq -> Q -> xq)
  (self : loss_object) (gt est gt' est' : tensor4 xq) (mask : tensor4 bool)
  (b c h w : nat) :
  shape4 gt = (b, c, h, w) ->
  shape4 gt' = (b, c, h, w) ->
  (keep_inside (EPE_map xsqrt h w gt est) mask
   = keep_inside (EPE_map xsqrt h w gt' est') mask ->
   EPE_call xsqrt self gt est (Some mask) = EPE_call xsqrt self gt' est' (Some mask)) /\
  (keep_inside (L1_map h w gt est) mask = keep_inside (L1_map h w gt' est') mask ->
   L1_call self gt est (Some mask) = L1_call self gt' est' (Some mask)) /\
  (keep_inside (Charbonnier_map xpow h w gt est) mask
   = keep_inside (Charbonnier_map xpow h w gt' est') mask ->
   L1Charbonnier_call xpow self gt est (Some mask)
   = L1Charbonnier_call xpow self gt' est' (Some mask)).
Proof.
  intros Hshape Hshape'. unfold EPE_call, L1_call, L1Charbonnier_call.
  rewrite Hshape, Hshape'. cbv zeta. simpl rebind_mask.
  repeat split; intros Hkeep;
    match goal with
    | |- normalized_branch _ _ _ _ ?E _ = normalized_branch _ _ _ _ ?E' _ =>
        rewrite <- (normalized_branch_keep_inside self b h w E mask),
                <- (normalized_branch_keep_inside self b h w E' mask), Hkeep;
        reflexivity
    end.
Qed.

Lemma loss_reads_only_masked_pixels_witness :
  L1_call sum_normalized_loss nan_gt nan_est (Some first_pixel_mask)
  = L1_call sum_normalized_loss nan_gt other_est (Some first_pixel_mask).
Proof.
  refine (proj1 (proj2
    (@loss_reads_only_masked_pixels (fun x => x) (fun x _ => x) sum_normalized_loss
       nan_gt nan_est nan_gt other_est first_pixel_mask 1 2 1 2 _ _)) _).
  - reflexivity.
  - reflexivity.
  - reflexivity.
Defined.

(* --------------------------------------------------------------------- *)
(** ** The sparse max-pool at the size of its input *)
(* --------------------------------------------------------------------- *)

Lemma map_nth_seq_id (A : Type) (d : A) (l : list A) :
  map (fun i => nth i l d) (seq 0 (length l)) = l.
Proof.
  induction l as [| a l IH]; simpl; [reflexivity |]. f_equal.
  rewrite <- seq_shift, map_map. exact IH.
Qed.

Lemma window_single (A : Type) (d : A) (i : nat) (l : list A) :
  (i < length l)%nat -> Torch.window i (length l) l = [nth i l d].
Proof.
  intros Hi. unfold Torch.window, Torch.start_index, Torch.end_index. cbv zeta.
  assert (Hn : length l <> 0%nat) by lia.
  rewrite Nat.div_mul by exact Hn.
  replace ((i + 1) * length l + length l - 1)%nat
    with ((length l - 1) + (i + 1) * length l)%nat by lia.
  rewrite Nat.div_add by exact Hn.
  rewrite Nat.div_small by lia.
  replace (0 + (i + 1) - i)%nat with 1%nat by lia.
  revert i Hi. clear Hn. induction l as [| a l IH]; intros i Hi; simpl in *; [lia |].
  destruct i as [| i]; simpl.
  - reflexivity.
  - apply IH. lia.
Qed.

Lemma adaptive_max_pool2d_own_size (h w : nat) (im : image Q) :
  image_wf h w im -> Torch.adaptive_max_pool2d_image im (h, w) = im.
Proof.
  intros Hwf. pose proof Hwf as [Hlen Hrows].
  unfold Torch.adaptive_max_pool2d_image.
  etransitivity; [| apply (map_nth_seq_id [] im)]. rewrite Hlen.
  apply map_ext_in. intros oy Hoy. apply in_seq in Hoy.
  assert (Hrow : length (nth oy im []) = w) by (apply (image_wf_row Hwf); lia).
  etransitivity; [| apply (map_nth_seq_id 0 (nth oy im []))]. rewrite Hrow.
  apply map_ext_in. intros ox Hox. apply in_seq in Hox.
  rewrite <- Hlen. rewrite (@window_single _ [] oy im) by lia. simpl.
  rewrite app_nil_r. rewrite <- Hrow.
  rewrite (@window_single _ 0 ox (nth oy im [])) by lia. reflexivity.
Qed.

Lemma zip_with_self_map (A B C : Type) (F : A -> B -> C) (K : A -> B) (H : A -> C)
      (l : list A) :
  (forall x, F x (K x) = H x) -> zip_with F l (map K l) = map H l.
Proof.
  intros E. induction l as [| x l IH]; simpl; [reflexivity |]. now rewrite IH, E.
Qed.

Lemma zip_with_map_map_ext (A B C D : Type) (F : B -> C -> D) (G : A -> B) (K : A -> C)
      (H : A -> D) (l : list A) :
  (forall x, F (G x) (K x) = H x) -> zip_with F (map G l) (map K l) = map H l.
Proof.
  intros E. induction l as [| x l IH]; simpl; [reflexivity |]. now rewrite IH, E.
Qed.

Lemma tzip_self_tmap (A B C : Type) (f : A -> B -> C) (k : A -> B) (t : tensor4 A) :
  tzip f t (tmap k t) = tmap (fun x => f x (k x)) t.
Proof.
  unfold tzip, tzip3, izip, tmap, tmap3, imap.
  apply zip_with_self_map. intros s.
  apply zip_with_self_map. intros im.
  apply zip_with_self_map. intros r.
  apply zip_with_self_map. reflexivity.
Qed.

Lemma tzip_tmap_tmap (A B C D : Type) (f : B -> C -> D) (g : A -> B) (k : A -> C)
      (t : tensor4 A) :
  tzip f (tmap g t) (tmap k t) = tmap (fun x => f (g x) (k x)) t.
Proof.
  unfold tzip, tzip3, izip, tmap, tmap3, imap.
  apply zip_with_map_map_ext. intros s.
  apply zip_with_map_map_ext. intros im.
  apply zip_with_map_map_ext. intros r.
  apply zip_with_map_map_ext. reflexivity.
Qed.

Lemma adaptive_max_pool2d_tmap_own_size (h w : nat) (k : Q -> Q) (t : tensor4 Q) :
  spatial h w t -> Torch.adaptive_max_pool2d (tmap k t) (h, w) = tmap k t.
Proof.
  intros Hsp. unfold Torch.adaptive_max_pool2d, tmap, tmap3.
  rewrite !map_map. apply map_ext_in. intros s Hs.
  rewrite !map_map. apply map_ext_in. intros im Him.
  apply adaptive_max_pool2d_own_size.
  unfold spatial in Hsp. rewrite Forall_forall in Hsp.
  specialize (Hsp s Hs). rewrite Forall_forall in Hsp.
  destruct (Hsp im Him) as [Hlen Hrows].
  split.
  - unfold imap. now rewrite length_map.
  - unfold imap. apply Forall_map. revert Hrows. apply Forall_impl.
    intros r Hr. now rewrite length_map.
Qed.

(** X7. Pooling to the size the input already has changes nothing:
    [sparse_max_pool(input, (h, w))] of a tensor of [h] x [w] images has the
    entries of the input. *)
Theorem sparse_max_pool_at_own_size (h w : nat) (input : tensor4 Q) :
  spatial h w input ->
  teq (sparse_max_pool input (h, w)) input.
Proof.
  intros Hsp.
  unfold sparse_max_pool, sparse_max_pool_positive_part, sparse_max_pool_negative_part.
  cbv zeta.
  rewrite tzip_self_tmap, tzip_tmap_tmap.
  rewrite !(adaptive_max_pool2d_tmap_own_size _ Hsp).
  rewrite tzip_tmap_tmap.
  unfold teq, teq3, ieq, tmap, tmap3, imap.
  apply Forall2_map_l_same, Forall_forall. intros s _.
  apply Forall2_map_l_same, Forall_forall. intros im _.
  apply Forall2_map_l_same, Forall_forall. intros r _.
  apply Forall2_map_l_same, Forall_forall. intros x _.
  unfold gt0_float, lt0_float.
  destruct (Qlt_le_dec 0 x), (Qlt_le_dec x 0); lra.
Qed.

Lemma sparse_max_pool_at_own_size_witness :
  teq (sparse_max_pool sparse_flow_4x4 (4, 4)%nat) sparse_flow_4x4.
Proof.
  apply (@sparse_max_pool_at_own_size 4 4 sparse_flow_4x4).
  repeat constructor.
Defined.

(* --------------------------------------------------------------------- *)
(** ** The totals written into [stats] *)
(* --------------------------------------------------------------------- *)

Lemma lookup_assign_same (V : Type) (k : string) (v : V) (d : dict V) :
  lookup k (assign k v d) = Some v.
Proof.
  induction d as [| [k' v'] d IH]; simpl.
  - now rewrite String.eqb_refl.
  - destruct (String.eqb k k') eqn:E; simpl.
    + now rewrite String.eqb_refl.
    + now rewrite E.
Qed.

Lemma lookup_assign_other (V : Type) (k k' : string) (v : V) (d : dict V) :
  k <> k' -> lookup k (assign k' v d) = lookup k d.
Proof.
  intros Hne. induction d as [| [k0 v0] d IH]; simpl.
  - destruct (String.eqb_spec k k') as [-> | _]; [contradiction | reflexivity].
  - destruct (String.eqb_spec k' k0) as [-> | Hk0]; simpl.
    + destruct (String.eqb_spec k k0) as [-> | _]; [contradiction | reflexivity].
    + destruct (String.eqb_spec k k0); [reflexivity | exact IH].
Qed.

Lemma record_totals_lookup (stats : dict xq) (tu ts loss : xq) :
  lookup "Loss_w_bipath/total" (record_totals stats tu ts loss) = Some tu /\
  lookup "Loss_warp_sup/total" (record_totals stats tu ts loss) = Some ts /\
  lookup "Loss/total" (record_totals stats tu ts loss) = Some loss /\
  forall k, k <> "Loss_w_bipath/total"%string -> k <> "Loss_warp_sup/total"%string ->
            k <> "Loss/total"%string ->
            lookup k (record_totals stats tu ts loss) = lookup k stats.
Proof.
  unfold record_totals. repeat split.
  - rewrite !lookup_assign_other by discriminate. apply lookup_assign_same.
  - rewrite lookup_assign_other by discriminate. apply lookup_assign_same.
  - apply lookup_assign_same.
  - intros k H1 H2 H3. now rewrite !lookup_assign_other.
Qed.

(** X8. When [weights_self_supervised_and_unsupervised] returns, the
    returned [stats] hold the weighted unsupervised term under
    'Loss_w_bipath/total', the weighted self-supervised term under
    'Loss_warp_sup/total' and the returned loss, their sum, under
    'Loss/total'; every other entry of [stats] is as it was.  With constant
    weights the terms are [w_bipath_constant * loss_un] and
    [warp_supervision_constant * loss_su]; otherwise they are
    [loss_un * u_l_w] and [loss_su * s_l_w] for the two adaptive factors. *)
Theorem totals_are_recorded
  (loss_su loss_un : xq) (stats : dict xq) (loss_weight : dict Q)
  (apply_constant_weights : bool) (loss : xq) (stats' : dict xq) :
  weights_self_supervised_and_unsupervised loss_su loss_un stats loss_weight
                                           apply_constant_weights
    = Ok (loss, stats') ->
  exists term_un term_su,
    (if apply_constant_weights
     then exists c_un c_su,
            lookup "w_bipath_constant" loss_weight = Some c_un /\
            lookup "warp_supervision_constant" loss_weight = Some c_su /\
            term_un = xmul (Fin c_un) loss_un /\
            term_su = xmul (Fin c_su) loss_su
     else exists w_su w_un,
            lookup "warp_supervision" loss_weight = Some w_su /\
            lookup "w_bipath" loss_weight = Some w_un /\
            term_un = xmul loss_un (fst (adaptive_weights loss_su loss_un (w_su / w_un))) /\
            term_su = xmul loss_su (snd (adaptive_weights loss_su loss_un (w_su / w_un)))) /\
    lookup "Loss_w_bipath/total" stats' = Some term_un /\
    lookup "Loss_warp_sup/total" stats' = Some term_su /\
    lookup "Loss/total" stats' = Some loss /\
    loss = xadd term_un term_su /\
    forall k, k <> "Loss_w_bipath/total"%string -> k <> "Loss_warp_sup/total"%string ->
              k <> "Loss/total"%string ->
              lookup k stats' = lookup k stats.
Proof.
  unfold weights_self_supervised_and_unsupervised.
  destruct apply_constant_weights; simpl negb; cbv iota.
  - destruct (lookup "w_bipath_constant" loss_weight) as [c_un |]; [| discriminate].
    destruct (lookup "warp_supervision_constant" loss_weight) as [c_su |]; [| discriminate].
    cbv zeta. intros H. injection H as <- <-.
    destruct (record_totals_lookup stats (xmul (Fin c_un) loss_un) (xmul (Fin c_su) loss_su)
                (xadd (xmul (Fin c_un) loss_un) (xmul (Fin c_su) loss_su)))
      as (H1 & H2 & H3 & H4).
    exists (xmul (Fin c_un) loss_un), (xmul (Fin c_su) loss_su).
    split; [exists c_un, c_su; repeat split |].
    repeat split; assumption.
  - destruct (lookup "warp_supervision" loss_weight) as [w_su |]; [| discriminate].
    destruct (lookup "w_bipath" loss_weight) as [w_un |]; [| discriminate].
    destruct (Qeq_bool w_un 0); [discriminate |].
    cbv zeta.
    destruct (adaptive_weights loss_su loss_un (w_su / w_un)) as [u_l_w s_l_w] eqn:Hw.
    intros H. injection H as <- <-.
    destruct (record_totals_lookup stats (xmul loss_un u_l_w) (xmul loss_su s_l_w)
                (xadd (xmul loss_un u_l_w) (xmul loss_su s_l_w)))
      as (H1 & H2 & H3 & H4).
    exists (xmul loss_un u_l_w), (xmul loss_su s_l_w).
    split; [exists w_su, w_un; rewrite Hw; repeat split |].
    repeat split; assumption.
Qed.

(** X8 with constant weights 2 and 1 and the losses 1 (self-supervised) and
    2 (unsupervised): the terms are 4 and 1, the loss is 5, and the entry
    'Loss/total' of an earlier iteration is replaced. *)
Lemma totals_are_recorded_witness :
  exists term_un term_su,
    (exists c_un c_su,
       lookup "w_bipath_constant" constant_weights = Some c_un /\
       lookup "warp_supervision_constant" constant_weights = Some c_su /\
       term_un = xmul (Fin c_un) (Fin 2) /\
       term_su = xmul (Fin c_su) (Fin 1)) /\
    lookup "Loss_w_bipath/total" (stale_stats_after) = Some term_un /\
    lookup "Loss_warp_sup/total" (stale_stats_after) = Some term_su /\
    lookup "Loss/total" (stale_stats_after) = Some (Fin 5) /\
    Fin 5 = xadd term_un term_su /\
    forall k, k <> "Loss_w_bipath/total"%string -> k <> "Loss_warp_sup/total"%string ->
              k <> "Loss/total"%string ->
              lookup k (stale_stats_after) = lookup k stale_stats.
Proof.
  apply (@totals_are_recorded (Fin 1) (Fin 2) stale_stats constant_weights true
                              (Fin 5) stale_stats_after).
  reflexivity.
Defined.

(* --------------------------------------------------------------------- *)
(** ** What [WBipathLoss.__call__] returns and what it leaves behind *)
(* --------------------------------------------------------------------- *)

Section WBipathOutput.
Variable warp : tensor4 Q -> tensor4 Q -> tensor4 Q.
Variable Stats : Type.
Variable objective : list (tensor4 Q) -> tensor4 Q -> list (tensor3 bool) -> xq * Stats.
Variable self : WBipathLoss.

Lemma level_mask_cyclic (h w : nat) (flow_map : tensor4 Q) (mask_used : option (tensor3 bool))
      (a c : ref) (s : store) :
  match mask_cyclic (fst (level warp self h w flow_map mask_used a c s)) with
  | Some _ => compute_cyclic_consistency self = true
  | None => compute_cyclic_consistency self = false
  end.
Proof.
  unfold level, bind, read, new, ret, times, detach, imul_channel, plus.
  destruct (shape4 (nth a s [])) as [[[b c'] h_] w_].
  destruct (detach_flow_for_warping self);
    destruct (compute_cyclic_consistency self); reflexivity.
Qed.

Lemma levels_shape (h w : nat) (flow_map : tensor4 Q) (mask_used : option (tensor3 bool)) :
  forall (tp2s s2t : list ref) (s : store),
    length (fst (levels warp self h w flow_map mask_used tp2s s2t s))
      = Nat.min (length tp2s) (length s2t) /\
    Forall (fun r => match mask_cyclic r with
                     | Some _ => compute_cyclic_consistency self = true
                     | None => compute_cyclic_consistency self = false
                     end)
           (fst (levels warp self h w flow_map mask_used tp2s s2t s)).
Proof.
  induction tp2s as [| a tp2s IH]; intros s2t s.
  - simpl. split; [reflexivity | constructor].
  - destruct s2t as [| c s2t]; [simpl; split; [reflexivity | constructor] |].
    simpl levels. unfold bind, ret.
    pose proof (level_mask_cyclic h w flow_map mask_used a c s) as Hr.
    destruct (level warp self h w flow_map mask_used a c s) as [r s1].
    specialize (IH s2t s1).
    destruct (levels warp self h w flow_map mask_used tp2s s2t s1) as [rs s2].
    simpl in *. destruct IH as [Hlen Hall].
    split; [now rewrite Hlen | constructor; assumption].
Qed.

Lemma mask_cyclic_list_length (rs : list level_result) :
  compute_cyclic_consistency self = true ->
  Forall (fun r => match mask_cyclic r with
                   | Some _ => compute_cyclic_consistency self = true
                   | None => compute_cyclic_consistency self = false
                   end) rs ->
  length (concat (map (fun r => match mask_cyclic r with Some m => [m] | None => [] end) rs))
  = length rs.
Proof.
  intros Hon. induction 1 as [| r rs Hr _ IH]; simpl; [reflexivity |].
  rewrite length_app, IH.
  destruct (mask_cyclic r); [reflexivity | congruence].
Qed.

Lemma levels_store (h w : nat) (flow_map : tensor4 Q) (mask_used : option (tensor3 bool)) :
  forall (tp2s s2t : list ref) (s : store),
    Forall (fun r => r < length s)%nat tp2s ->
    Forall (fun r => r < length s)%nat s2t ->
    exists more,
      snd (levels warp self h w flow_map mask_used tp2s s2t s) = s ++ more /\
      length more = (3 * Nat.min (length tp2s) (length s2t))%nat.
Proof.
  induction tp2s as [| a tp2s IH]; intros s2t s Htp Hst.
  - exists []. simpl. now rewrite app_nil_r.
  - destruct s2t as [| c s2t]; [exists []; simpl; now rewrite app_nil_r |].
    inversion Htp as [| ? ? Ha Htp']; subst. inversion Hst as [| ? ? Hc Hst']; subst.
    simpl levels. unfold bind, ret.
    rewrite (@level_run warp self h w flow_map mask_used a c s Ha Hc).
    set (s' := s ++ _).
    assert (Hgrow : forall r, (r < length s)%nat -> (r < length s')%nat).
    { intros r Hr. unfold s'. rewrite length_app. lia. }
    destruct (IH s2t s') as (more & Hmore & Hlen).
    { eapply Forall_impl; [| exact Htp']. exact Hgrow. }
    { eapply Forall_impl; [| exact Hst']. exact Hgrow. }
    destruct (levels warp self h w flow_map mask_used tp2s s2t s') as [rs s2].
    simpl in *. subst s2. unfold s'. rewrite <- app_assoc.
    eexists. split; [reflexivity |].
    rewrite length_app, Hlen. simpl. lia.
Qed.

End WBipathOutput.

(** X9. The lists that [WBipathLoss.__call__] returns have one entry per
    pair of estimated flows: when the two lists of flows differ in length,
    [zip] drops the levels without a partner and nothing is raised.
    'mask_cyclic' is in [output] exactly when the cyclic-consistency check is
    enabled, and then it has one entry per level as well. *)
Theorem call_returns_one_entry_per_level
  (warp : tensor4 Q -> tensor4 Q -> tensor4 Q) (Stats : Type)
  (objective : list (tensor4 Q) -> tensor4 Q -> list (tensor3 bool) -> xq * Stats)
  (self : WBipathLoss) (flow_map : tensor4 Q) (mask_used : option (tensor3 bool))
  (tp st : flows) (s : store) :
  length (mask_training (snd (fst (call warp objective self flow_map mask_used tp st s))))
    = Nat.min (length (as_list tp)) (length (as_list st)) /\
  length (estimated_flow_target_prime_to_target_through_composition
            (snd (fst (call warp objective self flow_map mask_used tp st s))))
    = Nat.min (length (as_list tp)) (length (as_list st)) /\
  match output_mask_cyclic (snd (fst (call warp objective self flow_map mask_used tp st s))) with
  | Some l => compute_cyclic_consistency self = true /\
              length l = Nat.min (length (as_list tp)) (length (as_list st))
  | None => compute_cyclic_consistency self = false
  end.
Proof.
  destruct (call_output warp objective self flow_map mask_used tp st s) as (Hm & Hc & _).
  rewrite Hm, Hc, !length_map.
  destruct (levels_shape warp self (snd (fst (shape4 flow_map))) (snd (shape4 flow_map))
                         flow_map mask_used (as_list tp) (as_list st) s) as [Hlen Hall].
  split; [exact Hlen |]. split; [exact Hlen |].
  unfold call. destruct (shape4 flow_map) as [[[b0 c0] h] w]. simpl fst in *. simpl snd in *.
  unfold bind, ret.
  destruct (levels warp self h w flow_map mask_used (as_list tp) (as_list st) s) as [rs s1].
  destruct (read_all (map (@estimated_flow) rs) s1) as [composed s2].
  destruct (objective composed flow_map (map (@mask) rs)) as [loss_un stats_un].
  simpl in *.
  destruct (compute_cyclic_consistency self) eqn:Hflag.
  - split; [reflexivity |]. rewrite <- Hlen.
    apply (@mask_cyclic_list_length self rs Hflag). now rewrite Hflag.
  - reflexivity.
Qed.

(** X10. [WBipathLoss.__call__] changes no tensor that existed before the
    call: at every level the two in-place multiplications go to the copy that
    [* 1.0] made, not to the estimated flow it was made from nor to any other
    tensor.  The warp operator and the objective are taken as functions of
    the values of their arguments. *)
Theorem call_changes_no_existing_tensor
  (warp : tensor4 Q -> tensor4 Q -> tensor4 Q) (Stats : Type)
  (objective : list (tensor4 Q) -> tensor4 Q -> list (tensor3 bool) -> xq * Stats)
  (self : WBipathLoss) (flow_map : tensor4 Q) (mask_used : option (tensor3 bool))
  (tp st : flows) (s : store) (r : ref) :
  Forall (fun r => r < length s)%nat (as_list tp) ->
  Forall (fun r => r < length s)%nat (as_list st) ->
  (r < length s)%nat ->
  nth r (snd (call warp objective self flow_map mask_used tp st s)) [] = nth r s [].
Proof.
  intros Htp Hst Hr.
  destruct (call_output warp objective self flow_map mask_used tp st s) as (_ & _ & Hs).
  rewrite Hs.
  destruct (@levels_store warp self (snd (fst (shape4 flow_map))) (snd (shape4 flow_map))
              flow_map mask_used (as_list tp) (as_list st) s Htp Hst) as (more & -> & _).
  now apply app_nth1.
Qed.

(** X10 at the level of 1x2 pixels: the flow from source to target is at
    reference 1 before and after the call. *)
Lemma call_changes_no_existing_tensor_witness :
  nth 1%nat (snd (call PWCNet.warp example_objective example_loss example_flow_map_2x4
                       None (Many [0%nat]) (One 1%nat) example_store_1x2)) []
  = nth 1%nat example_store_1x2 [].
Proof.
  apply (@call_changes_no_existing_tensor PWCNet.warp unit example_objective example_loss
           example_flow_map_2x4 None (Many [0%nat]) (One 1%nat) example_store_1x2 1%nat).
  - repeat constructor.
  - repeat constructor.
  - simpl. lia.
Defined.

(* --------------------------------------------------------------------- *)
(** ** The cyclic-consistency mask of consistent flows *)
(* --------------------------------------------------------------------- *)

Lemma zip_with_Forall (A B C : Type) (P : A -> Prop) (R : B -> Prop) (T : C -> Prop)
      (f : A -> B -> C) (l : list A) (m : list B) :
  (forall a b, P a -> R b -> T (f a b)) ->
  Forall P l -> Forall R m -> Forall T (zip_with f l m).
Proof.
  intros Hf Hl. revert m. induction Hl as [| a l Ha _ IH]; intros m Hm; simpl; [constructor |].
  destruct Hm as [| b m Hb Hm]; constructor; [now apply Hf | now apply IH].
Qed.

Lemma zip_with_Forall2 (A B C : Type) (R : A -> B -> Prop) (T : C -> Prop)
      (f : A -> B -> C) (l : list A) (m : list B) :
  (forall a b, R a b -> T (f a b)) ->
  Forall2 R l m -> Forall T (zip_with f l m).
Proof.
  intros Hf. induction 1; simpl; constructor; [now apply Hf | assumption].
Qed.

Lemma sum_images_Forall (P : Q -> Prop) (l : tensor3 Q) :
  (forall a b, P a -> P b -> P (a + b)) ->
  all_entries3 P l -> Forall (Forall P) (sum_images l).
Proof.
  intros Hplus Hl. unfold sum_images. destruct Hl as [| x r Hx Hr]; [constructor |].
  revert x Hx. induction Hr as [| y r Hy _ IH]; intros x Hx; simpl; [exact Hx |].
  apply IH. unfold izip.
  apply (zip_with_Forall (P := Forall P) (R := Forall P)); [| exact Hx | exact Hy].
  intros a b Ha Hb.
  apply (zip_with_Forall (P := P) (R := P)); assumption.
Qed.

Lemma length_sq_Forall (P0 P : Q -> Prop) (x : tensor4 Q) :
  (forall v, P0 v -> P (v * v)) ->
  (forall a b, P a -> P b -> P (a + b)) ->
  all_entries P0 x -> all_entries3 P (length_sq x).
Proof.
  intros Hsq Hplus Hx. unfold length_sq, all_entries3.
  apply Forall_map. revert Hx. apply Forall_impl. intros sample Hs.
  apply sum_images_Forall; [exact Hplus |].
  unfold tmap3, imap, all_entries3.
  apply Forall_map. revert Hs. apply Forall_impl. intros im Him.
  apply Forall_map. revert Him. apply Forall_impl. intros row Hrow.
  apply Forall_map. revert Hrow. apply Forall_impl. exact Hsq.
Qed.

Lemma all_entries_trivial (x : tensor4 Q) : all_entries (fun _ => True) x.
Proof.
  unfold all_entries, all_entries3.
  repeat (apply Forall_forall; intros ? _). exact I.
Qed.

Lemma length_sq_nonneg (x : tensor4 Q) : all_entries3 (fun v => 0 <= v) (length_sq x).
Proof.
  apply (@length_sq_Forall (fun _ => True) (fun v => 0 <= v)).
  - intros v _. nra.
  - intros a b Ha Hb. lra.
  - apply all_entries_trivial.
Qed.

Lemma tzip3_Forall (A B C : Type) (P : A -> Prop) (R : B -> Prop) (T : C -> Prop)
      (f : A -> B -> C) (x : tensor3 A) (y : tensor3 B) :
  (forall a b, P a -> R b -> T (f a b)) ->
  all_entries3 P x -> all_entries3 R y -> all_entries3 T (tzip3 f x y).
Proof.
  intros Hf. unfold all_entries3, tzip3, izip.
  apply zip_with_Forall. intros im im'. apply zip_with_Forall. intros r r'.
  apply zip_with_Forall. exact Hf.
Qed.

(** X11. With [alpha_1 >= 0] and [alpha_2 >= 0], the cyclic-consistency
    check marks no pixel as occluded where the composition of the two
    estimated flows is the synthetic flow: if the sum of the estimated flow
    and the warped flow equals the synthetic flow of the level everywhere,
    every entry of the mask is true. *)
Theorem consistent_flows_are_not_occluded
  (self : WBipathLoss)
  (estimated_flow_target_prime_to_source_per_level
     warping_flow_source_to_target synthetic_flow : tensor4 Q) :
  0 <= alpha_1 self ->
  0 <= alpha_2 self ->
  teq (tzip Qplus estimated_flow_target_prime_to_source_per_level
            warping_flow_source_to_target)
      synthetic_flow ->
  all_entries3 (fun m => m = true)
               (not_occluded self estimated_flow_target_prime_to_source_per_level
                             warping_flow_source_to_target synthetic_flow).
Proof.
  intros Ha1 Ha2 Hteq. unfold not_occluded. cbv zeta.
  unfold tmap3 at 1, imap, all_entries3.
  apply Forall_map. apply Forall_forall. intros im Him.
  apply Forall_map. apply Forall_forall. intros row Hrow.
  apply Forall_map. apply Forall_forall. intros v Hv.
  assert (Hall : all_entries3 (fun m => m = false)
    (tzip3 (fun d t => if Qlt_le_dec t d then true else false)
       (length_sq (tzip Qminus
                     (tzip Qplus estimated_flow_target_prime_to_source_per_level
                           warping_flow_source_to_target) synthetic_flow))
       (tmap3 (fun m => alpha_1 self * m + alpha_2 self)
          (tzip3 Qplus
             (tzip3 Qplus (length_sq estimated_flow_target_prime_to_source_per_level)
                    (length_sq warping_flow_source_to_target))
             (length_sq synthetic_flow))))).
  { apply (@tzip3_Forall _ _ _ (fun d => d == 0) (fun t => 0 <= t)).
    - intros d t Hd Ht. destruct (Qlt_le_dec t d); [lra | reflexivity].
    - apply (@length_sq_Forall (fun v => v == 0) (fun v => v == 0)).
      + intros v0 H0. rewrite H0. ring.
      + intros a b Ha Hb. rewrite Ha, Hb. ring.
      + unfold all_entries, all_entries3, tzip, tzip3, izip.
        revert Hteq. unfold teq, teq3, ieq.
        apply zip_with_Forall2. intros s s'.
        apply zip_with_Forall2. intros i i'.
        apply zip_with_Forall2. intros r r'.
        apply zip_with_Forall2. intros a b Hab. rewrite Hab. ring.
    - unfold tmap3, imap, all_entries3.
      pose proof (@tzip3_Forall _ _ _ (fun v => 0 <= v) (fun v => 0 <= v) (fun v => 0 <= v)
                    Qplus
                    (tzip3 Qplus (length_sq estimated_flow_target_prime_to_source_per_level)
                           (length_sq warping_flow_source_to_target))
                    (length_sq synthetic_flow)) as Hmag.
      assert (Hsum : forall a b : Q, 0 <= a -> 0 <= b -> 0 <= a + b) by (intros; lra).
      specialize (Hmag Hsum).
      assert (H12 : all_entries3 (fun v => 0 <= v)
                (tzip3 Qplus (length_sq estimated_flow_target_prime_to_source_per_level)
                       (length_sq warping_flow_source_to_target))).
      { apply (@tzip3_Forall _ _ _ (fun v => 0 <= v) (fun v => 0 <= v)); [exact Hsum | |];
          apply length_sq_nonneg. }
      specialize (Hmag H12 (length_sq_nonneg synthetic_flow)).
      apply Forall_map. revert Hmag. apply Forall_impl. intros i Hi.
      apply Forall_map. revert Hi. apply Forall_impl. intros r Hr.
      apply Forall_map. revert Hr. apply Forall_impl. intros m Hm. nra. }
  unfold all_entries3 in Hall. rewrite Forall_forall in Hall.
  specialize (Hall im Him). rewrite Forall_forall in Hall.
  specialize (Hall row Hrow). rewrite Forall_forall in Hall.
  rewrite (Hall v Hv). reflexivity.
Qed.

Lemma consistent_flows_are_not_occluded_witness :
  all_entries3 (fun m => m = true)
               (not_occluded example_loss consistent_first consistent_second consistent_sum).
Proof.
  apply (@consistent_flows_are_not_occluded example_loss
           consistent_first consistent_second consistent_sum).
  - vm_compute. discriminate.
  - vm_compute. discriminate.
  - repeat constructor.
Defined.

(* --------------------------------------------------------------------- *)
(** ** The in-range mask of the warp *)
(* --------------------------------------------------------------------- *)

(** X12. After the two writes [mask[mask < 0.9999] = 0] and
    [mask[mask > 0] = 1], every entry of the mask that [warp] multiplies
    its output with is exactly 0 or exactly 1, for any image and any flow. *)
Theorem warp_mask_is_binary (x flo : tensor4 Q) :
  all_entries (fun m => m = 0 \/ m = 1) (PWCNet.warp_mask x flo).
Proof.
  unfold PWCNet.warp_mask. destruct (shape4 x) as [[[B C] H] W]. cbv zeta.
  unfold tmap, tmap3, imap. rewrite !map_map.
  unfold all_entries, all_entries3.
  apply Forall_map, Forall_forall. intros s _. rewrite !map_map.
  apply Forall_map, Forall_forall. intros im _. rewrite !map_map.
  apply Forall_map, Forall_forall. intros r _. rewrite !map_map.
  apply Forall_map, Forall_forall. intros m _.
  destruct (Qlt_le_dec m (9999 # 10000)) as [Hlt | Hge].
  - destruct (Qlt_le_dec 0 0) as [H0 | _]; [| now left].
    exfalso. revert H0. apply Qlt_irrefl.
  - destruct (Qlt_le_dec 0 m) as [_ | Hle]; [now right |].
    exfalso. lra.
Qed.

(* --------------------------------------------------------------------- *)
(** ** The inference methods of PWC-Net: sizes and scale factors *)
(* --------------------------------------------------------------------- *)

Lemma int_preprocessed_spec (scale : nat) :
  (int_preprocessed scale mod 64 = 0)%Z /\
  (Z.of_nat scale <= int_preprocessed scale < Z.of_nat scale + 64)%Z.
Proof.
  unfold int_preprocessed.
  set (c := Qceiling (Qnat scale / 64)).
  assert (Hfloor : Qfloor (inject_Z c * 64) = (c * 64)%Z).
  { change 64 with (inject_Z 64). rewrite <- inject_Z_mult. apply Qfloor_Z. }
  rewrite Hfloor. split; [apply Z_mod_mult |].
  pose proof (Qle_ceiling (Qnat scale / 64)) as Hle.
  pose proof (Qceiling_lt (Qnat scale / 64)) as Hlt.
  fold c in Hle, Hlt.
  assert (Hx : Qnat scale / 64 * 64 == Qnat scale) by (field; discriminate).
  assert (H1 : Qnat scale <= inject_Z (c * 64)).
  { rewrite inject_Z_mult. change (inject_Z 64) with 64. lra. }
  assert (H2 : inject_Z (c * 64) < Qnat scale + 64).
  { rewrite inject_Z_mult. change (inject_Z 64) with 64.
    assert (E : inject_Z (c - 1) == inject_Z c - 1)
      by (unfold Z.sub; rewrite inject_Z_plus; reflexivity).
    rewrite E in Hlt. lra. }
  unfold Qnat in H1, H2.
  change 64 with (inject_Z 64) in H2. rewrite <- inject_Z_plus in H2.
  rewrite <- Zle_Qle in H1. rewrite <- Zlt_Qlt in H2. lia.
Qed.

Lemma true_div_nonzero (a b : Q) : ~ b == 0 -> true_div a b = Return (a / b).
Proof.
  intros Hb. unfold true_div.
  destruct (Qeq_bool b 0) eqn:E; [| reflexivity].
  apply Qeq_bool_eq in E. contradiction.
Qed.

Lemma preprocessing_ratio (scale : nat) :
  (0 < scale)%nat ->
  0 < inject_Z (int_preprocessed scale) /\
  0 < Qnat scale / inject_Z (int_preprocessed scale) <= 1.
Proof.
  intros Hpos. destruct (int_preprocessed_spec scale) as [_ [Hlo _]].
  assert (Hs : 0 < Qnat scale) by now apply Qnat_pos.
  assert (Hle : Qnat scale <= inject_Z (int_preprocessed scale))
    by (unfold Qnat; now rewrite <- Zle_Qle).
  assert (Hp : 0 < inject_Z (int_preprocessed scale)) by lra.
  split; [exact Hp |]. split.
  - apply Qlt_shift_div_l; [exact Hp | lra].
  - apply Qle_shift_div_r; [exact Hp | lra].
Qed.

Section PWCNetMethods.
Variable div : Q.
Variable forward : tensor4 Q -> tensor4 Q -> list (tensor4 Q).
Variable resize_to_BGR : Z * Z -> tensor4 Q -> tensor4 Q -> tensor4 Q * tensor4 Q.

Lemma pre_process_data_run (source_img target_img : tensor4 Q) (b c h w : nat) :
  shape4 target_img = (b, c, h, w) -> (0 < h)%nat -> (0 < w)%nat ->
  pre_process_data resize_to_BGR source_img target_img
  = Return (fst (resize_to_BGR (int_preprocessed h, int_preprocessed w) source_img target_img),
            snd (resize_to_BGR (int_preprocessed h, int_preprocessed w) source_img target_img),
            Qnat w / inject_Z (int_preprocessed w),
            Qnat h / inject_Z (int_preprocessed h)).
Proof.
  intros Hshape Hh Hw. unfold pre_process_data. rewrite Hshape. cbv zeta.
  destruct (resize_to_BGR (int_preprocessed h, int_preprocessed w) source_img target_img)
    as [s t].
  destruct (preprocessing_ratio Hh) as [Hph _].
  destruct (preprocessing_ratio Hw) as [Hpw _].
  rewrite !true_div_nonzero by lra. reflexivity.
Qed.

Lemma interpolate_spatial (t : tensor4 Q) (oh ow : nat) :
  spatial oh ow (Torch.interpolate t (oh, ow)).
Proof.
  unfold spatial, Torch.interpolate.
  apply Forall_map, Forall_forall. intros s _.
  apply Forall_map, Forall_forall. intros im _.
  unfold Torch.interpolate_image. cbv zeta. split.
  - now rewrite length_map, length_seq.
  - apply Forall_map, Forall_forall. intros oy _.
    now rewrite length_map, length_seq.
Qed.

Lemma map_at_Forall (A : Type) (P : A -> Prop) (f : A -> A) (c : nat) (l : list A) :
  (forall a, P a -> P (f a)) -> Forall P l -> Forall P (map_at c f l).
Proof.
  intros Hf Hl. revert c. induction Hl as [| x l Hx Hl IH]; intros c; simpl.
  - destruct c; constructor.
  - destruct c; constructor; auto.
Qed.

Lemma scale_channel_spatial (h w c : nat) (k : Q) (t : tensor4 Q) :
  spatial h w t -> spatial h w (scale_channel c k t).
Proof.
  unfold spatial, scale_channel, map_channel. intros Ht.
  apply Forall_map. revert Ht. apply Forall_impl. intros s Hs.
  apply map_at_Forall; [| exact Hs].
  intros im [Hlen Hrows]. unfold imap. split.
  - now rewrite length_map.
  - apply Forall_map. revert Hrows. apply Forall_impl.
    intros r Hr. now rewrite length_map.
Qed.

End PWCNetMethods.

(** X13. The size the images are resized to before they enter the network
    is the least multiple of 64 that is not below the size of the target
    image: it is divisible by 64, at least the size, and less than 64 above
    it. *)
Theorem preprocessed_size_is_next_multiple_of_64 (scale : nat) :
  (int_preprocessed scale mod 64 = 0)%Z /\
  (Z.of_nat scale <= int_preprocessed scale)%Z /\
  (int_preprocessed scale < Z.of_nat scale + 64)%Z.
Proof.
  destruct (int_preprocessed_spec scale) as [Hmod [Hlo Hhi]]. repeat split; assumption.
Qed.

(** X14. For a target image with at least one pixel, [pre_process_data]
    returns the resized images with two ratios [w / W'] and [h / H'] that lie
    in (0, 1]: the flow of the network is never scaled up by them. *)
Theorem pre_process_data_ratios
  (resize_to_BGR : Z * Z -> tensor4 Q -> tensor4 Q -> tensor4 Q * tensor4 Q)
  (source_img target_img : tensor4 Q) (b c h w : nat) :
  shape4 target_img = (b, c, h, w) ->
  (0 < h)%nat -> (0 < w)%nat ->
  exists ratio_x ratio_y,
    pre_process_data resize_to_BGR source_img target_img
    = Return (fst (resize_to_BGR (int_preprocessed h, int_preprocessed w)
                                 source_img target_img),
              snd (resize_to_BGR (int_preprocessed h, int_preprocessed w)
                                 source_img target_img),
              ratio_x, ratio_y) /\
    0 < ratio_x /\ ratio_x <= 1 /\ 0 < ratio_y /\ ratio_y <= 1 /\
    ratio_x * inject_Z (int_preprocessed w) == Qnat w /\
    ratio_y * inject_Z (int_preprocessed h) == Qnat h.
Proof.
  intros Hshape Hh Hw.
  exists (Qnat w / inject_Z (int_preprocessed w)), (Qnat h / inject_Z (int_preprocessed h)).
  destruct (preprocessing_ratio Hh) as [Hph [Hh0 Hh1]].
  destruct (preprocessing_ratio Hw) as [Hpw [Hw0 Hw1]].
  split; [now apply pre_process_data_run with (b := b) (c := c) |].
  repeat split; try assumption; field; lra.
Qed.

Lemma pre_process_data_ratios_witness :
  exists ratio_x ratio_y,
    pre_process_data example_resize_to_BGR image_4x4 image_4x4
    = Return (fst (example_resize_to_BGR (int_preprocessed 4, int_preprocessed 4)
                                         image_4x4 image_4x4),
              snd (example_resize_to_BGR (int_preprocessed 4, int_preprocessed 4)
                                         image_4x4 image_4x4),
              ratio_x, ratio_y) /\
    0 < ratio_x /\ ratio_x <= 1 /\ 0 < ratio_y /\ ratio_y <= 1 /\
    ratio_x * inject_Z (int_preprocessed 4) == Qnat 4 /\
    ratio_y * inject_Z (int_preprocessed 4) == Qnat 4.
Proof.
  apply (@pre_process_data_ratios example_resize_to_BGR image_4x4 image_4x4
           (fst (fst (fst (shape4 image_4x4)))) (snd (fst (fst (shape4 image_4x4)))) 4 4).
  - reflexivity.
  - lia.
  - lia.
Defined.

(** X15. [estimate_flow] returns a flow of the size of the target image
    whatever [output_shape] and [scaling] are: the requested shape enters the
    two scale factors only, and the flow is interpolated to [(h_scale,
    w_scale)] in both branches. *)
Theorem estimate_flow_has_target_size
  (div : Q) (forward : tensor4 Q -> tensor4 Q -> list (tensor4 Q))
  (resize_to_BGR : Z * Z -> tensor4 Q -> tensor4 Q -> tensor4 Q * tensor4 Q)
  (source_img target_img : tensor4 Q) (output_shape : option (Z * Z)) (scaling : Q)
  (b c h w : nat) :
  shape4 target_img = (b, c, h, w) ->
  (0 < h)%nat -> (0 < w)%nat ->
  (forall x y, forward x y <> []) ->
  exists flow,
    estimate_flow div forward resize_to_BGR source_img target_img output_shape scaling true
    = Return (ChannelFirst flow) /\
    spatial h w flow.
Proof.
  intros Hshape Hh Hw Hfwd. unfold estimate_flow. rewrite Hshape.
  rewrite (@pre_process_data_run resize_to_BGR source_img target_img b c h w Hshape Hh Hw).
  cbv zeta.
  set (s := fst _). set (t := snd _).
  destruct (last_item (forward t s)) as [last |] eqn:Hlast.
  2:{ exfalso. apply (Hfwd t s). destruct (forward t s) as [| x r]; [reflexivity |].
      exfalso. clear - Hlast. revert x Hlast.
      induction r as [| y r IH]; intros x Hlast; simpl in Hlast; [discriminate |].
      apply (IH y). exact Hlast. }
  pose proof (Qnat_pos Hh) as Hqh. pose proof (Qnat_pos Hw) as Hqw.
  destruct (define_output_shape h w output_shape scaling) as [[oh ow] |].
  - simpl fst. simpl snd. rewrite !true_div_nonzero by lra.
    eexists. split; [reflexivity |].
    apply scale_channel_spatial, scale_channel_spatial, interpolate_spatial.
  - eexists. split; [reflexivity |].
    apply scale_channel_spatial, scale_channel_spatial, interpolate_spatial.
Qed.

Lemma estimate_flow_has_target_size_witness :
  exists flow,
    estimate_flow 20 example_forward example_resize_to_BGR image_4x4 image_4x4
                  (Some (8, 8)%Z) 1 true
    = Return (ChannelFirst flow) /\
    spatial 4 4 flow.
Proof.
  apply (@estimate_flow_has_target_size 20 example_forward example_resize_to_BGR
           image_4x4 image_4x4 (Some (8, 8)%Z) 1
           (fst (fst (fst (shape4 image_4x4)))) (snd (fst (fst (shape4 image_4x4)))) 4 4).
  - reflexivity.
  - lia.
  - lia.
  - intros x y. discriminate.
Defined.

(** X16. The flow of [estimate_flow_and_confidence_map] has the size of
    [output_shape] when one with a positive height and width is passed. *)
Theorem confidence_map_flow_has_output_shape
  (forward : tensor4 Q -> tensor4 Q -> list (tensor4 Q))
  (resize_to_BGR : Z * Z -> tensor4 Q -> tensor4 Q -> tensor4 Q * tensor4 Q)
  (source_img target_img : tensor4 Q) (oh ow : Z) (scaling : Q)
  (b c h w : nat) :
  shape4 target_img = (b, c, h, w) ->
  (0 < h)%nat -> (0 < w)%nat ->
  (forall x y, forward x y <> []) ->
  (0 < oh)%Z -> (0 < ow)%Z ->
  exists flow,
    estimate_flow_and_confidence_map_flow forward resize_to_BGR source_img target_img
                                          (Some (oh, ow)) scaling true
    = Return (ChannelFirst flow) /\
    spatial (Z.to_nat oh) (Z.to_nat ow) flow.
Proof.
  intros Hshape Hh Hw Hfwd Hoh How. unfold estimate_flow_and_confidence_map_flow.
  rewrite Hshape.
  rewrite (@pre_process_data_run resize_to_BGR source_img target_img b c h w Hshape Hh Hw).
  cbv zeta.
  set (s := fst _). set (t := snd _).
  destruct (last_item (forward t s)) as [last |] eqn:Hlast.
  2:{ exfalso. apply (Hfwd t s). destruct (forward t s) as [| x r]; [reflexivity |].
      exfalso. clear - Hlast. revert x Hlast.
      induction r as [| y r IH]; intros x Hlast; simpl in Hlast; [discriminate |].
      apply (IH y). exact Hlast. }
  pose proof (Qnat_pos Hh) as Hqh. pose proof (Qnat_pos Hw) as Hqw.
  simpl define_output_shape. cbv beta iota. simpl fst. simpl snd.
  rewrite !true_div_nonzero by lra.
  destruct (Z.leb_spec oh 0) as [Hneg | _]; [lia |].
  destruct (Z.leb_spec ow 0) as [Hneg | _]; [lia |].
  simpl orb. cbv iota.
  eexists. split; [reflexivity |].
  apply scale_channel_spatial, scale_channel_spatial, interpolate_spatial.
Qed.

Lemma confidence_map_flow_has_output_shape_witness :
  exists flow,
    estimate_flow_and_confidence_map_flow example_forward example_resize_to_BGR
                                          image_4x4 image_4x4 (Some (8, 8)%Z) 1 true
    = Return (ChannelFirst flow) /\
    spatial (Z.to_nat 8) (Z.to_nat 8) flow.
Proof.
  apply (@confidence_map_flow_has_output_shape example_forward example_resize_to_BGR
           image_4x4 image_4x4 8%Z 8%Z 1
           (fst (fst (fst (shape4 image_4x4)))) (snd (fst (fst (shape4 image_4x4)))) 4 4).
  - reflexivity.
  - lia.
  - lia.
  - intros x y. discriminate.
  - lia.
  - lia.
Defined.

Lemma nth_map_Qmult (k : Q) (row : list Q) (x : nat) :
  nth x (map (Qmult k) row) 0 == k * nth x row 0.
Proof.
  revert x. induction row as [| v row IH]; intros x; simpl.
  - destruct x; ring.
  - destruct x; [reflexivity | apply IH].
Qed.

Lemma pix_imap_Qmult (k : Q) (im : image Q) (y x : nat) :
  pix 0 (imap (Qmult k) im) y x == k * pix 0 im y x.
Proof.
  unfold pix, imap, image in *.
  rewrite nth_map_nil by reflexivity. apply nth_map_Qmult.
Qed.

Lemma nth_map_seq_nil (A : Type) (f : nat -> list A) (n i : nat) :
  nth i (map f (seq 0 n)) [] = if Nat.ltb i n then f i else [].
Proof.
  destruct (Nat.ltb_spec i n) as [Hlt | Hge].
  - rewrite (nth_indep _ [] (f 0%nat)) by now rewrite length_map, length_seq.
    rewrite map_nth, seq_nth by exact Hlt. reflexivity.
  - apply nth_overflow. now rewrite length_map, length_seq.
Qed.

Lemma nth_map_seq_Q (f : nat -> Q) (n i : nat) :
  nth i (map f (seq 0 n)) 0 = if Nat.ltb i n then f i else 0.
Proof.
  destruct (Nat.ltb_spec i n) as [Hlt | Hge].
  - rewrite (nth_indep _ 0 (f 0%nat)) by now rewrite length_map, length_seq.
    rewrite map_nth, seq_nth by exact Hlt. reflexivity.
  - apply nth_overflow. now rewrite length_map, length_seq.
Qed.

(** Bilinear interpolation commutes with the multiplication by a constant. *)
Lemma interpolate_image_Qmult (k : Q) (im : image Q) (size : nat * nat) (y x : nat) :
  nth x (nth y (Torch.interpolate_image (imap (Qmult k) im) size) []) 0
  == k * nth x (nth y (Torch.interpolate_image im size) []) 0.
Proof.
  destruct size as [oh ow]. unfold Torch.interpolate_image. cbv zeta.
  rewrite height_imap, width_imap.
  rewrite !nth_map_seq_nil.
  destruct (Nat.ltb y oh); [| destruct x; simpl; ring].
  rewrite !nth_map_seq_Q.
  destruct (Nat.ltb x ow); [| ring].
  rewrite !pix_imap_Qmult. ring.
Qed.

Lemma nth_map_inside (A B : Type) (f : A -> list B) (l : list A) (d : A) (i : nat) :
  nth i (map f l) [] = if Nat.ltb i (length l) then f (nth i l d) else [].
Proof.
  destruct (Nat.ltb_spec i (length l)) as [Hlt | Hge].
  - rewrite (nth_indep _ [] (f d)) by now rewrite length_map.
    apply map_nth.
  - apply nth_overflow. now rewrite length_map.
Qed.

Lemma entry_interpolate_Qmult (k : Q) (t : tensor4 Q) (size : nat * nat) (b c y x : nat) :
  entry (Torch.interpolate (tmap (Qmult k) t) size) b c y x
  == k * entry (Torch.interpolate t size) b c y x.
Proof.
  unfold entry, Torch.interpolate, tmap, tmap3, tensor4, tensor3, image in *.
  rewrite map_map.
  rewrite !(@nth_map_nil _ _ _ t b) by reflexivity.
  cbv beta. rewrite map_map.
  rewrite !(@nth_map_inside _ _ _ (nth b t []) [] c).
  destruct (Nat.ltb c (length (nth b t []))).
  - apply interpolate_image_Qmult.
  - destruct y, x; simpl; ring.
Qed.

Lemma entry_scaled_twice (t : tensor4 Q) (kx ky : Q) (b c y x : nat) :
  entry (scale_channel 1 ky (scale_channel 0 kx t)) b c y x
  == entry t b c y x * (if Nat.eqb c 1 then ky else 1) * (if Nat.eqb c 0 then kx else 1).
Proof.
  rewrite entry_scale_channel.
  destruct (Nat.eqb c 1); rewrite entry_scale_channel; destruct (Nat.eqb c 0); ring.
Qed.

(** X17. Called without [output_shape] and with the default [scaling],
    the two inference methods disagree by the factor [div]: entry by entry,
    the flow of [estimate_flow] is [div] times the flow that
    [estimate_flow_and_confidence_map] returns on the same inputs. *)
Theorem estimate_flow_is_div_times_confidence_map_flow
  (div : Q) (forward : tensor4 Q -> tensor4 Q -> list (tensor4 Q))
  (resize_to_BGR : Z * Z -> tensor4 Q -> tensor4 Q -> tensor4 Q * tensor4 Q)
  (source_img target_img : tensor4 Q) (b c h w : nat) :
  shape4 target_img = (b, c, h, w) ->
  (0 < h)%nat -> (0 < w)%nat ->
  (forall x y, forward x y <> []) ->
  exists flow flow',
    estimate_flow div forward resize_to_BGR source_img target_img None 1 true
    = Return (ChannelFirst flow) /\
    estimate_flow_and_confidence_map_flow forward resize_to_BGR source_img target_img
                                          None 1 true
    = Return (ChannelFirst flow') /\
    forall bi ci y x, entry flow bi ci y x == div * entry flow' bi ci y x.
Proof.
  intros Hshape Hh Hw Hfwd. unfold estimate_flow, estimate_flow_and_confidence_map_flow.
  rewrite Hshape.
  rewrite (@pre_process_data_run resize_to_BGR source_img target_img b c h w Hshape Hh Hw).
  cbv zeta.
  set (s := fst _). set (t := snd _).
  destruct (last_item (forward t s)) as [last |] eqn:Hlast.
  2:{ exfalso. apply (Hfwd t s). destruct (forward t s) as [| x r]; [reflexivity |].
      exfalso. clear - Hlast. revert x Hlast.
      induction r as [| y r IH]; intros x Hlast; simpl in Hlast; [discriminate |].
      apply (IH y). exact Hlast. }
  simpl define_output_shape. cbv beta iota.
  eexists. eexists. split; [reflexivity |]. split; [reflexivity |].
  intros bi ci y x.
  rewrite !entry_scaled_twice, entry_interpolate_Qmult. ring.
Qed.

Lemma estimate_flow_is_div_times_confidence_map_flow_witness :
  exists flow flow',
    estimate_flow 20 example_forward example_resize_to_BGR image_4x4 image_4x4 None 1 true
    = Return (ChannelFirst flow) /\
    estimate_flow_and_confidence_map_flow example_forward example_resize_to_BGR
                                          image_4x4 image_4x4 None 1 true
    = Return (ChannelFirst flow') /\
    forall bi ci y x, entry flow bi ci y x == 20 * entry flow' bi ci y x.
Proof.
  apply (@estimate_flow_is_div_times_confidence_map_flow 20 example_forward
           example_resize_to_BGR image_4x4 image_4x4
           (fst (fst (fst (shape4 image_4x4)))) (snd (fst (fst (shape4 image_4x4)))) 4 4).
  - reflexivity.
  - lia.
  - lia.
  - intros x y. discriminate.
Defined.

(* --------------------------------------------------------------------- *)
(** ** The size of the flows that the triplet constructors return *)
(* --------------------------------------------------------------------- *)







(* --------------------------------------------------------------------- *)
(** ** The evaluation metrics *)
(* --------------------------------------------------------------------- *)

Lemma fold_left_Qplus (l : list Q) (a : Q) : fold_left Qplus l a == a + Qsum l.
Proof.
  revert a. induction l as [| x l IH]; intros a; simpl; [ring |].
  rewrite IH. ring.
Qed.

Lemma qsum_Qsum (l : list Q) : qsum l == Qsum l.
Proof. unfold qsum. rewrite fold_left_Qplus. ring. Qed.

Lemma mean_nonempty (l : list Q) :
  l <> [] -> mean l = Fin (qsum l / Qnat (length l)).
Proof.
  intros Hl. unfold mean. apply xdiv_fin_pos. apply Qnat_pos.
  destruct l; [contradiction | simpl; lia].
Qed.

Lemma le_float_bounds (thresh v : Q) : 0 <= le_float thresh v /\ le_float thresh v <= 1.
Proof. unfold le_float. destruct (Qle_bool v thresh); split; lra. Qed.

Lemma le_float_monotone (t1 t2 v : Q) : t1 <= t2 -> le_float t1 v <= le_float t2 v.
Proof.
  intros Ht. unfold le_float.
  destruct (Qle_bool v t1) eqn:E1; destruct (Qle_bool v t2) eqn:E2; try lra.
  apply Qle_bool_iff in E1.
  assert (H2 : v <= t2) by lra. apply Qle_bool_iff in H2. congruence.
Qed.

Lemma Qsum_map_le (A : Type) (f g : A -> Q) (l : list A) :
  (forall a, f a <= g a) -> Qsum (map f l) <= Qsum (map g l).
Proof.
  intros H. induction l as [| a l IH]; simpl; [lra |]. specialize (H a). lra.
Qed.

Lemma Qsum_map_bounds (A : Type) (f : A -> Q) (l : list A) :
  (forall a, 0 <= f a /\ f a <= 1) ->
  0 <= Qsum (map f l) /\ Qsum (map f l) <= Qnat (length l).
Proof.
  intros H. induction l as [| a l IH].
  - simpl. change (Qnat 0) with 0. split; lra.
  - destruct (H a) as [H0 H1]. destruct IH as [I0 I1].
    change (length (a :: l)) with (1 + length l)%nat. rewrite Qnat_add.
    change (Qnat 1) with 1.
    change (Qsum (map f (a :: l))) with (f a + Qsum (map f l)). split; lra.
Qed.

Lemma length_pick (A : Type) (vs : list A) (ms : list bool) :
  length vs = length ms -> length (pick vs ms) = count_row ms.
Proof.
  unfold count_row. revert ms. induction vs as [| v vs IH]; intros ms Hlen.
  - destruct ms; [reflexivity | discriminate].
  - destruct ms as [| m ms]; [discriminate |]. injection Hlen as Hlen.
    destruct m; simpl; [f_equal |]; now apply IH.
Qed.

Lemma length_pick3 (A : Type) (vs : tensor3 A) (ms : tensor3 bool) :
  shape_of3 vs = shape_of3 ms -> length (pick3 vs ms) = count3 ms.
Proof.
  unfold shape_of3, pick3, count3. revert ms.
  induction vs as [| vi vs IH]; intros ms Hs.
  - destruct ms; [reflexivity | discriminate].
  - destruct ms as [| mi ms]; [discriminate |]. simpl in Hs. injection Hs as Hi Hs.
    simpl. rewrite length_app, (IH ms Hs). f_equal.
    clear - Hi. revert mi Hi. induction vi as [| r vi IH]; intros mi Hi.
    + destruct mi; [reflexivity | discriminate].
    + destruct mi as [| mr mi]; [discriminate |]. simpl in Hi. injection Hi as Hr Hi.
      simpl. rewrite length_app, (IH mi Hi), (length_pick _ _ Hr). reflexivity.
Qed.

Lemma same_shape3_true (A B : Type) (t : tensor3 A) (m : tensor3 B) :
  same_shape3 t m = true -> shape_of3 t = shape_of3 m.
Proof.
  unfold same_shape3.
  destruct (list_eq_dec (list_eq_dec Nat.eq_dec) (shape_of3 t) (shape_of3 m));
    [trivial | discriminate].
Qed.

Lemma length_zip_with (A B C : Type) (f : A -> B -> C) (l : list A) (m : list B) :
  length (zip_with f l m) = Nat.min (length l) (length m).
Proof.
  revert m. induction l as [| a l IH]; intros m; simpl; [reflexivity |].
  destruct m; simpl; [reflexivity | now rewrite IH].
Qed.

Section MetricsProperties.
Variable qsqrt : Q -> Q.

Lemma masked_EPE_length (output target : tensor4 Q) (mask_gt : tensor3 bool)
      (ratio_x ratio_y : option Q) :
  masked_EPE qsqrt output target mask_gt ratio_x ratio_y <> IndexError ->
  exists EPE,
    masked_EPE qsqrt output target mask_gt ratio_x ratio_y = Selected EPE /\
    length EPE = count3 mask_gt.
Proof.
  unfold masked_EPE. cbv zeta.
  destruct (same_shape3 (channel 0 target) mask_gt) eqn:H1; simpl; [| congruence].
  destruct (same_shape3 (channel 1 target) mask_gt) eqn:H2; simpl; [| congruence].
  destruct (same_shape3 (channel 0 (realEPE_upsampled_output output target ratio_x ratio_y))
                        mask_gt) eqn:H3; simpl; [| congruence].
  destruct (same_shape3 (channel 1 (realEPE_upsampled_output output target ratio_x ratio_y))
                        mask_gt) eqn:H4; simpl; [| congruence].
  intros _. eexists. split; [reflexivity |].
  unfold norm_rows. rewrite !length_zip_with.
  rewrite !length_pick3 by now apply same_shape3_true.
  lia.
Qed.

End MetricsProperties.

(** X19. For a mask without a valid pixel, [realEPE] returns NaN, and so do
    the four values of [real_metrics]: the mean of no end-point error is 0/0,
    not 0. *)
Theorem metrics_of_empty_mask_are_nan
  (qsqrt : Q -> Q) (output target : tensor4 Q) (mask_gt : tensor3 bool)
  (ratio_x ratio_y : option Q) (thresh_1 thresh_2 thresh_3 : Q) :
  masked_EPE qsqrt output target mask_gt ratio_x ratio_y <> IndexError ->
  count3 mask_gt = 0%nat ->
  realEPE qsqrt output target mask_gt ratio_x ratio_y = Selected NaN /\
  real_metrics qsqrt output target mask_gt ratio_x ratio_y thresh_1 thresh_2 thresh_3
    = Selected (NaN, NaN, NaN, NaN).
Proof.
  intros Hok Hcount.
  destruct (@masked_EPE_length qsqrt output target mask_gt ratio_x ratio_y Hok)
    as (EPE & Hsel & Hlen).
  unfold realEPE, real_metrics. rewrite Hsel. rewrite Hcount in Hlen.
  destruct EPE; [| discriminate]. split; reflexivity.
Qed.

Lemma metrics_of_empty_mask_are_nan_witness :
  realEPE (fun v => v) consistent_first consistent_sum [[[false; false]]] None None
    = Selected NaN /\
  real_metrics (fun v => v) consistent_first consistent_sum [[[false; false]]] None None 1 3 5
    = Selected (NaN, NaN, NaN, NaN).
Proof.
  apply (@metrics_of_empty_mask_are_nan (fun v => v) consistent_first consistent_sum
           [[[false; false]]] None None 1 3 5).
  - vm_compute. discriminate.
  - reflexivity.
Defined.

(** X20. For flows with finite entries, a mask with at least one valid
    pixel and thresholds in increasing order, the three PCK values of
    [real_metrics] are ordered fractions, 0 <= PCK-1 <= PCK-3 <= PCK-5 <= 1,
    and its end-point error is the value that [realEPE] returns on the same
    inputs. *)
Theorem pck_values_are_ordered_fractions
  (qsqrt : Q -> Q) (output target : tensor4 Q) (mask_gt : tensor3 bool)
  (ratio_x ratio_y : option Q) (thresh_1 thresh_2 thresh_3 : Q) :
  masked_EPE qsqrt output target mask_gt ratio_x ratio_y <> IndexError ->
  count3 mask_gt <> 0%nat ->
  thresh_1 <= thresh_2 -> thresh_2 <= thresh_3 ->
  exists (EPE : xq) (PCK_1 PCK_3 PCK_5 : Q),
    real_metrics qsqrt output target mask_gt ratio_x ratio_y thresh_1 thresh_2 thresh_3
      = Selected (EPE, Fin PCK_1, Fin PCK_3, Fin PCK_5) /\
    realEPE qsqrt output target mask_gt ratio_x ratio_y = Selected EPE /\
    0 <= PCK_1 /\ PCK_1 <= PCK_3 /\ PCK_3 <= PCK_5 /\ PCK_5 <= 1.
Proof.
  intros Hok Hcount H12 H23.
  destruct (@masked_EPE_length qsqrt output target mask_gt ratio_x ratio_y Hok)
    as (EPE & Hsel & Hlen).
  unfold realEPE, real_metrics. rewrite Hsel. cbv zeta.
  assert (Hne : EPE <> []) by (intros ->; simpl in Hlen; congruence).
  assert (Hmap : forall t, map (le_float t) EPE <> [])
    by (intros t; destruct EPE; [contradiction | discriminate]).
  rewrite (mean_nonempty (Hmap thresh_1)), (mean_nonempty (Hmap thresh_2)),
    (mean_nonempty (Hmap thresh_3)).
  do 4 eexists. split; [reflexivity |]. split; [reflexivity |].
  rewrite !length_map, !qsum_Qsum.
  assert (Hn : 0 < Qnat (length EPE))
    by (apply Qnat_pos; destruct EPE; [contradiction | simpl; lia]).
  destruct (Qsum_map_bounds (le_float thresh_1) EPE (le_float_bounds thresh_1)) as [L1 _].
  destruct (Qsum_map_bounds (le_float thresh_3) EPE (le_float_bounds thresh_3)) as [_ U3].
  pose proof (Qsum_map_le (le_float thresh_1) (le_float thresh_2) EPE
                (fun v => le_float_monotone v H12)) as M12.
  pose proof (Qsum_map_le (le_float thresh_2) (le_float thresh_3) EPE
                (fun v => le_float_monotone v H23)) as M23.
  repeat split.
  - apply Qle_shift_div_l; [exact Hn | lra].
  - apply Qle_shift_div_l; [exact Hn |].
    setoid_replace (Qsum (map (le_float thresh_1) EPE) / Qnat (length EPE) * Qnat (length EPE))
      with (Qsum (map (le_float thresh_1) EPE)) by (field; lra).
    exact M12.
  - apply Qle_shift_div_l; [exact Hn |].
    setoid_replace (Qsum (map (le_float thresh_2) EPE) / Qnat (length EPE) * Qnat (length EPE))
      with (Qsum (map (le_float thresh_2) EPE)) by (field; lra).
    exact M23.
  - apply Qle_shift_div_r; [exact Hn | lra].
Qed.

Lemma pck_values_are_ordered_fractions_witness :
  exists (EPE : xq) (PCK_1 PCK_3 PCK_5 : Q),
    real_metrics (fun v => v) consistent_first consistent_sum first_of_two None None 1 3 5
      = Selected (EPE, Fin PCK_1, Fin PCK_3, Fin PCK_5) /\
    realEPE (fun v => v) consistent_first consistent_sum first_of_two None None
      = Selected EPE /\
    0 <= PCK_1 /\ PCK_1 <= PCK_3 /\ PCK_3 <= PCK_5 /\ PCK_5 <= 1.
Proof.
  apply (@pck_values_are_ordered_fractions (fun v => v) consistent_first consistent_sum
           first_of_two None None 1 3 5).
  - vm_compute. discriminate.
  - vm_compute. discriminate.
  - vm_compute. discriminate.
  - vm_compute. discriminate.
Defined.

(** The F-score of one channel of one sample, from the prediction and the
    ground truth of the channel. *)
Lemma fbeta_score_per_channel (y_true y_pred : tensor4 Q) (beta eps : Q) :
  fbeta_score y_true y_pred beta eps
  = xmean (zip_with (zip_with (fun p t =>
             xmul (xdiv (xmul (xdiv (Fin (qsum (concat (izip Qmult p t))))
                                    (Fin (qsum (concat p) + eps)))
                              (xdiv (Fin (qsum (concat (izip Qmult p t))))
                                    (Fin (qsum (concat t) + eps))))
                        (xadd (xadd (xmul (xdiv (Fin (qsum (concat (izip Qmult p t))))
                                                (Fin (qsum (concat p) + eps)))
                                          (Fin (beta * beta)))
                                    (xdiv (Fin (qsum (concat (izip Qmult p t))))
                                          (Fin (qsum (concat t) + eps))))
                              (Fin eps)))
                  (Fin (1 + beta * beta))))
           y_pred y_true).
Proof.
  unfold fbeta_score, sum_spatial, tzip, tzip3. cbv zeta. f_equal.
  revert y_true. induction y_pred as [| ps y_pred IH]; intros y_true; simpl; [reflexivity |].
  destruct y_true as [| ts y_true]; simpl; [reflexivity |].
  rewrite IH. f_equal.
  clear. revert ts. induction ps as [| p ps IH]; intros ts; simpl; [reflexivity |].
  destruct ts as [| t ts]; simpl; [reflexivity |].
  now rewrite IH.
Qed.

Lemma Qsum_products (r r' : list Q) :
  Forall in_unit_interval r -> Forall in_unit_interval r' ->
  0 <= Qsum (zip_with Qmult r r') /\
  Qsum (zip_with Qmult r r') <= Qsum r /\
  Qsum (zip_with Qmult r r') <= Qsum r' /\
  0 <= Qsum r /\ 0 <= Qsum r'.
Proof.
  intros Hr. revert r'. induction Hr as [| a r [Ha0 Ha1] Hr IH]; intros r' Hr'.
  - simpl. destruct Hr' as [| c r' [Hc0 Hc1] Hr']; simpl.
    + repeat split; lra.
    + clear - Hc0 Hr'. assert (0 <= Qsum r').
      { induction Hr' as [| x l [Hx _] _ IH]; simpl; lra. }
      repeat split; lra.
  - destruct Hr' as [| c r' [Hc0 Hc1] Hr']; simpl.
    + assert (0 <= Qsum r).
      { clear - Hr. induction Hr as [| x l [Hx _] _ IH]; simpl; lra. }
      repeat split; lra.
    + destruct (IH r' Hr') as (I0 & I1 & I2 & I3 & I4).
      repeat split; nra.
Qed.

Lemma image_sum_products (p t : image Q) :
  Forall (Forall in_unit_interval) p -> Forall (Forall in_unit_interval) t ->
  0 <= qsum (concat (izip Qmult p t)) /\
  qsum (concat (izip Qmult p t)) <= qsum (concat p) /\
  qsum (concat (izip Qmult p t)) <= qsum (concat t).
Proof.
  intros Hp Ht. rewrite !qsum_Qsum.
  assert (Hnonneg : forall im : image Q,
             Forall (Forall in_unit_interval) im -> 0 <= Qsum (concat im)).
  { intros im Him. induction Him as [| r im Hr _ IH]; simpl; [lra |].
    rewrite Qsum_app.
    destruct (Qsum_products Hr (Forall_nil _)) as (_ & _ & _ & H0 & _). lra. }
  unfold izip. revert t Ht. induction Hp as [| r p Hr Hp IH]; intros t Ht.
  - simpl. specialize (Hnonneg t Ht). repeat split; lra.
  - destruct Ht as [| r' t Hr' Ht]; simpl.
    + pose proof (Hnonneg (r :: p) (Forall_cons _ Hr Hp)) as H0. simpl in H0.
      repeat split; lra.
    + rewrite !Qsum_app.
      destruct (Qsum_products Hr Hr') as (J0 & J1 & J2 & _ & _).
      destruct (IH t Ht) as (I0 & I1 & I2).
      repeat split; lra.
Qed.

Lemma channel_score_bounds (tp sp st beta2 eps : Q) :
  0 <= tp -> tp <= sp -> tp <= st -> 0 <= beta2 -> 0 < eps ->
  exists q,
    xmul (xdiv (xmul (xdiv (Fin tp) (Fin (sp + eps))) (xdiv (Fin tp) (Fin (st + eps))))
               (xadd (xadd (xmul (xdiv (Fin tp) (Fin (sp + eps))) (Fin beta2))
                           (xdiv (Fin tp) (Fin (st + eps))))
                     (Fin eps)))
         (Fin (1 + beta2))
    = Fin q /\ 0 <= q /\ q <= 1.
Proof.
  intros H0 Hp Ht Hb He.
  assert (Hdp : 0 < sp + eps) by lra. assert (Hdt : 0 < st + eps) by lra.
  rewrite !(xdiv_fin_pos _ Hdp), !(xdiv_fin_pos _ Hdt). simpl xmul. simpl xadd.
  set (P := tp / (sp + eps)). set (R := tp / (st + eps)).
  assert (HP : 0 <= P /\ P <= 1).
  { unfold P. split; [apply Qle_shift_div_l | apply Qle_shift_div_r]; lra. }
  assert (HR : 0 <= R /\ R <= 1).
  { unfold R. split; [apply Qle_shift_div_l | apply Qle_shift_div_r]; lra. }
  destruct HP as [HP0 HP1]. destruct HR as [HR0 HR1].
  assert (HD : 0 < P * beta2 + R + eps) by nra.
  pose proof HD as Hcmp. apply Qgt_alt in Hcmp. rewrite Hcmp. simpl xmul.
  eexists. split; [reflexivity |].
  assert (HPR : 0 <= P * R) by nra.
  assert (HPb : 0 <= P * beta2) by nra.
  assert (HPR1 : P * R <= R) by nra.
  assert (HPb1 : P * beta2 * R <= P * beta2) by nra.
  assert (Hnum : 0 <= P * R * (1 + beta2)) by nra.
  assert (Hle : P * R * (1 + beta2) <= P * beta2 + R + eps) by nra.
  setoid_replace (P * R / (P * beta2 + R + eps) * (1 + beta2))
    with (P * R * (1 + beta2) / (P * beta2 + R + eps)) by (field; lra).
  split; [apply Qle_shift_div_l | apply Qle_shift_div_r]; lra.
Qed.

Lemma xsum_unit_bounds (l : list xq) :
  Forall (fun v => exists q, v = Fin q /\ 0 <= q /\ q <= 1) l ->
  exists s, xsum l = Fin s /\ 0 <= s /\ s <= Qnat (length l).
Proof.
  intros H.
  assert (Hfin : Forall is_fin l).
  { revert H. apply Forall_impl. intros v (q & -> & _). exact I. }
  destruct (xsum_fin Hfin) as (s & Hs & Heq).
  exists s. split; [exact Hs |]. rewrite Heq. clear Hs Heq Hfin.
  induction H as [| v l (q & -> & Hq0 & Hq1) _ IH].
  - simpl. change (Qnat 0) with 0. split; lra.
  - change (length (Fin q :: l)) with (1 + length l)%nat. rewrite Qnat_add.
    change (Qnat 1) with 1. simpl. destruct IH as [I0 I1]. split; lra.
Qed.

(** X21. For a ground truth and a prediction of one shape with entries
    between 0 and 1, at least one sample and one channel, and [eps > 0],
    [fbeta_score] is a finite number between 0 and 1 for every [beta]: it is
    never NaN, also when a prediction or a ground truth is 0 everywhere. *)
Theorem fbeta_score_is_a_fraction
  (y_true y_pred : tensor4 Q) (beta eps : Q) (b c h w : nat) :
  tensor4_wf b c h w y_true -> tensor4_wf b c h w y_pred ->
  (0 < b)%nat -> (0 < c)%nat ->
  all_entries in_unit_interval y_true -> all_entries in_unit_interval y_pred ->
  0 < eps ->
  exists q, fbeta_score y_true y_pred beta eps = Fin q /\ 0 <= q /\ q <= 1.
Proof.
  intros [Hbt Hwt] [Hbp Hwp] Hb Hc Ht Hp He.
  rewrite fbeta_score_per_channel.
  match goal with |- context [xmean ?X] => set (F := X) end.
  unfold xmean.
  assert (Hall : Forall (Forall (fun v => exists q, v = Fin q /\ 0 <= q /\ q <= 1)) F).
  { unfold F. unfold all_entries, all_entries3 in Hp, Ht.
    apply (zip_with_Forall (P := Forall (Forall (Forall in_unit_interval)))
                           (R := Forall (Forall (Forall in_unit_interval))));
      [| exact Hp | exact Ht].
    intros ps ts Hps Hts.
    apply (zip_with_Forall (P := Forall (Forall in_unit_interval))
                           (R := Forall (Forall in_unit_interval)));
      [| exact Hps | exact Hts].
    intros p t Hpi Hti.
    destruct (image_sum_products Hpi Hti) as (H0 & H1 & H2).
    apply channel_score_bounds; try assumption. nra. }
  assert (Hflat : Forall (fun v => exists q, v = Fin q /\ 0 <= q /\ q <= 1) (concat F)).
  { clear - Hall. induction Hall as [| x l Hx _ IH]; simpl; [constructor |].
    apply Forall_app. split; assumption. }
  assert (Hlen : (0 < length (concat F))%nat).
  { unfold F. destruct y_pred as [| ps y_pred]; [simpl in Hbp; lia |].
    destruct y_true as [| ts y_true]; [simpl in Hbt; lia |].
    apply Forall_inv in Hwt. destruct Hwt as [Hct _].
    apply Forall_inv in Hwp. destruct Hwp as [Hcp _].
    destruct ps as [| p ps]; [simpl in Hcp; lia |].
    destruct ts as [| t ts]; [simpl in Hct; lia |].
    simpl. lia. }
  destruct (xsum_unit_bounds Hflat) as (s & Hs & Hs0 & Hs1).
  rewrite Hs, (xdiv_fin_pos _ (Qnat_pos Hlen)).
  eexists. split; [reflexivity |].
  pose proof (Qnat_pos Hlen) as Hn.
  split; [apply Qle_shift_div_l | apply Qle_shift_div_r]; lra.
Qed.

Lemma fbeta_score_is_a_fraction_witness :
  exists q, fbeta_score occlusion_true occlusion_pred 1 (1 # 100000000) = Fin q /\
            0 <= q /\ q <= 1.
Proof.
  apply (@fbeta_score_is_a_fraction occlusion_true occlusion_pred 1 (1 # 100000000)
           1 1 1 2)%nat.
  - repeat constructor.
  - repeat constructor.
  - lia.
  - lia.
  - repeat constructor; vm_compute; discriminate.
  - repeat constructor; vm_compute; discriminate.
  - reflexivity.
Defined.

(* --------------------------------------------------------------------- *)
(** ** The mask chosen by the batch preprocessing *)
(* --------------------------------------------------------------------- *)

Lemma resize_mask_spatial (h w : nat) (mask : tensor3 bool) :
  mask_spatial h w (BatchPreprocessing.resize_mask h w mask).
Proof.
  unfold mask_spatial, BatchPreprocessing.resize_mask, squeeze1, unsqueeze1.
  pose proof (interpolate_spatial (map (fun im => [im]) (tmap3 BatchPreprocessing.float mask))
                                  h w) as Hsp.
  unfold spatial in Hsp.
  unfold tmap, tmap3 at 1. rewrite !map_map.
  apply Forall_forall. intros im Hin. apply in_map_iff in Hin.
  destruct Hin as (s & <- & Hs).
  rewrite Forall_forall in Hsp. specialize (Hsp s Hs).
  destruct s as [| i s]; simpl.
  - split; [| constructor].
    exfalso. unfold Torch.interpolate in Hs. rewrite map_map in Hs.
    apply in_map_iff in Hs. destruct Hs as (x & Hx & _). discriminate.
  - apply Forall_inv in Hsp. destruct Hsp as [Hlen Hrows]. unfold imap. split.
    + now rewrite length_map.
    + apply Forall_map. revert Hrows. apply Forall_impl. intros r Hr.
      now rewrite length_map.
Qed.

(** X22. With the default arguments of the batch preprocessing (no mask
    strategy, [apply_mask] and [apply_mask_zero_borders] both false) the
    mask stays [None] and [mask.bool()] raises [AttributeError], whatever the
    mini-batch holds. *)
Theorem no_mask_option_raises_attribute_error
  (strategy : Type) (get_mask : strategy -> dict (tensor3 bool) -> tensor3 bool)
  (self : BatchPreprocessing.preprocessing strategy)
  (mini_batch : dict (tensor3 bool)) (h w : nat) :
  BatchPreprocessing.mask_strategy self = None ->
  BatchPreprocessing.apply_mask_zero_borders self = false ->
  BatchPreprocessing.apply_mask self = false ->
  BatchPreprocessing.select_mask get_mask self mini_batch h w
    = BatchPreprocessing.AttributeError.
Proof.
  intros Hs Hz Ha. unfold BatchPreprocessing.select_mask. now rewrite Hs, Hz, Ha.
Qed.

Lemma no_mask_option_raises_attribute_error_witness :
  BatchPreprocessing.select_mask no_strategy default_preprocessing masks_of_batch 1 2
    = BatchPreprocessing.AttributeError.
Proof.
  apply (@no_mask_option_raises_attribute_error unit no_strategy default_preprocessing
           masks_of_batch 1 2); reflexivity.
Defined.

(** X23. Whenever the batch preprocessing ends with a mask, the mask has
    the height and width of the flow: a mask of another size has been
    interpolated to it.  The masks of the mini-batch and of the strategy are
    taken to be well formed: all samples of a mask have the size of its
    first sample. *)
Theorem selected_mask_has_flow_size
  (strategy : Type) (get_mask : strategy -> dict (tensor3 bool) -> tensor3 bool)
  (self : BatchPreprocessing.preprocessing strategy)
  (mini_batch : dict (tensor3 bool)) (h w : nat) (mask : tensor3 bool) :
  (forall k m, lookup k mini_batch = Some m ->
               mask_spatial (height (hd [] m)) (width (hd [] m)) m) ->
  (forall s, mask_spatial (height (hd [] (get_mask s mini_batch)))
                          (width (hd [] (get_mask s mini_batch)))
                          (get_mask s mini_batch)) ->
  BatchPreprocessing.select_mask get_mask self mini_batch h w
    = BatchPreprocessing.Returned mask ->
  mask_spatial h w mask.
Proof.
  intros Hbatch Hstrategy. unfold BatchPreprocessing.select_mask.
  assert (Hfinish : forall m,
    mask_spatial (height (hd [] m)) (width (hd [] m)) m ->
    (if (negb (Nat.eqb (height (hd [] m)) h) || negb (Nat.eqb (width (hd [] m)) w))%bool
     then BatchPreprocessing.Returned (BatchPreprocessing.resize_mask h w m)
     else BatchPreprocessing.Returned m) = BatchPreprocessing.Returned mask ->
    mask_spatial h w mask).
  { intros m Hm.
    destruct (Nat.eqb_spec (height (hd [] m)) h) as [Hh | Hh]; simpl.
    - destruct (Nat.eqb_spec (width (hd [] m)) w) as [Hw | Hw]; simpl.
      + intros H. injection H as <-. now rewrite <- Hh, <- Hw.
      + intros H. injection H as <-. apply resize_mask_spatial.
    - intros H. injection H as <-. apply resize_mask_spatial. }
  destruct (BatchPreprocessing.mask_strategy self) as [s |].
  - apply Hfinish, Hstrategy.
  - destruct (BatchPreprocessing.apply_mask_zero_borders self).
    + destruct (lookup "mask_zero_borders" mini_batch) as [m |] eqn:Hm; [| discriminate].
      apply Hfinish. now apply (Hbatch "mask_zero_borders"%string).
    + destruct (BatchPreprocessing.apply_mask self); [| discriminate].
      destruct (lookup "correspondence_mask" mini_batch) as [m |] eqn:Hm; [| discriminate].
      apply Hfinish. now apply (Hbatch "correspondence_mask"%string).
Qed.

Lemma selected_mask_has_flow_size_witness :
  mask_spatial 2 4 (BatchPreprocessing.resize_mask 2 4 first_of_two).
Proof.
  apply (@selected_mask_has_flow_size unit no_strategy apply_mask_only masks_of_batch 2 4
           (BatchPreprocessing.resize_mask 2 4 first_of_two)).
  - intros k m Hk. simpl in Hk.
    destruct (String.eqb k "correspondence_mask"); [| discriminate].
    injection Hk as <-. repeat constructor.
  - intros s. constructor.
  - reflexivity.
Defined.

(* --------------------------------------------------------------------- *)
(** ** The center crop, when the crop is larger than the image *)
(* --------------------------------------------------------------------- *)

(** X24. When half the crop size exceeds half the size of the image along
    a dimension, the start offset is negative and Python counts it from the
    end: the slice [start : start + crop] then holds only the last
    [crop // 2 - dim // 2] entries of the dimension (all of them when there
    are no more), not the whole image and not a centered part of it. *)
Theorem oversized_crop_keeps_the_tail (A : Type) (l : list A) (crop_dim : nat) :
  (length l / 2 < crop_dim / 2)%nat ->
  py_slice (start_offset (length l) crop_dim)
           (start_offset (length l) crop_dim + Z.of_nat crop_dim) l
  = skipn (length l - (crop_dim / 2 - length l / 2)) l.
Proof.
  intros Hhalf. unfold py_slice, slice_index, start_offset.
  rewrite <- !(Nat2Z.inj_div _ 2).
  pose proof (Nat.div_mod_eq (length l) 2) as Hl.
  pose proof (Nat.div_mod_eq crop_dim 2) as Hc.
  pose proof (Nat.mod_upper_bound (length l) 2) as Hlm.
  pose proof (Nat.mod_upper_bound crop_dim 2) as Hcm.
  set (dl := (length l / 2)%nat) in *. set (dc := (crop_dim / 2)%nat) in *.
  destruct (Z.ltb_spec (Z.of_nat dl - Z.of_nat dc) 0) as [_ | H]; [| lia].
  destruct (Z.ltb_spec (Z.of_nat dl - Z.of_nat dc + Z.of_nat crop_dim) 0) as [H | _]; [lia |].
  rewrite Z.min_r by lia.
  replace (Z.to_nat (Z.max (Z.of_nat dl - Z.of_nat dc + Z.of_nat (length l)) 0))
    with (length l - (dc - dl))%nat by lia.
  apply firstn_all2. rewrite length_skipn. lia.
Qed.

Lemma oversized_crop_keeps_the_tail_witness :
  py_slice (start_offset 4 6) (start_offset 4 6 + Z.of_nat 6) [0; 1; 2; 3] = [3].
Proof.
  apply (@oversized_crop_keeps_the_tail Q [0; 1; 2; 3] 6%nat).
  vm_compute. lia.
Defined.
